(** * DC_Topos: datacenter topology generators

    A shallow embedding of [Code/Topologies/*.py]: the networkx [DiGraph]
    the generators build, the [Topology] base class with its capacity
    contract, and the four generators [FatTree], [Fabric], [Jupiter] and
    [Jupiter_bl].

    Conventions of the embedding:
    - Python integers are [Z]; [range(a, b)] is a record of its two bounds;
    - a raised exception is a value of [result]; every indexing of a range
      or of a list and every division keeps its failure case;
    - [int(a / b)] (true division, then truncation) is [Z.quot a b], which
      is exact as long as the operands stay below 2^53, far above any
      switch count;
    - the switch counts of [FatTree.__init__] are products of floats:
      [FatTree.init] takes them as the integer products, which is what
      binary64 gives for every port count below 189812534, and
      [FatTree.init_binary64] rounds them as binary64 does;
    - a [for] loop is [for_each] over the list of the values it visits, the
      loop-carried variables are the explicit state of the fold; the one
      [while] loop runs on fuel, given enough of it whenever it exits;
    - a networkx [DiGraph] is its node set and a finite map from ordered
      pairs of nodes to the attribute dictionary of the edge. *)

From stdpp Require Import gmap strings list fin_maps pretty.
From Stdlib Require Import ZArith Lia QArith Qcanon Qround.

#[local] Set Warnings "-clear-no-such-hyp".
Local Open Scope Z_scope.

(** ** Exceptions and results *)

Inductive exn :=
  ValueError | IndexError | ZeroDivisionError | AssertionError | OverflowError.

(** What running a piece of code comes to: a value, an exception, or a
    [while] loop that never exits. *)
Inductive result (A : Type) : Type :=
| Ok (a : A)
| Raise (e : exn)
| Diverge.
Arguments Ok {A} a.
Arguments Raise {A} e.
Arguments Diverge {A}.

#[global] Instance result_ret : MRet result := fun A a => Ok a.
#[global] Instance result_bind : MBind result := fun A B f m =>
  match m with
  | Ok a => f a
  | Raise e => Raise e
  | Diverge => Diverge
  end.

(** [assert b] *)
Definition py_assert (b : Prop) `{Decision b} : result unit :=
  if decide b then Ok tt else Raise AssertionError.

Definition is_Ok {A} (r : result A) : Prop := exists a, r = Ok a.

(** [for x in l: s = body x s] *)
Fixpoint for_each {S A : Type} (l : list A) (body : A -> S -> result S) (s : S)
  : result S :=
  match l with
  | [] => Ok s
  | x :: l' => s' ← body x s; for_each l' body s'
  end.

(** ** Python integers *)

(** [int(a / b)] *)
Definition int_div (a b : Z) : result Z :=
  if decide (b = 0) then Raise ZeroDivisionError else Ok (Z.quot a b).

(** [a % b] *)
Definition py_mod (a b : Z) : result Z :=
  if decide (b = 0) then Raise ZeroDivisionError else Ok (a mod b).

(** ** Python floats that hold integers *)



(** ** [range(start, stop)] *)

Record range := Range { start : Z; stop : Z }.

Definition range_len (r : range) : Z := Z.max 0 (stop r - start r).

(** [r[i]], negative indices counting from the end *)
Definition range_get (r : range) (i : Z) : result Z :=
  if decide (0 <= i < range_len r) then Ok (start r + i)
  else if decide (- range_len r <= i < 0) then Ok (start r + range_len r + i)
  else Raise IndexError.

(** the values [for i in r] visits *)
Definition range_list (r : range) : list Z := seqZ (start r) (range_len r).

(** [l[i]] for a list and a non-negative index *)
Definition list_get {A} (l : list A) (i : Z) : result A :=
  if decide (0 <= i) then
    match l !! Z.to_nat i with
    | Some x => Ok x
    | None => Raise IndexError
    end
  else Raise IndexError.

(** ** networkx.DiGraph *)

Section Graph.
Context {V : Type}.

Record DiGraph := mkDiGraph {
  nodes : gset Z;
  edges : gmap (Z * Z) (gmap string V)
}.

Definition empty_graph : DiGraph := mkDiGraph ∅ ∅.

Definition add_nodes_from (l : list Z) (G : DiGraph) : DiGraph :=
  mkDiGraph (list_to_set l ∪ nodes G) (edges G).

(** [G.add_edge(u, v)]: both endpoints become nodes; an edge that is
    already there keeps its attributes. *)
Definition add_edge (u v : Z) (G : DiGraph) : DiGraph :=
  mkDiGraph ({[u; v]} ∪ nodes G)
            (match edges G !! (u, v) with
             | Some _ => edges G
             | None => <[(u, v) := ∅]> (edges G)
             end).

(** The pair of calls every generator makes for one cable:
    [G.add_edge(v1, v2); G.add_edge(v2, v1)]. *)
Definition add_link (v1 v2 : Z) (G : DiGraph) : DiGraph :=
  add_edge v2 v1 (add_edge v1 v2 G).

(** [G.edges[u, v][key] = x] *)
Definition set_edge_attr (u v : Z) (key : string) (x : V) (G : DiGraph) : DiGraph :=
  mkDiGraph (nodes G) (alter (insert key x) (u, v) (edges G)).

Definition has_edge (G : DiGraph) (u v : Z) : Prop := (u, v) ∈ dom (edges G).


(** util.gen_nodes *)
Definition gen_nodes (switches : list Z) : DiGraph :=
  let s_total := fold_left Z.add switches 0 in
  let switch_id := seqZ 1 (s_total + 1 - 1) in
  add_nodes_from switch_id empty_graph.
End Graph.
Arguments DiGraph V : clear implicits.

(** ** topology.Topology *)

(** What a capacity function can read from the topology instance it is
    handed: the per-layer ranges and the descriptor (which spells out the
    class and all its parameters). *)
Record instance := Instance_ { inst_indices : list range; inst_descriptor : string }.

(** A Python callable as the code observes it: the number of parameters
    [inspect.signature] reports, and its value on the two call shapes
    [f(u, v)] and [f(u, v, self)]. *)
Record callable (V : Type) := Callable {
  nr_of_params : nat;
  call2 : Z -> Z -> V;
  call3 : Z -> Z -> instance -> V
}.
Arguments nr_of_params {V} c.
Arguments call2 {V} c.
Arguments call3 {V} c.

Module Topology.
Section defs.
Context {V : Type}.

Record t := mk {
  indices : list range;
  descriptor : string;
  capacity_function : option (callable V)
}.

Definition self_of (self : t) : instance :=
  Instance_ (indices self) (descriptor self).

Definition init (indices : list range) (descriptor : string)
    (capacity_function : option (callable V)) : result t :=
  match capacity_function with
  | Some f =>
      let nr := nr_of_params f in
      if (nr <? 2)%nat || (3 <? nr)%nat then Raise ValueError
      else Ok (mk indices descriptor capacity_function)
  | None => Ok (mk indices descriptor capacity_function)
  end.

(** [for (u, v) in G.edges: G.edges[u, v]['capacity'] = cap u v] *)
Definition annotate (cap : Z -> Z -> V) (G : DiGraph V) : DiGraph V :=
  fold_left (fun G e => set_edge_attr e.1 e.2 "capacity" (cap e.1 e.2) G)
            ((map_to_list (edges G)).*1) G.

Definition init_capacities (self : t) (G : DiGraph V) : DiGraph V :=
  match capacity_function self with
  | Some f =>
      if (nr_of_params f =? 2)%nat then annotate (call2 f) G
      else if (nr_of_params f =? 3)%nat then
        annotate (fun u v => call3 f u v (self_of self)) G
      else G
  | None => G
  end.
End defs.
Arguments t V : clear implicits.
End Topology.

(** ** fatTree.FatTree *)

Module FatTree.
Section defs.
Context {V : Type}.

Record t := mk {
  port_count : Z;
  tor_switches : Z;
  aggregation_switches : Z;
  core_switches : Z;
  tor_idx_range : range;
  aggregation_idx_range : range;
  core_idx_range : range;
  base : Topology.t V
}.

(** [port_count] is even past the first test, so [port_count / 2] is an
    integral float.  The products are taken here as the integer products,
    which is what their floats hold for every port count below 189812534;
    [init_binary64] below rounds them. *)
Definition init (port_count : Z) (capacity_function : option (callable V))
  : result t :=
  if decide (port_count mod 2 <> 0) then Raise ValueError else
  let pods := port_count in
  let tor_switches := pods * Z.quot port_count 2 in
  let aggregation_switches := pods * Z.quot port_count 2 in
  let core_switches := Z.quot port_count 2 ^ 2 in
  let tor_idx_range := Range 1 (tor_switches + 1) in
  last_tor_idx ← range_get tor_idx_range (-1);
  let aggregation_idx_range :=
    Range (last_tor_idx + 1) (last_tor_idx + 1 + aggregation_switches) in
  last_agg_idx ← range_get aggregation_idx_range (-1);
  let core_idx_range :=
    Range (last_agg_idx + 1) (last_agg_idx + 1 + core_switches) in
  let indices := [tor_idx_range; aggregation_idx_range; core_idx_range] in
  b ← Topology.init indices ("FatTree_" +:+ pretty port_count) capacity_function;
  Ok (mk port_count tor_switches aggregation_switches core_switches
         tor_idx_range aggregation_idx_range core_idx_range b).


(** the wiring of [gen_graph], before the capacities *)
Definition wire (self : t) : result (DiGraph V) :=
  let G := gen_nodes [tor_switches self; aggregation_switches self;
                      core_switches self] in
  (* Wiring inside pods *)
  let pod_step := 0 in
  let pods := port_count self in
  '(G, _) ← for_each (seqZ 0 (tor_switches self))
    (fun i '(G, pod_step) =>
       pod_step ←
         (if decide (i <> 0) then
            k ← int_div (tor_switches self) pods;
            m ← py_mod i k;
            if decide (m = 0) then
              d ← int_div (aggregation_switches self) pods;
              Ok (pod_step + d)
            else Ok pod_step
          else Ok pod_step);
       n ← int_div (aggregation_switches self) pods;
       G ← for_each (seqZ 0 n)
         (fun j G =>
            let v1 := i + 1 in
            let v2 := tor_switches self + pod_step + j + 1 in
            Ok (add_link v1 v2 G)) G;
       Ok (G, pod_step))
    (G, pod_step);
  (* Wiring to the core *)
  let pods := port_count self in
  s_per_core_group ← int_div pods 2;
  let group_step := 0 in
  '(G, _) ← for_each (seqZ 0 (aggregation_switches self))
    (fun i '(G, group_step) =>
       group_step ←
         (if decide (i <> 0) then
            k ← int_div (aggregation_switches self) pods;
            m ← py_mod i k;
            if decide (m = 0) then Ok 0 else Ok group_step
          else Ok group_step);
       G ← for_each (seqZ 0 s_per_core_group)
         (fun j G =>
            let v1 := aggregation_switches self + i + 1 in
            let v2 := 2 * aggregation_switches self + group_step + j + 1 in
            Ok (add_link v1 v2 G)) G;
       let group_step := group_step + s_per_core_group in
       Ok (G, group_step))
    (G, group_step);
  Ok G.

Definition gen_graph (self : t) : result (DiGraph V) :=
  G ← wire self;
  Ok (Topology.init_capacities (base self) G).
End defs.
Arguments t V : clear implicits.
End FatTree.

(** ** fabric.Fabric *)

Module Fabric.
Section defs.
Context {V : Type}.

Record t := mk {
  server_pods : Z;
  edge_pods : Z;
  nr_of_planes : Z;
  port_count : Z;
  tor_idx_range : range;
  fabric_idx_range : range;
  spine_idx_range : range;
  edge_idx_range : range;
  base : Topology.t V
}.

Definition init (server_pods edge_pods nr_of_planes port_count : Z)
    (capacity_function : option (callable V)) : result t :=
  let last_tor_idx := port_count * server_pods in
  let last_fabric_idx := last_tor_idx + nr_of_planes * server_pods in
  let last_spine_idx := last_fabric_idx + nr_of_planes * server_pods in
  let last_edge_idx := last_spine_idx + edge_pods * nr_of_planes in
  let tor_idx_range := Range 1 (last_tor_idx + 1) in
  let fabric_idx_range := Range (last_tor_idx + 1) (last_fabric_idx + 1) in
  let spine_idx_range := Range (last_fabric_idx + 1) (last_spine_idx + 1) in
  let edge_idx_range := Range (last_spine_idx + 1) (last_edge_idx + 1) in
  let indices := [tor_idx_range; fabric_idx_range; spine_idx_range;
                  edge_idx_range] in
  b ← Topology.init indices
        ("Fabric_" +:+ pretty server_pods +:+ "_" +:+ pretty edge_pods +:+ "_"
         +:+ pretty nr_of_planes +:+ "_" +:+ pretty port_count)
        capacity_function;
  Ok (mk server_pods edge_pods nr_of_planes port_count tor_idx_range
         fabric_idx_range spine_idx_range edge_idx_range b).

(** [while current <= topo.spine_idx_range[-1]: ...; current += nr_of_planes] *)
Fixpoint plane_loop (fuel : nat) (topo : t) (switch_idx current : Z)
    (G : DiGraph V) : result (DiGraph V) :=
  last ← range_get (spine_idx_range topo) (-1);
  if decide (current <= last) then
    match fuel with
    | O => Diverge
    | S fuel' =>
        let v1 := current in
        let v2 := switch_idx in
        plane_loop fuel' topo switch_idx (current + nr_of_planes topo)
                   (add_link v1 v2 G)
    end
  else Ok G.

Definition connect_to_plane_switches (G : DiGraph V) (topo : t)
    (plane switch_idx : Z) : result (DiGraph V) :=
  if decide (plane < 0 \/ plane > nr_of_planes topo) then Raise ValueError else
  first ← range_get (spine_idx_range topo) 0;
  let current := first + plane in
  plane_loop (Z.to_nat (stop (spine_idx_range topo) - current)) topo
             switch_idx current G.

Definition wire (self : t) : result (DiGraph V) :=
  let s_tor := range_len (tor_idx_range self) in
  let s_pods := range_len (fabric_idx_range self) in
  let s_spines := range_len (spine_idx_range self) in
  let s_edge := range_len (edge_idx_range self) in
  let G := gen_nodes [s_tor; s_pods; s_spines; s_edge] in
  (* Intra Pod links *)
  first_fabric_s_idx ← range_get (fabric_idx_range self) 0;
  G ← for_each (range_list (tor_idx_range self))
    (fun i G =>
       pod_idx ← int_div (i - 1) (port_count self);
       for_each (seqZ 0 (nr_of_planes self))
         (fun j G =>
            let v1 := i in
            let v2 := first_fabric_s_idx + nr_of_planes self * pod_idx + j in
            Ok (add_link v1 v2 G)) G)
    G;
  (* Intra Fabric Links *)
  let plane := 0 in
  '(G, _) ← for_each (range_list (fabric_idx_range self))
    (fun i '(G, plane) =>
       G ← connect_to_plane_switches G self plane i;
       plane ← py_mod (plane + 1) (nr_of_planes self);
       Ok (G, plane))
    (G, plane);
  (* Edge pod - spine Links *)
  let plane := 0 in
  '(G, _) ← for_each (range_list (edge_idx_range self))
    (fun i '(G, plane) =>
       G ← connect_to_plane_switches G self plane i;
       plane ← py_mod (plane + 1) (nr_of_planes self);
       Ok (G, plane))
    (G, plane);
  Ok G.

Definition gen_graph (self : t) : result (DiGraph V) :=
  G ← wire self;
  Ok (Topology.init_capacities (base self) G).
End defs.
Arguments t V : clear implicits.
End Fabric.

(** ** jupiter.Jupiter *)

Module Jupiter.
Section defs.
Context {V : Type}.

Record t := mk {
  spine_block_count : Z;
  switches_per_spine : Z;
  switches_per_middle_block : Z;
  middle_block_per_aggregation : Z;
  aggregation_block_count : Z;
  tors_per_aggregation_block : Z;
  tor_idx_range : range;
  aggregation_idx_range : range;
  spine_idx_range : range;
  base : Topology.t V
}.

Definition init (spine_block_count aggregation_block_count : Z)
    (capacity_function : option (callable V)) : result t :=
  if decide (spine_block_count < aggregation_block_count) then Raise ValueError
  else
  let switches_per_spine := 6 in
  let switches_per_middle_block := 4 in
  let middle_block_per_aggregation := 8 in
  let tors_per_aggregation_block := 32 in
  let tor_idx_range :=
    Range 1 (aggregation_block_count * tors_per_aggregation_block + 1) in
  last_tor_idx ← range_get tor_idx_range (-1);
  let aggregation_idx_range :=
    Range (last_tor_idx + 1)
          (last_tor_idx
           + aggregation_block_count * middle_block_per_aggregation * 4 + 1) in
  last_agg_idx ← range_get aggregation_idx_range (-1);
  let spine_idx_range :=
    Range (last_agg_idx + 1)
          (last_agg_idx + spine_block_count * switches_per_spine + 1) in
  let indices := [tor_idx_range; aggregation_idx_range; spine_idx_range] in
  b ← Topology.init indices
        ("Jupiter_" +:+ pretty spine_block_count +:+ "_"
         +:+ pretty aggregation_block_count)
        capacity_function;
  Ok (mk spine_block_count switches_per_spine switches_per_middle_block
         middle_block_per_aggregation aggregation_block_count
         tors_per_aggregation_block tor_idx_range aggregation_idx_range
         spine_idx_range b).

(** The three tables of switch indices [gen_graph] builds first; each
    returns the table and the running [current_idx]. *)
Definition prestructure_tors (self : t) (current_idx : Z)
  : result (list (list Z) * Z) :=
  for_each (seqZ 0 (aggregation_block_count self))
    (fun _ '(tors, current_idx) =>
       '(tor_agg, current_idx) ←
         for_each (seqZ 0 (tors_per_aggregation_block self))
           (fun tor '(tor_agg, current_idx) =>
              Ok (tor_agg ++ [current_idx], current_idx + 1))
           ([], current_idx);
       Ok (tors ++ [tor_agg], current_idx))
    ([], current_idx).

Definition prestructure_aggregation (self : t) (current_idx : Z)
  : result (list (list (list Z)) * Z) :=
  for_each (seqZ 0 (aggregation_block_count self))
    (fun _ '(aggregation, current_idx) =>
       '(agg_block, current_idx) ←
         for_each (seqZ 0 8)
           (fun middle_block '(agg_block, current_idx) =>
              '(agg_block_mb, current_idx) ←
                for_each (seqZ 0 4)
                  (fun switch '(agg_block_mb, current_idx) =>
                     Ok (agg_block_mb ++ [current_idx], current_idx + 1))
                  ([], current_idx);
              Ok (agg_block ++ [agg_block_mb], current_idx))
           ([], current_idx);
       Ok (aggregation ++ [agg_block], current_idx))
    ([], current_idx).

Definition prestructure_spines (self : t) (current_idx : Z)
  : result (list (list Z) * Z) :=
  for_each (seqZ 0 (spine_block_count self))
    (fun _ '(spines, current_idx) =>
       '(spine, current_idx) ←
         for_each (seqZ 0 (switches_per_spine self))
           (fun j '(spine, current_idx) =>
              Ok (spine ++ [current_idx], current_idx + 1))
           ([], current_idx);
       Ok (spines ++ [spine], current_idx))
    ([], current_idx).

(** Intra spine links; the state is the graph and [spine_idx]. *)
Definition wire_spines (self : t) (spines : list (list Z)) (G : DiGraph V)
  : result (DiGraph V * Z) :=
  for_each (seqZ 0 (spine_block_count self))
    (fun spine_block st =>
       for_each (seqZ 0 (switches_per_spine self))
         (fun switch '(G, spine_idx) =>
            G ← for_each (seqZ 0 switch)
              (fun previous G =>
                 v1 ← range_get (spine_idx_range self) spine_idx;
                 row ← list_get spines spine_block;
                 v2 ← list_get row previous;
                 Ok (add_link v1 v2 G)) G;
            Ok (G, spine_idx + 1))
         st)
    (G, 0).

(** The cursor over the spine layer of the aggregation loop. *)
Record cursor := Cursor {
  agg_idx : Z;
  spine_block_idx : Z;
  spine_switch_pos : Z
}.

(** Intra aggregation links and the uplinks to the spine layer. *)
Definition wire_aggregation (self : t) (aggregation : list (list (list Z)))
    (spines : list (list Z)) (G : DiGraph V) : result (DiGraph V * cursor) :=
  for_each (seqZ 0 (aggregation_block_count self))
    (fun aggregation_block st =>
       for_each (seqZ 0 8)
         (fun middle_block st =>
            for_each (seqZ 0 4)
              (fun switch '(G, c) =>
                 (* Intra aggregation *)
                 G ← for_each (seqZ 0 switch)
                   (fun previous G =>
                      v1 ← range_get (aggregation_idx_range self) (agg_idx c);
                      blk ← list_get aggregation aggregation_block;
                      mb ← list_get blk middle_block;
                      v2 ← list_get mb previous;
                      Ok (add_link v1 v2 G)) G;
                 (* Aggregation to spine *)
                 '(G, (sb, sp)) ← for_each (seqZ 0 8)
                   (fun _ '(G, (sb, sp)) =>
                      v1 ← range_get (aggregation_idx_range self) (agg_idx c);
                      row ← list_get spines sb;
                      v2 ← list_get row sp;
                      let G := add_link v1 v2 G in
                      sb ← py_mod (sb + 1) (spine_block_count self);
                      sp ← (if decide (sb = 0)
                            then py_mod (sp + 1) (switches_per_spine self)
                            else Ok sp);
                      Ok (G, (sb, sp)))
                   (G, (spine_block_idx c, spine_switch_pos c));
                 Ok (G, Cursor (agg_idx c + 1) sb sp))
              st)
         st)
    (G, Cursor 0 0 0).

(** Top-of-rack links; the state is the graph and [tor_idx]. *)
Definition wire_tors (self : t) (aggregation : list (list (list Z)))
    (G : DiGraph V) : result (DiGraph V * Z) :=
  for_each (seqZ 0 (aggregation_block_count self))
    (fun aggregation_block st =>
       for_each (seqZ 0 (tors_per_aggregation_block self))
         (fun tor '(G, tor_idx) =>
            G ← for_each (seqZ 0 8)
              (fun out G =>
                 switch_pos ← int_div tor 8;
                 v1 ← range_get (tor_idx_range self) tor_idx;
                 blk ← list_get aggregation aggregation_block;
                 mb ← list_get blk out;
                 v2 ← list_get mb switch_pos;
                 let G := add_link v1 v2 G in
                 second_switch_pos ← py_mod (switch_pos + 1) 4;
                 v2 ← list_get mb second_switch_pos;
                 Ok (add_link v1 v2 G)) G;
            Ok (G, tor_idx + 1))
         st)
    (G, 0).

Definition wire (self : t) : result (DiGraph V) :=
  let s_tor := range_len (tor_idx_range self) in
  let s_agg := range_len (aggregation_idx_range self) in
  let s_sp := range_len (spine_idx_range self) in
  let G := gen_nodes [s_tor; s_agg; s_sp] in
  let current_idx := 1 in
  first ← range_get (tor_idx_range self) 0;
  _ ← py_assert (current_idx = first);
  '(tors, current_idx) ← prestructure_tors self current_idx;
  first ← range_get (aggregation_idx_range self) 0;
  _ ← py_assert (current_idx = first);
  '(aggregation, current_idx) ← prestructure_aggregation self current_idx;
  first ← range_get (spine_idx_range self) 0;
  _ ← py_assert (current_idx = first);
  '(spines, current_idx) ← prestructure_spines self current_idx;
  '(G, _) ← wire_spines self spines G;
  '(G, _) ← wire_aggregation self aggregation spines G;
  '(G, _) ← wire_tors self aggregation G;
  Ok G.

Definition gen_graph (self : t) : result (DiGraph V) :=
  G ← wire self;
  Ok (Topology.init_capacities (base self) G).
End defs.
Arguments t V : clear implicits.
End Jupiter.

(** ** jupiter_blocks.Jupiter_bl *)

Module Jupiter_bl.
Section defs.
Context {V : Type}.

Record t := mk {
  spine_block_count : Z;
  switches_per_spine : Z;
  switches_per_middle_block : Z;
  middle_block_per_aggregation : Z;
  ports_per_middle_block_up : Z;
  aggregation_block_count : Z;
  tors_per_aggregation_block : Z;
  tor_idx_range : range;
  aggregation_idx_range : range;
  spine_idx_range : range;
  base : Topology.t V
}.

Definition init (spine_block_count aggregation_block_count : Z)
    (capacity_function : option (callable V)) : result t :=
  if decide (spine_block_count < aggregation_block_count) then Raise ValueError
  else
  let switches_per_spine := 6 in
  let switches_per_middle_block := 4 in
  let middle_block_per_aggregation := 8 in
  let ports_per_middle_block_up := 32 in
  let tors_per_aggregation_block := 32 in
  let tor_idx_range :=
    Range 1 (aggregation_block_count * tors_per_aggregation_block + 1) in
  last_tor_idx ← range_get tor_idx_range (-1);
  let aggregation_idx_range :=
    Range (last_tor_idx + 1)
          (last_tor_idx
           + aggregation_block_count * middle_block_per_aggregation + 1) in
  last_agg_idx ← range_get aggregation_idx_range (-1);
  let spine_idx_range :=
    Range (last_agg_idx + 1) (last_agg_idx + spine_block_count + 1) in
  let indices := [tor_idx_range; aggregation_idx_range; spine_idx_range] in
  b ← Topology.init indices
        ("Jupiter_bl_" +:+ pretty spine_block_count +:+ "_"
         +:+ pretty aggregation_block_count)
        capacity_function;
  Ok (mk spine_block_count switches_per_spine switches_per_middle_block
         middle_block_per_aggregation ports_per_middle_block_up
         aggregation_block_count tors_per_aggregation_block tor_idx_range
         aggregation_idx_range spine_idx_range b).

Definition prestructure_tors (self : t) (current_idx : Z)
  : result (list (list Z) * Z) :=
  for_each (seqZ 0 (aggregation_block_count self))
    (fun _ '(tors, current_idx) =>
       '(tor_agg, current_idx) ←
         for_each (seqZ 0 (tors_per_aggregation_block self))
           (fun tor '(tor_agg, current_idx) =>
              Ok (tor_agg ++ [current_idx], current_idx + 1))
           ([], current_idx);
       Ok (tors ++ [tor_agg], current_idx))
    ([], current_idx).

Definition prestructure_aggregation (self : t) (current_idx : Z)
  : result (list (list Z) * Z) :=
  for_each (seqZ 0 (aggregation_block_count self))
    (fun agg '(aggregation, current_idx) =>
       '(agg_block, current_idx) ←
         for_each (seqZ 0 8)
           (fun middle_block '(agg_block, current_idx) =>
              Ok (agg_block ++ [current_idx], current_idx + 1))
           ([], current_idx);
       Ok (aggregation ++ [agg_block], current_idx))
    ([], current_idx).

Definition prestructure_spines (self : t) (current_idx : Z)
  : result (list Z * Z) :=
  for_each (seqZ 0 (spine_block_count self))
    (fun spine '(spines, current_idx) =>
       Ok (spines ++ [current_idx], current_idx + 1))
    ([], current_idx).

(** TOR to middle blocks; the state is the graph and [tor_idx]. *)
Definition wire_tors (self : t) (aggregation : list (list Z)) (G : DiGraph V)
  : result (DiGraph V * Z) :=
  for_each (seqZ 0 (aggregation_block_count self))
    (fun aggregation_block st =>
       for_each (seqZ 0 (tors_per_aggregation_block self))
         (fun tor '(G, tor_idx) =>
            G ← for_each (seqZ 0 8)
              (fun out G =>
                 v1 ← range_get (tor_idx_range self) tor_idx;
                 blk ← list_get aggregation aggregation_block;
                 v2 ← list_get blk out;
                 Ok (add_link v1 v2 G)) G;
            Ok (G, tor_idx + 1))
         st)
    (G, 0).

(** Aggregation to spine blocks; the state is the graph, [agg_idx] and
    [spine_block_idx]. *)
Definition wire_aggregation (self : t) (spines : list Z) (G : DiGraph V)
  : result (DiGraph V * (Z * Z)) :=
  for_each (seqZ 0 (aggregation_block_count self))
    (fun aggregation_block st =>
       for_each (seqZ 0 8)
         (fun middle_block '(G, (agg_idx, spine_block_idx)) =>
            if decide (ports_per_middle_block_up self >= spine_block_count self)
            then
              G ← for_each (seqZ 0 (range_len (spine_idx_range self)))
                (fun spine G =>
                   v1 ← range_get (aggregation_idx_range self) agg_idx;
                   v2 ← range_get (spine_idx_range self) spine;
                   Ok (add_link v1 v2 G)) G;
              Ok (G, (agg_idx + 1, spine_block_idx))
            else
              '(G, spine_block_idx) ←
                for_each (seqZ 0 (ports_per_middle_block_up self))
                  (fun _ '(G, spine_block_idx) =>
                     v1 ← range_get (aggregation_idx_range self) agg_idx;
                     v2 ← list_get spines spine_block_idx;
                     let G := add_link v1 v2 G in
                     let spine_block_idx := spine_block_idx + 1 in
                     let spine_block_idx :=
                       if decide (spine_block_idx = spine_block_count self)
                       then 0 else spine_block_idx in
                     Ok (G, spine_block_idx))
                  (G, spine_block_idx);
              Ok (G, (agg_idx + 1, spine_block_idx)))
         st)
    (G, (0, 0)).

Definition wire (self : t) : result (DiGraph V) :=
  let s_tor := range_len (tor_idx_range self) in
  let s_agg := range_len (aggregation_idx_range self) in
  let s_sp := range_len (spine_idx_range self) in
  let G := gen_nodes [s_tor; s_agg; s_sp] in
  let current_idx := 1 in
  first ← range_get (tor_idx_range self) 0;
  _ ← py_assert (current_idx = first);
  '(tors, current_idx) ← prestructure_tors self current_idx;
  first ← range_get (aggregation_idx_range self) 0;
  _ ← py_assert (current_idx = first);
  '(aggregation, current_idx) ← prestructure_aggregation self current_idx;
  first ← range_get (spine_idx_range self) 0;
  _ ← py_assert (current_idx = first);
  '(spines, current_idx) ← prestructure_spines self current_idx;
  '(G, _) ← wire_tors self aggregation G;
  '(G, _) ← wire_aggregation self spines G;
  Ok G.

Definition gen_graph (self : t) : result (DiGraph V) :=
  G ← wire self;
  Ok (Topology.init_capacities (base self) G).
End defs.
Arguments t V : clear implicits.
End Jupiter_bl.

(** ** numpy arrays of floats *)

(** The floats of the layout code are rationals here, and the arithmetic
    on them is exact.  The code takes care of that itself ("use numbers
    that are fully representable in binary"): widths, gaps, shifts and
    positions are small multiples of 1/4.  The one constant that binary64
    does not hold exactly is the 0.1 that is taken off the stop of
    [np.arange]; it only decides how many values [arange] returns, and
    that count is the same for 1/10 as for the float next to it. *)
(** [float(n)] and [int(x)] (truncation towards zero) *)
Definition float_of (n : Z) : Qc := Qc_of_Z n.
Definition int_of (x : Qc) : Z := Z.quot (Qnum (this x)) (Z.pos (Qden (this x))).

Abbreviation ndarray := (list (list Qc)).

(** [np.zeros((x, y))] *)
Definition zeros (x y : Z) : ndarray :=
  replicate (Z.to_nat x) (replicate (Z.to_nat y) 0%Qc).

(** [np.arange(start, stop, step)]: [ceil((stop - start) / step)] values
    from [start] on; every call in the code has a positive step. *)
Definition arange (start stop step : Qc) : list Qc :=
  (fun i => (start + float_of i * step)%Qc)
    <$> seqZ 0 (Qceiling (this ((stop - start) / step)%Qc)).

(** An index on an axis of length [n]; a negative one counts from the
    end. *)
Definition axis_index (n i : Z) : result Z :=
  if decide (0 <= i < n) then Ok i
  else if decide (- n <= i < 0) then Ok (n + i)
  else Raise IndexError.

(** A bound of a slice [lo:hi] on an axis of length [n]: clipped, never an
    error. *)
Definition slice_bound (n i : Z) : Z :=
  if decide (i < 0) then Z.max 0 (n + i) else Z.min i n.

(** The part [lo:hi] of a row ([hi] absent is [lo:]). *)
Definition slice_of {A} (row : list A) (lo : Z) (hi : option Z) : nat * nat :=
  let n := Z.of_nat (length row) in
  let a := slice_bound n lo in
  let b := slice_bound n (default n hi) in
  (Z.to_nat a, Z.to_nat (Z.max a b)).

(** [a[r, i]] *)
Definition nd_get (a : ndarray) (r i : Z) : result Qc :=
  r ← axis_index (Z.of_nat (length a)) r;
  row ← list_get a r;
  i ← axis_index (Z.of_nat (length row)) i;
  list_get row i.

(** [a[r, lo:hi]], as a fresh array *)
Definition nd_get_slice (a : ndarray) (r lo : Z) (hi : option Z)
  : result (list Qc) :=
  r ← axis_index (Z.of_nat (length a)) r;
  row ← list_get a r;
  let '(i, j) := slice_of row lo hi in
  Ok (take (j - i) (drop i row)).

(** [a[r, i] = x] *)
Definition nd_set (a : ndarray) (r i : Z) (x : Qc) : result ndarray :=
  r ← axis_index (Z.of_nat (length a)) r;
  row ← list_get a r;
  i ← axis_index (Z.of_nat (length row)) i;
  Ok (<[Z.to_nat r := <[Z.to_nat i := x]> row]> a).

(** [a[r, lo:hi] = values]: the values must be as many as the slice is
    long, or one value that is written to every place of it. *)
Definition nd_set_slice (a : ndarray) (r lo : Z) (hi : option Z)
    (values : list Qc) : result ndarray :=
  r ← axis_index (Z.of_nat (length a)) r;
  row ← list_get a r;
  let '(i, j) := slice_of row lo hi in
  values ←
    (if decide (length values = (j - i)%nat) then Ok values
     else match values with
          | [x] => Ok (replicate (j - i) x)
          | _ => Raise ValueError
          end);
  Ok (<[Z.to_nat r := take i row ++ values ++ drop j row]> a).

(** [values + x] *)
Definition nd_add (values : list Qc) (x : Qc) : list Qc :=
  (fun v => (v + x)%Qc) <$> values.

(** [position[idx, lo:] = position[idx, lo:] + x] *)
Definition nd_add_from (position : ndarray) (idx lo : Z) (x : Qc)
  : result ndarray :=
  values ← nd_get_slice position idx lo None;
  nd_set_slice position idx lo None (nd_add values x).

(** What a method comes to: what [result] has, or the read of a local
    variable that no statement has assigned. *)
Inductive outcome (A : Type) : Type :=
| Completes (r : result A)
| UnboundLocalError.
Arguments Completes {A} r.
Arguments UnboundLocalError {A}.

Definition and_then {A B} (m : result A) (k : A -> outcome B) : outcome B :=
  match m with
  | Ok a => k a
  | Raise e => Completes (Raise e)
  | Diverge => Completes Diverge
  end.

(** ** util.preprocess_node_positions *)

Definition preprocess_node_positions (indices : list range)
  : result (Qc * Qc * ndarray) :=
  let node_width : Qc := 1%Qc in
  let node_gap : Qc := (1 / 2)%Qc in
  let x := Z.of_nat (length indices) in
  first ← list_get indices 0;
  let y := range_len first in
  let y := fold_left (fun y layer => if decide (range_len layer > y)
                                     then range_len layer else y) indices y in
  let position := zeros x y in
  let pos_start := (node_width * (1 / 2))%Qc in
  let pos_stop := (node_width * (1 / 2) + float_of y * (node_width + node_gap))%Qc in
  position ← nd_set_slice position 0 0 None
               (arange pos_start pos_stop (node_width + node_gap)%Qc);
  Ok (node_width, node_gap, position).

(** ** fabric.Fabric.set_node_positions *)

Module Fabric_layout.
Section defs.
Context {V : Type}.

(** The helpers the method defines for itself.  [pos_step] is the variable
    of the method that [group_layer_relative] reads. *)
Definition group_layer_relative (pos_step : Qc)
    (static_idx switches_per_pod_static pods_static
     relative_idx switches_per_pod_relative : Z) (position : ndarray)
  : result ndarray :=
  for_each (seqZ 0 pods_static)
    (fun pod position =>
       if decide (switches_per_pod_static = switches_per_pod_relative) then
         (* Just mirror *)
         let first_idx_in_pod := pod * switches_per_pod_relative in
         let last_idx_in_pod :=
           pod * switches_per_pod_relative + switches_per_pod_relative in
         values ← nd_get_slice position static_idx first_idx_in_pod
                    (Some last_idx_in_pod);
         nd_set_slice position relative_idx first_idx_in_pod
           (Some last_idx_in_pod) values
       else
         (* Initialize equivalently to static layer & shift *)
         let first_idx_in_pod := pod * switches_per_pod_static in
         pos_start ← nd_get position static_idx first_idx_in_pod;
         let pos_stop :=
           (pos_start + float_of switches_per_pod_relative * pos_step
            - 1 / float_of 10)%Qc in
         let shift :=
           (float_of (switches_per_pod_static - switches_per_pod_relative)
            * (pos_step / 2))%Qc in
         nd_set_slice position relative_idx
           (pod * switches_per_pod_relative)
           (Some (pod * switches_per_pod_relative + switches_per_pod_relative))
           (nd_add (arange pos_start pos_stop pos_step) shift))
    position.

Definition mirror_positions (mirror_idx target_idx : Z) (position : ndarray)
  : result ndarray :=
  values ← nd_get_slice position mirror_idx 0 None;
  nd_set_slice position target_idx 0 None values.

Definition add_pod_spacing (idx switches_per_pod pods : Z) (position : ndarray)
  : result ndarray :=
  for_each (seqZ 1 (pods - 1))
    (fun pod position => nd_add_from position idx (pod * switches_per_pod) 2%Qc)
    position.

Definition shift_layer (idx : Z) (margin : Qc) (position : ndarray)
  : result ndarray :=
  nd_add_from position idx 0 margin.

Definition set_node_positions (self : Fabric.t V) : result ndarray :=
  let TOR_LAYER := 0 in
  let FABRIC_LAYER := 1 in
  let SPINE_LAYER := 2 in
  let EDGE_LAYER := 4 in
  let indices := Topology.indices (Fabric.base self) in
  '(node_width, node_gap, position) ← preprocess_node_positions indices;
  let pos_step := (node_width + node_gap)%Qc in
  (* find widest layer *)
  '(widest_layer, nr_of_nodes) ←
    for_each (seqZ 0 4)
      (fun i '(widest_layer, nr_of_nodes) =>
         layer ← list_get indices i;
         last ← range_get layer (-1);
         first ← range_get layer 0;
         if decide (last + 1 - first > nr_of_nodes)
         then Ok (i, last + 1 - first)
         else Ok (widest_layer, nr_of_nodes))
      (0, 0);
  if decide (widest_layer = TOR_LAYER) then
    position ← add_pod_spacing TOR_LAYER (Fabric.port_count self)
                 (Fabric.server_pods self) position;
    position ← group_layer_relative pos_step TOR_LAYER (Fabric.port_count self)
                 (Fabric.server_pods self) FABRIC_LAYER
                 (Fabric.nr_of_planes self) position;
    position ← mirror_positions FABRIC_LAYER SPINE_LAYER position;
    let edge_spacing := (float_of (Fabric.port_count self) * pos_step + 2)%Qc in
    if decide (Fabric.edge_pods self < Fabric.server_pods self) then
      position ← mirror_positions SPINE_LAYER EDGE_LAYER position;
      let extra_server_pods := Fabric.server_pods self - Fabric.edge_pods self in
      let edge_shift :=
        (float_of extra_server_pods / 2
         * (float_of (Fabric.port_count self) * pos_step + 2))%Qc in
      shift_layer EDGE_LAYER edge_shift position
    else if decide (Fabric.edge_pods self = Fabric.server_pods self) then
      mirror_positions SPINE_LAYER EDGE_LAYER position
    else
      pos_start ← nd_get position SPINE_LAYER 0;
      position ←
        for_each (seqZ 0 (Fabric.edge_pods self))
          (fun pod position =>
             let pos1_in_group := (pos_start + float_of pod * edge_spacing)%Qc in
             let last_pos_in_group :=
               (pos1_in_group + float_of (Fabric.nr_of_planes self) * pos_step
                - 1 / float_of 10)%Qc in
             nd_set_slice position EDGE_LAYER
               (pod * Fabric.nr_of_planes self)
               (Some (pod * Fabric.nr_of_planes self + Fabric.nr_of_planes self))
               (arange pos1_in_group last_pos_in_group pos_step))
          position;
      let extra_edge_groups := Fabric.edge_pods self - Fabric.server_pods self in
      let fabric_shift := (float_of extra_edge_groups / 2 * edge_spacing)%Qc in
      for_each (seqZ 0 3)
        (fun i position => shift_layer i fabric_shift position) position
  else
    (* widest layer found either in the middle or for the edge switches *)
    let pos_start := (node_width * (1 / 2))%Qc in
    layer ← list_get indices widest_layer;
    last ← range_get layer (-1);
    first ← range_get layer 0;
    let pos_stop :=
      (node_width * (1 / 2)
       + float_of (last + 1 - first) * (node_width + node_gap))%Qc in
    let new_pos := arange pos_start pos_stop (node_width + node_gap)%Qc in
    position ← nd_set_slice position widest_layer 0 None new_pos;
    let nr_of_pods :=
      if decide (widest_layer = EDGE_LAYER) then Fabric.edge_pods self
      else Fabric.server_pods self in
    position ← add_pod_spacing widest_layer (Fabric.nr_of_planes self)
                 nr_of_pods position;
    let layer_shift :=
      ((float_of (Fabric.nr_of_planes self) * pos_step + 2) / 2)%Qc in
    position ←
      (if decide (widest_layer = EDGE_LAYER) then
         (* Mirror positions for spine and fabric layer & shift *)
         position ←
           for_each (seqZ 1 2)
             (fun i position => mirror_positions widest_layer i position)
             position;
         for_each (seqZ 1 2)
           (fun i position =>
              shift_layer i
                (float_of (Fabric.edge_pods self - Fabric.server_pods self)
                 * layer_shift)%Qc position)
           position
       else
         (* Mirror position for the second layer *)
         let other_widest :=
           if decide (widest_layer = SPINE_LAYER) then FABRIC_LAYER
           else SPINE_LAYER in
         values ← nd_get_slice position widest_layer 0 None;
         position ← nd_set_slice position other_widest 0 None values;
         (* Initialize Edge layer relative to spine *)
         position ← group_layer_relative pos_step SPINE_LAYER
                      (Fabric.nr_of_planes self) (Fabric.server_pods self)
                      EDGE_LAYER (Fabric.nr_of_planes self) position;
         shift_layer EDGE_LAYER
           (float_of (Fabric.server_pods self - Fabric.edge_pods self)
            * layer_shift)%Qc position);
    (* Centralize TOR switches below fabric layer *)
    group_layer_relative pos_step FABRIC_LAYER (Fabric.nr_of_planes self)
      (Fabric.server_pods self) TOR_LAYER (Fabric.port_count self) position.
End defs.
End Fabric_layout.

(** ** jupiter.Jupiter.set_node_positions *)

Module Jupiter_layout.
Section defs.
Context {V : Type}.

Definition set_node_positions (self : Jupiter.t V) : outcome ndarray :=
  let TOR_LAYER := 0 in
  let AGGREGATION_LAYER := 1 in
  let SPINE_LAYER := 2 in
  and_then (preprocess_node_positions (Topology.indices (Jupiter.base self)))
  (fun '(node_width, node_gap, position) =>
  (* For each aggregation block, extra spacing at TORs & Agg *)
  and_then
    (for_each (seqZ 1 (Jupiter.aggregation_block_count self - 1))
       (fun aggregation_block position =>
          position ← nd_add_from position TOR_LAYER
            (aggregation_block * Jupiter.middle_block_per_aggregation self) 2%Qc;
          nd_add_from position AGGREGATION_LAYER
            (aggregation_block * Jupiter.middle_block_per_aggregation self) 2%Qc)
       position)
  (fun position =>
  (* Group the aggregation switches for each block *)
  and_then
    (for_each (seqZ 0 (Jupiter.aggregation_block_count self))
       (fun aggregation_block '(position, _) =>
          let middle_tor :=
            (float_of (aggregation_block * Jupiter.tors_per_aggregation_block self)
             + float_of (Jupiter.tors_per_aggregation_block self) / 2)%Qc in
          let pos_step := (node_width + node_gap)%Qc in
          pos_start ← nd_get position TOR_LAYER
            (int_of (middle_tor
                     - float_of (int_of (float_of
                         (Jupiter.tors_per_aggregation_block self) / 2)))%Qc);
          let pos_stop :=
            (pos_start
             + float_of (Jupiter.tors_per_aggregation_block self) * pos_step
             - 1 / float_of 10)%Qc in
          position ← nd_set_slice position AGGREGATION_LAYER
            (aggregation_block * Jupiter.tors_per_aggregation_block self)
            (Some (aggregation_block * Jupiter.tors_per_aggregation_block self
                   + Jupiter.tors_per_aggregation_block self))
            (arange pos_start pos_stop pos_step);
          Ok (position, Some pos_step))
       (position, None))
  (fun '(position, pos_step) =>
  (* Align the spines in the middle *)
  and_then
    (last ← range_get (Jupiter.tor_idx_range self) (-1);
     nd_get position TOR_LAYER (int_of (float_of last / 2)%Qc))
  (fun middle_tor =>
  match pos_step with
  | None => UnboundLocalError
  | Some pos_step =>
      let pos_start :=
        (middle_tor
         - pos_step
           * float_of (int_of (float_of (range_len (Jupiter.spine_idx_range self))
                               / 2)))%Qc in
      let pos_step := (node_width + node_gap)%Qc in
      Completes
        (position ←
           for_each (seqZ 0 (range_len (Jupiter.spine_idx_range self)))
             (fun i position =>
                nd_set position SPINE_LAYER i (pos_start + float_of i * pos_step)%Qc)
             position;
         (* Group the spines in blocks *)
         for_each (seqZ 0 (Jupiter.spine_block_count self))
           (fun i position =>
              values ← nd_get_slice position 2
                         (i * Jupiter.switches_per_spine self) None;
              nd_set_slice position SPINE_LAYER
                (i * Jupiter.switches_per_spine self) None (nd_add values 2%Qc))
           position)
  end)))).
End defs.
End Jupiter_layout.

(** ** jupiter_blocks.Jupiter_bl.set_node_positions *)

Module Jupiter_bl_layout.
Section defs.
Context {V : Type}.

Definition set_node_positions (self : Jupiter_bl.t V) : outcome ndarray :=
  let TOR_LAYER := 0 in
  let AGGREGATION_LAYER := 1 in
  let SPINE_LAYER := 2 in
  and_then (preprocess_node_positions (Topology.indices (Jupiter_bl.base self)))
  (fun '(node_width, node_gap, position) =>
  (* For each aggregation block, extra spacing at TORs *)
  and_then
    (for_each (seqZ 1 (Jupiter_bl.aggregation_block_count self - 1))
       (fun aggregation_block position =>
          nd_add_from position TOR_LAYER
            (aggregation_block * Jupiter_bl.tors_per_aggregation_block self) 2%Qc)
       position)
  (fun position =>
  (* Group the aggregation switches for each block *)
  and_then
    (for_each (seqZ 0 (Jupiter_bl.aggregation_block_count self))
       (fun aggregation_block '(position, _) =>
          let middle_tor :=
            (float_of (aggregation_block * Jupiter_bl.tors_per_aggregation_block self)
             + float_of (Jupiter_bl.tors_per_aggregation_block self) / 2)%Qc in
          let pos_step := (node_width + node_gap)%Qc in
          p ← nd_get position TOR_LAYER (int_of middle_tor);
          let pos_start :=
            (p - pos_step
                 * float_of (int_of (float_of (Jupiter_bl.middle_block_per_aggregation self)
                                     / 2)))%Qc in
          let pos_stop :=
            (pos_start
             + float_of (Jupiter_bl.middle_block_per_aggregation self) * pos_step
             - 1 / float_of 10)%Qc in
          position ← nd_set_slice position AGGREGATION_LAYER
            (aggregation_block * Jupiter_bl.middle_block_per_aggregation self)
            (Some (aggregation_block * Jupiter_bl.middle_block_per_aggregation self
                   + Jupiter_bl.middle_block_per_aggregation self))
            (arange pos_start pos_stop pos_step);
          Ok (position, Some pos_step))
       (position, None))
  (fun '(position, pos_step) =>
  (* Align the spines in the middle *)
  and_then
    (last ← range_get (Jupiter_bl.tor_idx_range self) (-1);
     nd_get position TOR_LAYER (int_of (float_of last / 2)%Qc))
  (fun middle_tor =>
  match pos_step with
  | None => UnboundLocalError
  | Some pos_step =>
      let pos_start :=
        (middle_tor
         - 2 * pos_step
           * float_of (int_of (float_of (range_len (Jupiter_bl.spine_idx_range self))
                               / 2)))%Qc in
      let pos_step := (2 * pos_step)%Qc in
      Completes
        (for_each (seqZ 0 (range_len (Jupiter_bl.spine_idx_range self)))
           (fun i position =>
              nd_set position SPINE_LAYER i (pos_start + float_of i * pos_step)%Qc)
           position)
  end)))).
End defs.
End Jupiter_bl_layout.

(** * Specification-level definitions *)

(** ** Cables *)

(** The graph after the generator has laid the cables of [L], in order. *)
Definition add_links {V} (L : list (Z * Z)) (G : DiGraph V) : DiGraph V :=
  fold_left (fun G l => add_link l.1 l.2 G) L G.

Definition swap (l : Z * Z) : Z * Z := (l.2, l.1).





(** The node set is exactly the identifiers [1 .. N]. *)
Definition nodes_are {V} (G : DiGraph V) (N : Z) : Prop :=
  forall x, x ∈ nodes G <-> 1 <= x <= N.

(** The ranges of [rs] tile [1 .. N]: the first starts at 1, each next one
    starts where the previous stops, the last stops after [N]. *)
Fixpoint tiles (first : Z) (rs : list range) (N : Z) : Prop :=
  match rs with
  | [] => first = N + 1
  | r :: rs' => start r = first /\ start r <= stop r /\ tiles (stop r) rs' N
  end.

(** The capacity an edge carries, if any. *)
Definition capacity {V} (G : DiGraph V) (u v : Z) : option V :=
  d ← edges G !! (u, v); d !! "capacity".

(** ** Bare graphs and capacity functions *)


(** The arities [Topology.__init__] accepts. *)

Definition valid_cap {V} (cap : option (callable V)) : Prop :=
  match cap with
  | None => True
  | Some f => nr_of_params f = 2%nat \/ nr_of_params f = 3%nat
  end.

(** The capacity the contract promises for edge [(u, v)] of a topology with
    ranges [ix] and descriptor [d]. *)
Definition expected_capacity {V} (f : callable V) (ix : list range) (d : string)
    (u v : Z) : V :=
  if (nr_of_params f =? 2)%nat then call2 f u v
  else call3 f u v (Instance_ ix d).

(** ** FatTree in closed form *)

Definition FatTree_valid (port_count : Z) : Prop :=
  port_count mod 2 = 0 /\ 2 <= port_count.

Definition FatTree_pod_links (p : Z) : list (Z * Z) :=
  let h := p / 2 in
  seqZ 0 (p * h) ≫= fun i =>
  seqZ 0 h ≫= fun j => [(i + 1, p * h + i / h * h + j + 1)].

Definition FatTree_core_links (p : Z) : list (Z * Z) :=
  let h := p / 2 in
  seqZ 0 (p * h) ≫= fun i =>
  seqZ 0 h ≫= fun j => [(p * h + i + 1, 2 * (p * h) + i mod h * h + j + 1)].

Definition FatTree_links (p : Z) : list (Z * Z) :=
  FatTree_pod_links p ++ FatTree_core_links p.

Definition FatTree_indices (p : Z) : list range :=
  let h := p / 2 in
  [Range 1 (p * h + 1); Range (p * h + 1) (2 * (p * h) + 1);
   Range (2 * (p * h) + 1) (2 * (p * h) + h * h + 1)].

Definition FatTree_instance {V} (p : Z) (cap : option (callable V)) : FatTree.t V :=
  let h := p / 2 in
  FatTree.mk p (p * h) (p * h) (h * h)
    (Range 1 (p * h + 1)) (Range (p * h + 1) (2 * (p * h) + 1))
    (Range (2 * (p * h) + 1) (2 * (p * h) + h * h + 1))
    (Topology.mk (FatTree_indices p) ("FatTree_" +:+ pretty p) cap).

(** ** Generated graphs *)

(** What every generator returns: the nodes, then the cables of [L], then
    the capacity pass. *)
Definition generated {V} (L : list (Z * Z)) (counts : list Z) (b : Topology.t V)
  : DiGraph V :=
  Topology.init_capacities b (add_links L (gen_nodes counts)).

(** Cables with both ends among the identifiers [1 .. N] and two different
    ends. *)
Definition proper_cables (L : list (Z * Z)) (N : Z) : Prop :=
  forall a b, (a, b) ∈ L -> 1 <= a <= N /\ 1 <= b <= N /\ a <> b.

(** ** Fabric in closed form *)

Definition Fabric_valid (server_pods edge_pods nr_of_planes port_count : Z) : Prop :=
  1 <= server_pods /\ 0 <= edge_pods /\ 1 <= nr_of_planes /\ 1 <= port_count.

Definition Fabric_indices (s e n pc : Z) : list range :=
  [Range 1 (pc * s + 1);
   Range (pc * s + 1) (pc * s + n * s + 1);
   Range (pc * s + n * s + 1) (pc * s + n * s + n * s + 1);
   Range (pc * s + n * s + n * s + 1) (pc * s + n * s + n * s + e * n + 1)].

Definition Fabric_descriptor (s e n pc : Z) : string :=
  "Fabric_" +:+ pretty s +:+ "_" +:+ pretty e +:+ "_" +:+ pretty n +:+ "_"
  +:+ pretty pc.

Definition Fabric_instance {V} (s e n pc : Z) (cap : option (callable V))
  : Fabric.t V :=
  Fabric.mk s e n pc
    (Range 1 (pc * s + 1))
    (Range (pc * s + 1) (pc * s + n * s + 1))
    (Range (pc * s + n * s + 1) (pc * s + n * s + n * s + 1))
    (Range (pc * s + n * s + n * s + 1) (pc * s + n * s + n * s + e * n + 1))
    (Topology.mk (Fabric_indices s e n pc) (Fabric_descriptor s e n pc) cap).

(** The cables one call of [connect_to_plane_switches] lays from
    [current] on, [m] of them. *)
Definition plane_cables (n switch_idx current m : Z) : list (Z * Z) :=
  seqZ 0 m ≫= fun k => [(current + k * n, switch_idx)].

Definition Fabric_tor_links (s n pc : Z) : list (Z * Z) :=
  seqZ 1 (pc * s) ≫= fun i =>
  seqZ 0 n ≫= fun j => [(i, pc * s + 1 + n * ((i - 1) / pc) + j)].

Definition Fabric_fabric_links (s n pc : Z) : list (Z * Z) :=
  seqZ (pc * s + 1) (n * s) ≫= fun i =>
  plane_cables n i (pc * s + n * s + 1 + (i - (pc * s + 1)) mod n) s.

Definition Fabric_edge_links (s e n pc : Z) : list (Z * Z) :=
  seqZ (pc * s + n * s + n * s + 1) (e * n) ≫= fun i =>
  plane_cables n i
    (pc * s + n * s + 1 + (i - (pc * s + n * s + n * s + 1)) mod n) s.

Definition Fabric_links (s e n pc : Z) : list (Z * Z) :=
  Fabric_tor_links s n pc ++ Fabric_fabric_links s n pc
  ++ Fabric_edge_links s e n pc.

Definition Fabric_counts (s e n pc : Z) : list Z :=
  [pc * s; n * s; n * s; e * n].

(** Which way the cables of the three phases run: up from the racks, down
    from the spine to a fabric switch, up from the spine to an edge switch. *)
Definition Fabric_oriented (s e n pc a b : Z) : Prop :=
  (1 <= a <= pc * s /\ pc * s < b <= pc * s + n * s)
  \/ (pc * s + n * s < a <= pc * s + n * s + n * s
      /\ pc * s < b <= pc * s + n * s)
  \/ (pc * s + n * s < a <= pc * s + n * s + n * s
      /\ pc * s + n * s + n * s < b <= pc * s + n * s + n * s + e * n).

(** ** Jupiter-Blocks in closed form *)

(** Both Jupiter generators take the same two parameters. *)
Definition Jupiter_valid (spine_block_count aggregation_block_count : Z) : Prop :=
  1 <= aggregation_block_count /\ aggregation_block_count <= spine_block_count.

Definition Jupiter_bl_indices (S A : Z) : list range :=
  [Range 1 (A * 32 + 1);
   Range (A * 32 + 1) (A * 32 + A * 8 + 1);
   Range (A * 32 + A * 8 + 1) (A * 32 + A * 8 + S + 1)].

Definition Jupiter_bl_instance {V} (S A : Z) (cap : option (callable V))
  : Jupiter_bl.t V :=
  Jupiter_bl.mk S 6 4 8 32 A 32
    (Range 1 (A * 32 + 1))
    (Range (A * 32 + 1) (A * 32 + A * 8 + 1))
    (Range (A * 32 + A * 8 + 1) (A * 32 + A * 8 + S + 1))
    (Topology.mk (Jupiter_bl_indices S A)
       ("Jupiter_bl_" +:+ pretty S +:+ "_" +:+ pretty A) cap).

Definition Jupiter_bl_counts (S A : Z) : list Z := [A * 32; A * 8; S].

(** The tables of indices, as the prestructuring loops fill them. *)
Definition row (first n : Z) : list Z := (fun j => first + j) <$> seqZ 0 n.

Definition table (first blocks per_block : Z) : list (list Z) :=
  (fun b => row (first + per_block * b) per_block) <$> seqZ 0 blocks.

Definition Jupiter_bl_tor_links (A : Z) : list (Z * Z) :=
  seqZ 0 A ≫= fun ab =>
  seqZ 0 32 ≫= fun tor =>
  seqZ 0 8 ≫= fun out => [(1 + (32 * ab + tor), A * 32 + 1 + 8 * ab + out)].

(** The cables of middle block [x] to the spine, in the order they are
    laid. *)
Definition Jupiter_bl_uplinks_of (S A x : Z) : list (Z * Z) :=
  if decide (32 >= S) then
    seqZ 0 S ≫= fun sp => [(A * 32 + 1 + x, A * 32 + A * 8 + 1 + sp)]
  else
    seqZ 0 32 ≫= fun u =>
      [(A * 32 + 1 + x, A * 32 + A * 8 + 1 + (32 * x + u) mod S)].

Definition Jupiter_bl_agg_links (S A : Z) : list (Z * Z) :=
  seqZ 0 A ≫= fun ab =>
  seqZ 0 8 ≫= fun mb => Jupiter_bl_uplinks_of S A (8 * ab + mb).

Definition Jupiter_bl_links (S A : Z) : list (Z * Z) :=
  Jupiter_bl_tor_links A ++ Jupiter_bl_agg_links S A.

(** ** Jupiter in closed form *)

Definition Jupiter_indices (S A : Z) : list range :=
  [Range 1 (A * 32 + 1);
   Range (A * 32 + 1) (A * 32 + A * 8 * 4 + 1);
   Range (A * 32 + A * 8 * 4 + 1) (A * 32 + A * 8 * 4 + S * 6 + 1)].

Definition Jupiter_instance {V} (S A : Z) (cap : option (callable V))
  : Jupiter.t V :=
  Jupiter.mk S 6 4 8 A 32
    (Range 1 (A * 32 + 1))
    (Range (A * 32 + 1) (A * 32 + A * 8 * 4 + 1))
    (Range (A * 32 + A * 8 * 4 + 1) (A * 32 + A * 8 * 4 + S * 6 + 1))
    (Topology.mk (Jupiter_indices S A)
       ("Jupiter_" +:+ pretty S +:+ "_" +:+ pretty A) cap).

Definition Jupiter_counts (S A : Z) : list Z := [A * 32; A * 8 * 4; S * 6].

(** The table of the aggregation layer: blocks of 8 middle blocks of 4
    switches. *)
Definition table3 (first blocks : Z) : list (list (list Z)) :=
  (fun b => table (first + 32 * b) 8 4) <$> seqZ 0 blocks.

Definition Jupiter_spine_links (S A : Z) : list (Z * Z) :=
  seqZ 0 S ≫= fun sb =>
  seqZ 0 6 ≫= fun sw =>
  seqZ 0 sw ≫= fun prev =>
    [(A * 32 + A * 8 * 4 + 1 + (6 * sb + sw),
      A * 32 + A * 8 * 4 + 1 + 6 * sb + prev)].

(** The spine switch the [k]-th uplink of the whole generation goes to:
    block [k mod S], position [(k / S) mod 6]. *)
Definition Jupiter_target (S A k : Z) : Z :=
  A * 32 + A * 8 * 4 + 1 + 6 * (k mod S) + (k / S) mod 6.

(** The uplinks of aggregation switch [x], in the order they are laid. *)
Definition Jupiter_uplinks_of (S A x : Z) : list (Z * Z) :=
  seqZ 0 8 ≫= fun u => [(A * 32 + 1 + x, Jupiter_target S A (8 * x + u))].

Definition Jupiter_mesh_of (A ab mb sw : Z) : list (Z * Z) :=
  seqZ 0 sw ≫= fun prev =>
    [(A * 32 + 1 + (32 * ab + 4 * mb + sw), A * 32 + 1 + 32 * ab + 4 * mb + prev)].

Definition Jupiter_agg_links (S A : Z) : list (Z * Z) :=
  seqZ 0 A ≫= fun ab =>
  seqZ 0 8 ≫= fun mb =>
  seqZ 0 4 ≫= fun sw =>
    Jupiter_mesh_of A ab mb sw ++ Jupiter_uplinks_of S A (32 * ab + 4 * mb + sw).

Definition Jupiter_tor_links (A : Z) : list (Z * Z) :=
  seqZ 0 A ≫= fun ab =>
  seqZ 0 32 ≫= fun tor =>
  seqZ 0 8 ≫= fun out =>
    [(1 + (32 * ab + tor), A * 32 + 1 + 32 * ab + 4 * out + tor / 8);
     (1 + (32 * ab + tor), A * 32 + 1 + 32 * ab + 4 * out + (tor / 8 + 1) mod 4)].

Definition Jupiter_links (S A : Z) : list (Z * Z) :=
  Jupiter_spine_links S A ++ Jupiter_agg_links S A ++ Jupiter_tor_links A.

(** All uplinks of the generation, in the order they are laid. *)
Definition Jupiter_uplinks (S A : Z) : list (Z * Z) :=
  seqZ 0 (32 * A) ≫= Jupiter_uplinks_of S A.

(** The cursor when the aggregation loop reaches switch [x]: [8 * x]
    uplinks have been laid. *)
Definition Jupiter_cursor (S x : Z) : Jupiter.cursor :=
  Jupiter.Cursor x ((8 * x) mod S) ((8 * x / S) mod 6).

(** Which way the cables run: down inside a spine block or a middle block,
    up from a middle block to the spine, up from a rack to a middle block. *)
Definition Jupiter_oriented (S A a b : Z) : Prop :=
  (A * 32 + A * 8 * 4 < b < a /\ a <= A * 32 + A * 8 * 4 + S * 6)
  \/ (A * 32 < b < a /\ a <= A * 32 + A * 8 * 4)
  \/ (A * 32 < a <= A * 32 + A * 8 * 4
      /\ A * 32 + A * 8 * 4 < b <= A * 32 + A * 8 * 4 + S * 6)
  \/ (1 <= a <= A * 32 /\ A * 32 < b <= A * 32 + A * 8 * 4).

(** ** Properties of generated graphs *)

(** The graph's nodes are [1 .. N] for [N] the sum of the layer counts,
    and the ranges [rs] tile [1 .. N] with these counts, in this order. *)
Definition layered {V} (G : DiGraph V) (rs : list range) (counts : list Z) : Prop :=
  nodes_are G (fold_left Z.add counts 0)
  /\ tiles 1 rs (fold_left Z.add counts 0)
  /\ range_len <$> rs = counts.



(** Two capacity functions: the sum of the two ends, and the same plus the
    number of layers of the topology. *)
Definition cap_of_two : callable Z := Callable Z 2 Z.add (fun _ _ _ => 0).


(** The wiring the scenario describes: rack switch [u] and aggregation
    switch [v] of one pod (two of each per pod), or aggregation switch [u]
    and a core switch [v] of the core group that has [u]'s position within
    its pod. *)
Definition FatTree4_wired (u v : Z) : Prop :=
  (1 <= u <= 8 /\ 9 <= v <= 16 /\ (u - 1) / 2 = (v - 9) / 2)
  \/ (9 <= u <= 16 /\ 17 <= v <= 20 /\ (v - 17) / 2 = (u - 9) mod 2).

#[global] Instance FatTree4_wired_dec u v : Decision (FatTree4_wired u v).
Proof. unfold FatTree4_wired. apply _. Defined.

Definition in_range (r : range) (x : Z) : Prop := start r <= x < stop r.

(** The plane of a switch: its position within its range, modulo the
    number of planes. *)
Definition plane_of (r : range) (n x : Z) : Z := (x - start r) mod n.

(** The number of cables of a list that end at [y], and at one of the six
    switches of spine block [b]. *)
Definition load (cables : list (Z * Z)) (y : Z) : nat :=
  length (filter (fun c => c.2 = y) cables).

Definition block_load (cables : list (Z * Z)) (first b : Z) : nat :=
  length (filter (fun c => first + 6 * b <= c.2 < first + 6 * b + 6) cables).

#[global] Instance has_edge_dec {V} (G : DiGraph V) u v : Decision (has_edge G u v).
Proof. unfold has_edge. apply _. Defined.

(** The nodes of range [r] that [x] has an edge to. *)
Definition neighbours_in {V} (G : DiGraph V) (x : Z) (r : range) : list Z :=
  filter (fun y => has_edge G x y) (range_list r).

(** An attribute of an edge, if the edge is there and carries it. *)
Definition edge_attr {V} (G : DiGraph V) (u v : Z) (key : string) : option V :=
  d ← edges G !! (u, v); d !! key.

(** Two nodes, a cable between them, and a weight on one of its edges. *)
Definition weighted_pair : DiGraph Z :=
  set_edge_attr 1 2 "weight" 7 (add_link 1 2 (gen_nodes [2])).

(** ** The wiring, switch by switch *)



(** Fabric: a rack switch is linked to the fabric switches of its pod, a
    fabric switch to the rack switches of its pod, and neither to another
    rack, fabric or edge switch. *)
Definition Fabric_pods_wired {V} (t : Fabric.t V) (G : DiGraph V) : Prop :=
  let n := Fabric.nr_of_planes t in
  let pc := Fabric.port_count t in
  let tor := Fabric.tor_idx_range t in
  let fabric := Fabric.fabric_idx_range t in
  let spine := Fabric.spine_idx_range t in
  let edge := Fabric.edge_idx_range t in
  (forall u, in_range tor u ->
     neighbours_in G u tor = []
     /\ neighbours_in G u fabric = seqZ (start fabric + n * ((u - start tor) / pc)) n
     /\ neighbours_in G u spine = []
     /\ neighbours_in G u edge = [])
  /\ (forall f, in_range fabric f ->
     neighbours_in G f tor = seqZ (start tor + pc * ((f - start fabric) / n)) pc
     /\ neighbours_in G f fabric = []
     /\ neighbours_in G f edge = []).

(** Fabric: a spine switch is linked to the fabric and the edge switches
    of its plane, one per pod, and to nothing else; fabric and edge
    switches to the spine switches of their plane. *)
Definition Fabric_planes_wired {V} (t : Fabric.t V) (G : DiGraph V) : Prop :=
  let n := Fabric.nr_of_planes t in
  let s := Fabric.server_pods t in
  let e := Fabric.edge_pods t in
  let tor := Fabric.tor_idx_range t in
  let fabric := Fabric.fabric_idx_range t in
  let spine := Fabric.spine_idx_range t in
  let edge := Fabric.edge_idx_range t in
  (forall f, in_range fabric f ->
     neighbours_in G f spine
     = (fun k => start spine + plane_of fabric n f + k * n) <$> seqZ 0 s)
  /\ (forall x, in_range spine x ->
     neighbours_in G x tor = []
     /\ neighbours_in G x fabric
        = (fun k => start fabric + plane_of spine n x + k * n) <$> seqZ 0 s
     /\ neighbours_in G x spine = []
     /\ neighbours_in G x edge
        = (fun k => start edge + plane_of spine n x + k * n) <$> seqZ 0 e)
  /\ (forall y, in_range edge y ->
     neighbours_in G y tor = []
     /\ neighbours_in G y fabric = []
     /\ neighbours_in G y spine
        = (fun k => start spine + plane_of edge n y + k * n) <$> seqZ 0 s
     /\ neighbours_in G y edge = []).

(** Jupiter: the 6 switches of a spine block are linked all to all, and
    so are the 4 switches of a middle block; no link joins two spine
    blocks or two middle blocks. *)
Definition Jupiter_blocks_meshed {V} (t : Jupiter.t V) (G : DiGraph V) : Prop :=
  let agg := Jupiter.aggregation_idx_range t in
  let spine := Jupiter.spine_idx_range t in
  (forall x y, in_range spine x -> in_range spine y ->
     (has_edge G x y <-> x <> y /\ (x - start spine) / 6 = (y - start spine) / 6))
  /\ (forall x y, in_range agg x -> in_range agg y ->
     (has_edge G x y <-> x <> y /\ (x - start agg) / 4 = (y - start agg) / 4)).

(** Jupiter: a rack switch, the [i]-th of its aggregation block, is linked
    in each of the 8 middle blocks of that block to the switches at the
    places [i / 8] and [(i / 8 + 1) mod 4], 16 links in all, and to nothing
    else. *)
Definition Jupiter_racks_wired {V} (t : Jupiter.t V) (G : DiGraph V) : Prop :=
  let tor := Jupiter.tor_idx_range t in
  let agg := Jupiter.aggregation_idx_range t in
  let spine := Jupiter.spine_idx_range t in
  forall u, in_range tor u ->
    neighbours_in G u tor = [] /\ neighbours_in G u spine = []
    /\ length (neighbours_in G u agg) = 16%nat
    /\ forall a, in_range agg a ->
         (has_edge G a u <-> has_edge G u a)
         /\ (has_edge G u a <->
             (u - start tor) / 32 = (a - start agg) / 32
             /\ ((a - start agg) mod 4 = (u - start tor) mod 32 / 8
                 \/ (a - start agg) mod 4 = ((u - start tor) mod 32 / 8 + 1) mod 4)).

(** Jupiter-Blocks: a rack switch is linked to the 8 middle blocks of its
    aggregation block, a middle block to its 32 rack switches. *)
Definition Jupiter_bl_racks_wired {V} (t : Jupiter_bl.t V) (G : DiGraph V) : Prop :=
  let tor := Jupiter_bl.tor_idx_range t in
  let agg := Jupiter_bl.aggregation_idx_range t in
  let spine := Jupiter_bl.spine_idx_range t in
  (forall u, in_range tor u ->
     neighbours_in G u tor = []
     /\ neighbours_in G u agg = seqZ (start agg + 8 * ((u - start tor) / 32)) 8
     /\ neighbours_in G u spine = [])
  /\ (forall m, in_range agg m ->
     neighbours_in G m tor = seqZ (start tor + 32 * ((m - start agg) / 8)) 32
     /\ neighbours_in G m agg = []).

(** Jupiter-Blocks: the [x]-th middle block is linked to the spine blocks
    [32 x], [32 x + 1], ... counted round the spine range, all of them if
    there are at most 32; and two spine blocks differ by at most one in
    the number of middle blocks they are linked to. *)
Definition Jupiter_bl_spines_wired {V} (t : Jupiter_bl.t V) (G : DiGraph V) : Prop :=
  let S := Jupiter_bl.spine_block_count t in
  let agg := Jupiter_bl.aggregation_idx_range t in
  let spine := Jupiter_bl.spine_idx_range t in
  (forall m, in_range agg m ->
     neighbours_in G m spine
     ≡ₚ (fun k => start spine + (32 * (m - start agg) + k) mod S) <$> seqZ 0 (Z.min 32 S))
  /\ (forall y y', in_range spine y -> in_range spine y' ->
     (length (neighbours_in G y agg) <= length (neighbours_in G y' agg) + 1)%nat).

(** What one call of [connect_to_plane_switches] for switch [i] and plane
    [plane] makes of a graph [G]: the edges of [G], with their attributes,
    and both edges between [i] and every spine switch of the plane. *)
Definition plane_connected {V} (t : Fabric.t V) (plane i : Z) (G G' : DiGraph V)
  : Prop :=
  let spine := Fabric.spine_idx_range t in
  let in_plane x := in_range spine x /\ plane_of spine (Fabric.nr_of_planes t) x = plane in
  (forall u v, has_edge G' u v <->
     has_edge G u v \/ (u = i /\ in_plane v) \/ (v = i /\ in_plane u))
  /\ (forall x, x ∈ nodes G' <-> x ∈ nodes G \/ x = i \/ in_plane x)
  /\ (forall u v key, has_edge G u v -> edge_attr G' u v key = edge_attr G u v key).

(** ** Layouts *)

(** An array of [x] rows of [y] cells each *)
Definition shaped (x y : Z) (a : ndarray) : Prop :=
  length a = Z.to_nat x /\ Forall (fun row => length row = Z.to_nat y) a.

(** The number of switches on the widest layer *)
Definition widest (indices : list range) : Z :=
  foldr (fun layer y => Z.max (range_len layer) y) 0 indices.

(** What [preprocess_node_positions] hands to the layouts: the switches of
    layer 0 side by side, 3/2 apart, and nothing yet on the other layers. *)
Definition preprocessed (indices : list range) : ndarray :=
  let y := widest indices in
  ((fun i => (1 / 2 + float_of 3 / 2 * float_of i)%Qc) <$> seqZ 0 y)
  :: replicate (length indices - 1) ((fun _ => 0%Qc) <$> seqZ 0 y).

(** The positions [Jupiter_bl.set_node_positions] comes to.  The racks stand
    3/2 apart, with 2 more between one aggregation block and the next; the 8
    middle blocks of a block stand 3/2 apart from 4 steps left of the block's
    rack 16; the spine blocks stand 3 apart from [S / 2] double steps left of
    rack [16 * A].  A row is as long as the widest layer, and keeps 0 past
    the switches of its own layer. *)
Definition Jupiter_bl_tor (A i : Z) : Qc :=
  (1 / 2 + float_of 3 / 2 * float_of i
   + 2 * float_of (Z.min (i / 32) (A - 1)))%Qc.

Definition Jupiter_bl_positions (S A : Z) : ndarray :=
  let y := Z.max (32 * A) S in
  [ Jupiter_bl_tor A <$> seqZ 0 y;
    (fun i => if decide (i < 8 * A)
              then (Jupiter_bl_tor A (32 * (i / 8) + 16) - float_of 6
                    + float_of 3 / 2 * float_of (i mod 8))%Qc
              else 0%Qc) <$> seqZ 0 y;
    (fun i => if decide (i < S)
              then (Jupiter_bl_tor A (16 * A) - float_of 3 * float_of (S / 2)
                    + float_of 3 * float_of i)%Qc
              else 0%Qc) <$> seqZ 0 y ].

(** The positions [Jupiter.set_node_positions] comes to.  The racks stand
    3/2 apart, with 2 more after every 8 racks for the first [A - 1] times;
    the 32 aggregation switches of a block stand 3/2 apart from the block's
    first rack; the spine switches stand 3/2 apart from [3 * S] steps left of
    rack [16 * A], with 2 more before every spine block.  Past the switches
    of its layer a row keeps what the spacing loops have added to 0. *)
Definition Jupiter_tor (A i : Z) : Qc :=
  (1 / 2 + float_of 3 / 2 * float_of i
   + 2 * float_of (Z.min (i / 8) (A - 1)))%Qc.

Definition Jupiter_positions (S A : Z) : ndarray :=
  let y := Z.max (32 * A) (6 * S) in
  [ Jupiter_tor A <$> seqZ 0 y;
    (fun i => if decide (i < 32 * A)
              then (Jupiter_tor A (32 * (i / 32))
                    + float_of 3 / 2 * float_of (i mod 32))%Qc
              else (2 * float_of (A - 1))%Qc) <$> seqZ 0 y;
    (fun i => if decide (i < 6 * S)
              then (Jupiter_tor A (16 * A) - float_of 3 / 2 * float_of (3 * S)
                    + float_of 3 / 2 * float_of i
                    + 2 * float_of (i / 6 + 1))%Qc
              else (2 * float_of S)%Qc) <$> seqZ 0 y ].

(** Of the [racks] first switches of layer 0, neighbours stand 3/2 apart,
    and 7/2 where [wide] holds of the one to the right. *)
Definition rack_gaps (position : ndarray) (racks : Z) (wide : Z -> bool) : Prop :=
  forall i, 0 <= i -> i + 1 < racks ->
    exists a b,
      nd_get position 0 i = Ok a /\ nd_get position 0 (i + 1) = Ok b /\
      (b - a)%Qc = if wide (i + 1) then (float_of 7 / 2)%Qc
                   else (float_of 3 / 2)%Qc.

(** The 8 middle blocks of every aggregation block are centred above its 32
    racks. *)
Definition middle_blocks_centred (position : ndarray) (blocks : Z) : Prop :=
  forall b, 0 <= b < blocks ->
    exists r r' m m',
      nd_get position 0 (32 * b) = Ok r /\
      nd_get position 0 (32 * b + 31) = Ok r' /\
      nd_get position 1 (8 * b) = Ok m /\
      nd_get position 1 (8 * b + 7) = Ok m' /\
      (m + m')%Qc = (r + r')%Qc.

(** ** Tactics *)

Ltac ok_step := cbn [mbind result_bind mret result_ret].


Ltac divmod i h :=
  let H1 := fresh "Hdm" in let H2 := fresh "Hmb" in
  pose proof (Z.div_mod i h ltac:(lia)) as H1;
  pose proof (Z.mod_pos_bound i h ltac:(lia)) as H2.

(** Equal up to arithmetic in the leaves. *)
Ltac congr_lia := solve [ done | lia | f_equal; congr_lia ].

(** Membership in the cables of a nest of loops, spelled out. *)
Ltac unfold_cables :=
  repeat first
    [ setoid_rewrite list_elem_of_bind
    | setoid_rewrite elem_of_seqZ
    | setoid_rewrite list_elem_of_singleton
    | setoid_rewrite elem_of_app
    | setoid_rewrite elem_of_cons
    | setoid_rewrite elem_of_nil ].

Ltac break_hyps :=
  repeat match goal with
         | H : _ \/ False |- _ => destruct H as [H|[]]
         | H : exists _, _ |- _ => destruct H
         | H : _ /\ _ |- _ => destruct H
         end.

(** The premise of [NoDup_bind] for loops over literal ranges. *)
Ltac same_round' := unfold_cables; intros; break_hyps; simplify_eq; try lia.

(** * Reasoning about loops and cables *)

Section Loops.
Context {V : Type}.
Implicit Types (G : DiGraph V) (L : list (Z * Z)).

Lemma add_links_app L1 L2 G :
  add_links (L1 ++ L2) G = add_links L2 (add_links L1 G).
Proof. unfold add_links. by rewrite fold_left_app. Qed.

Lemma add_links_nil G : add_links [] G = G.
Proof. done. Qed.

Lemma add_links_cons l L G :
  add_links (l :: L) G = add_links L (add_link l.1 l.2 G).
Proof. done. Qed.

Lemma dom_edges_add_edge u v G :
  dom (edges (add_edge u v G)) = {[ (u, v) ]} ∪ dom (edges G).
Proof.
  unfold add_edge; simpl. destruct (edges G !! (u, v)) eqn:E.
  - assert ((u, v) ∈ dom (edges G)) by (apply elem_of_dom; eauto). set_solver.
  - by rewrite dom_insert_L.
Qed.

Lemma dom_edges_add_link a b G :
  dom (edges (add_link a b G)) = {[ (a, b); (b, a) ]} ∪ dom (edges G).
Proof. unfold add_link. rewrite !dom_edges_add_edge. set_solver. Qed.

Lemma nodes_add_link a b G : nodes (add_link a b G) = {[ a; b ]} ∪ nodes G.
Proof. unfold add_link, add_edge; simpl. set_solver. Qed.

Lemma dom_edges_add_links L G :
  dom (edges (add_links L G))
  = list_to_set L ∪ list_to_set (swap <$> L) ∪ dom (edges G).
Proof.
  revert G. induction L as [|[a b] L IH]; intros G.
  - set_solver.
  - rewrite add_links_cons, IH, dom_edges_add_link. simpl. unfold swap at 2.
    simpl. set_solver.
Qed.

Lemma nodes_add_links L G :
  nodes (add_links L G) = list_to_set (L.*1) ∪ list_to_set (L.*2) ∪ nodes G.
Proof.
  revert G. induction L as [|[a b] L IH]; intros G.
  - set_solver.
  - rewrite add_links_cons, IH, nodes_add_link. simpl. set_solver.
Qed.




Lemma nodes_gen_nodes (switches : list Z) x :
  x ∈ nodes (gen_nodes (V:=V) switches) <-> 1 <= x <= fold_left Z.add switches 0.
Proof.
  unfold gen_nodes, add_nodes_from, empty_graph; simpl.
  rewrite elem_of_union, elem_of_list_to_set, elem_of_seqZ. set_solver by lia.
Qed.

Lemma dom_edges_gen_nodes (switches : list Z) :
  dom (edges (gen_nodes (V:=V) switches)) = ∅.
Proof. unfold gen_nodes; simpl. apply dom_empty_L. Qed.

(** *** Loop rules *)

(** A [for] loop over [range] whose state is a function of the loop
    variable. *)
Lemma for_each_seqZ {S} (body : Z -> S -> result S) (f : Z -> S) a n :
  0 <= n ->
  (forall i, a <= i < a + n -> body i (f i) = Ok (f (i + 1))) ->
  for_each (seqZ a n) body (f a) = Ok (f (a + n)).
Proof.
  intros Hn. revert a. pattern n. apply natlike_ind; [| |done].
  - intros a _. rewrite seqZ_nil by lia. simpl. by rewrite Z.add_0_r.
  - clear n Hn. intros n Hn IH a Hb.
    rewrite seqZ_cons by lia. simpl. rewrite Hb by lia. simpl.
    replace (Z.pred (Z.succ n)) with n by lia.
    replace (Z.succ a) with (a + 1) by lia.
    rewrite IH; [f_equal; f_equal; lia|]. intros i Hi. apply Hb. lia.
Qed.

(** A loop that lays the cables [links_at i] in round [i] while its other
    variables follow [aux]. *)
Lemma for_each_links {Aux} (body : Z -> DiGraph V * Aux -> result (DiGraph V * Aux))
    (links_at : Z -> list (Z * Z)) (aux : Z -> Aux) a n G0 x0 :
  0 <= n -> x0 = aux a ->
  (forall i G, a <= i < a + n ->
     body i (G, aux i) = Ok (add_links (links_at i) G, aux (i + 1))) ->
  for_each (seqZ a n) body (G0, x0)
  = Ok (add_links (seqZ a n ≫= links_at) G0, aux (a + n)).
Proof.
  intros Hn -> Hb.
  pose (f := fun i => (add_links (seqZ a (i - a) ≫= links_at) G0, aux i)).
  replace (G0, aux a) with (f a)
    by (unfold f; rewrite Z.sub_diag; done).
  rewrite (for_each_seqZ body f a n Hn).
  - unfold f. by replace (a + n - a) with n by lia.
  - intros i Hi. unfold f. rewrite Hb by done. f_equal. f_equal.
    replace (i + 1 - a) with ((i - a) + 1) by lia.
    rewrite seqZ_app by lia. rewrite bind_app, add_links_app.
    replace (a + (i - a)) with i by lia. simpl. by rewrite app_nil_r.
Qed.

(** The same for a loop whose only variable is the graph. *)
Lemma for_each_links_pure (body : Z -> DiGraph V -> result (DiGraph V))
    (links_at : Z -> list (Z * Z)) a n G0 :
  0 <= n ->
  (forall i G, a <= i < a + n -> body i G = Ok (add_links (links_at i) G)) ->
  for_each (seqZ a n) body G0 = Ok (add_links (seqZ a n ≫= links_at) G0).
Proof.
  intros Hn Hb.
  pose (f := fun i => add_links (seqZ a (i - a) ≫= links_at) G0).
  replace G0 with (f a) at 1 by (unfold f; rewrite Z.sub_diag; done).
  rewrite (for_each_seqZ body f a n Hn).
  - unfold f. by replace (a + n - a) with n by lia.
  - intros i Hi. unfold f. rewrite Hb by done. f_equal.
    replace (i + 1 - a) with ((i - a) + 1) by lia.
    rewrite seqZ_app by lia. rewrite bind_app, add_links_app.
    replace (a + (i - a)) with i by lia. simpl. by rewrite app_nil_r.
Qed.

(** A loop that appends [elem i] to a list in round [i]. *)
Lemma for_each_append {A Aux} (body : Z -> list A * Aux -> result (list A * Aux))
    (elem : Z -> A) (aux : Z -> Aux) a n l0 x0 :
  0 <= n -> x0 = aux a ->
  (forall i l, a <= i < a + n ->
     body i (l, aux i) = Ok (l ++ [elem i], aux (i + 1))) ->
  for_each (seqZ a n) body (l0, x0)
  = Ok (l0 ++ (elem <$> seqZ a n), aux (a + n)).
Proof.
  intros Hn -> Hb.
  pose (f := fun i => (l0 ++ (elem <$> seqZ a (i - a)), aux i)).
  replace (l0, aux a) with (f a)
    by (unfold f; rewrite Z.sub_diag; simpl; by rewrite app_nil_r).
  rewrite (for_each_seqZ body f a n Hn).
  - unfold f. by replace (a + n - a) with n by lia.
  - intros i Hi. unfold f. rewrite Hb by done. f_equal. f_equal.
    replace (i + 1 - a) with ((i - a) + 1) by lia.
    rewrite seqZ_app by lia. rewrite fmap_app, app_assoc.
    replace (a + (i - a)) with i by lia. done.
Qed.
End Loops.

(** ** The capacity pass *)

Lemma bind_singleton {A B} (g : A -> B) (l : list A) :
  l ≫= (fun x => [g x]) = g <$> l.
Proof. induction l; simpl; [done|]. by f_equal. Qed.

Section Cap.
Context {V : Type}.
Implicit Types (G : DiGraph V).

Lemma Topology_init_ok ix d (cap : option (callable V)) :
  valid_cap cap -> Topology.init ix d cap = Ok (Topology.mk ix d cap).
Proof.
  unfold Topology.init. destruct cap as [f|]; [|done].
  simpl. intros [-> | ->]; done.
Qed.

Lemma annotate_fold (cap : Z -> Z -> V) (l : list (Z * Z)) G :
  let G' := fold_left
    (fun G e => set_edge_attr e.1 e.2 "capacity" (cap e.1 e.2) G) l G in
  nodes G' = nodes G /\
  forall e, edges G' !! e
    = if decide (e ∈ l) then insert "capacity" (cap e.1 e.2) <$> (edges G !! e)
      else edges G !! e.
Proof.
  revert G. induction l as [|[a b] l IH]; intros G; cbv zeta; cbn [fold_left].
  - split; [done|]. intros e. rewrite decide_False; [done|apply not_elem_of_nil].
  - destruct (IH (set_edge_attr a b "capacity" (cap a b) G)) as [IHn IHe].
    cbn [fst snd]. split; [by rewrite IHn|]. intros e. rewrite IHe.
    cbn [set_edge_attr edges].
    rewrite lookup_alter. destruct (decide ((a, b) = e)) as [<-|Hne].
    + rewrite (decide_True (P:=(a, b) ∈ (a, b) :: l)) by (apply elem_of_cons; by left).
      case_decide; [|done]. destruct (edges G !! (a, b)); simpl; [|done].
      f_equal. apply insert_insert_eq.
    + case_decide as E1.
      * rewrite decide_True; [done|]. apply elem_of_cons; by right.
      * rewrite decide_False; [done|]. rewrite elem_of_cons. naive_solver.
Qed.

Lemma annotate_spec (cap : Z -> Z -> V) G :
  nodes (Topology.annotate cap G) = nodes G /\
  forall e, edges (Topology.annotate cap G) !! e
            = insert "capacity" (cap e.1 e.2) <$> (edges G !! e).
Proof.
  unfold Topology.annotate.
  destruct (annotate_fold cap ((map_to_list (edges G)).*1) G) as [Hn He].
  split; [done|]. intros e. rewrite He. case_decide as E; [done|].
  destruct (edges G !! e) as [d|] eqn:Hd; [|done]. exfalso. apply E.
  apply list_elem_of_fmap. exists (e, d). split; [done|].
  by apply elem_of_map_to_list.
Qed.

Lemma nodes_init_capacities (b : Topology.t V) G :
  nodes (Topology.init_capacities b G) = nodes G.
Proof.
  unfold Topology.init_capacities. destruct (Topology.capacity_function b); [|done].
  repeat case_match; try done; apply annotate_spec.
Qed.

Lemma dom_edges_init_capacities (b : Topology.t V) G :
  dom (edges (Topology.init_capacities b G)) = dom (edges G).
Proof.
  unfold Topology.init_capacities. destruct (Topology.capacity_function b); [|done].
  repeat case_match; try done; apply set_eq; intros e;
    rewrite !elem_of_dom; by rewrite (proj2 (annotate_spec _ G)), fmap_is_Some.
Qed.

End Cap.

(** ** FatTree *)



Lemma range_get_last r : start r < stop r -> range_get r (-1) = Ok (stop r - 1).
Proof.
  intros H. unfold range_get, range_len.
  rewrite decide_False by lia. rewrite decide_True by lia. f_equal. lia.
Qed.

Lemma range_get_nth r i :
  0 <= i < stop r - start r -> range_get r i = Ok (start r + i).
Proof. intros H. unfold range_get, range_len. by rewrite decide_True by lia. Qed.

Lemma int_div_nonneg a b : 0 <= a -> 0 < b -> int_div a b = Ok (a / b).
Proof.
  intros Ha Hb. unfold int_div. rewrite decide_False by lia.
  by rewrite Z.quot_div_nonneg by lia.
Qed.

Lemma py_mod_pos a b : 0 < b -> py_mod a b = Ok (a mod b).
Proof. intros Hb. unfold py_mod. by rewrite decide_False by lia. Qed.

Lemma div_pred_wrap i h : 0 < h -> i mod h = 0 -> (i - 1) / h = i / h - 1.
Proof.
  intros Hh Hm. symmetry. apply (Z.div_unique_pos _ _ _ (h - 1)); [lia|].
  pose proof (Z.div_mod i h ltac:(lia)). lia.
Qed.

Lemma div_pred_same i h : 0 < h -> i mod h <> 0 -> (i - 1) / h = i / h.
Proof.
  intros Hh Hm. symmetry. apply (Z.div_unique_pos _ _ _ (i mod h - 1)).
  - pose proof (Z.mod_pos_bound i h Hh). lia.
  - pose proof (Z.div_mod i h ltac:(lia)). lia.
Qed.

Lemma mod_pred_same i h : 0 < h -> i mod h <> 0 -> (i - 1) mod h = i mod h - 1.
Proof.
  intros Hh Hm. symmetry. apply (Z.mod_unique_pos _ _ (i / h)).
  - pose proof (Z.mod_pos_bound i h Hh). lia.
  - pose proof (Z.div_mod i h ltac:(lia)). lia.
Qed.

Section FatTree.
Context {V : Type}.
Implicit Types (cap : option (callable V)).

Lemma FatTree_init_ok p cap :
  FatTree_valid p -> valid_cap cap ->
  FatTree.init p cap = Ok (FatTree_instance p cap).
Proof.
  intros [Hev Hp] Hcap. unfold FatTree.init, FatTree_instance, FatTree_indices.
  rewrite decide_False by lia. cbv zeta.
  rewrite Z.quot_div_nonneg by lia.
  assert (Hh : 1 <= p / 2) by (apply Z.div_le_lower_bound; lia).
  assert (0 < p * (p / 2)) by nia.
  rewrite range_get_last by (simpl; lia). ok_step. cbn [stop].
  rewrite range_get_last by (simpl; lia). ok_step. cbn [stop].
  replace (p * (p / 2) + 1 - 1 + 1) with (p * (p / 2) + 1) by lia.
  replace (p * (p / 2) + 1 + p * (p / 2)) with (2 * (p * (p / 2)) + 1) by lia.
  replace (2 * (p * (p / 2)) + 1 - 1 + 1) with (2 * (p * (p / 2)) + 1) by lia.
  replace (2 * (p * (p / 2)) + 1 + (p / 2) ^ 2)
    with (2 * (p * (p / 2)) + p / 2 * (p / 2) + 1) by lia.
  rewrite Topology_init_ok by done. ok_step.
  by replace ((p / 2) ^ 2) with (p / 2 * (p / 2)) by lia.
Qed.

Lemma FatTree_wire_ok p cap :
  FatTree_valid p ->
  FatTree.wire (FatTree_instance p cap)
  = Ok (add_links (FatTree_links p)
          (gen_nodes [p * (p / 2); p * (p / 2); p / 2 * (p / 2)])).
Proof.
  intros [Hev Hp]. unfold FatTree.wire, FatTree_instance. cbn [FatTree.tor_switches
    FatTree.aggregation_switches FatTree.core_switches FatTree.port_count].
  set (h := p / 2). set (G0 := gen_nodes _).
  assert (Hh : 1 <= h) by (apply Z.div_le_lower_bound; lia).
  assert (Hph : p = 2 * h) by (unfold h; rewrite (Z.div_mod p 2) at 1; lia).
  assert (Hq : (p * h) / p = h) by (rewrite Z.mul_comm, Z.div_mul; lia).
  rewrite (for_each_links _
    (fun i => seqZ 0 h ≫= fun j => [(i + 1, p * h + i / h * h + j + 1)])
    (fun i => if decide (i = 0) then 0 else (i - 1) / h * h)).
  2: nia.
  2: done.
  2: { intros i G Hi.
       rewrite ?int_div_nonneg by nia. rewrite ?Hq.
       assert (Hps : (if decide (i <> 0) then
           k ← Ok h; m ← py_mod i k;
           (if decide (m = 0) then d ← Ok h; Ok ((if decide (i = 0) then 0 else (i - 1) / h * h) + d)
            else Ok (if decide (i = 0) then 0 else (i - 1) / h * h))
         else Ok (if decide (i = 0) then 0 else (i - 1) / h * h)) = Ok (i / h * h)).
       { destruct (decide (i = 0)) as [->|Hi0].
         - rewrite decide_False by lia. by rewrite Z.div_0_l by lia.
         - rewrite decide_True by lia. ok_step. rewrite py_mod_pos by lia. ok_step.
           case_decide; ok_step; f_equal.
           + rewrite div_pred_wrap by lia. lia.
           + by rewrite div_pred_same by lia. }
       rewrite Hps. ok_step.
       rewrite (for_each_links_pure _ (fun j => [(i + 1, p * h + i / h * h + j + 1)])) by (done || lia).
       ok_step. rewrite decide_False by lia. do 4 f_equal. lia. }
  ok_step. rewrite (int_div_nonneg p 2) by lia. fold h. ok_step.
  rewrite (for_each_links _
    (fun i => seqZ 0 h ≫= fun j => [(p * h + i + 1, 2 * (p * h) + i mod h * h + j + 1)])
    (fun i => if decide (i = 0) then 0 else ((i - 1) mod h + 1) * h)).
  2: nia.
  2: done.
  2: { intros i G Hi.
       rewrite ?int_div_nonneg by nia. rewrite ?Hq.
       assert (Hps : (if decide (i <> 0) then
           k ← Ok h; m ← py_mod i k;
           (if decide (m = 0) then Ok 0
            else Ok (if decide (i = 0) then 0 else ((i - 1) mod h + 1) * h))
         else Ok (if decide (i = 0) then 0 else ((i - 1) mod h + 1) * h)) = Ok (i mod h * h)).
       { destruct (decide (i = 0)) as [->|Hi0].
         - rewrite decide_False by lia. by rewrite Z.mod_0_l by lia.
         - rewrite decide_True by lia. ok_step. rewrite py_mod_pos by lia. ok_step.
           case_decide as Hm; ok_step; f_equal.
           + rewrite Hm. lia.
           + rewrite mod_pred_same by lia. lia. }
       rewrite Hps. ok_step.
       rewrite (for_each_links_pure _ (fun j => [(p * h + i + 1, 2 * (p * h) + i mod h * h + j + 1)])) by (done || lia).
       ok_step. rewrite decide_False by lia.
       do 4 f_equal. replace (i + 1 - 1) with i by lia. lia. }
  ok_step. unfold FatTree_links. by rewrite add_links_app.
Qed.
End FatTree.

(** ** The floats of [FatTree.__init__] *)






Section FatTreeFloats.
Context {V : Type}.
Implicit Types (cap : option (callable V)).

End FatTreeFloats.

(** ** What a generated graph looks like *)


Section Generated.
Context {V : Type}.
Implicit Types (G : DiGraph V) (L : list (Z * Z)) (b : Topology.t V).

Lemma has_edge_generated L counts b u v :
  has_edge (generated L counts b) u v <-> (u, v) ∈ L \/ (v, u) ∈ L.
Proof.
  unfold has_edge, generated.
  rewrite dom_edges_init_capacities, dom_edges_add_links, dom_edges_gen_nodes.
  rewrite !elem_of_union, !elem_of_list_to_set, list_elem_of_fmap.
  split.
  - intros [[?|[[c d] [Heq ?]]]|H]; [by left| |set_solver].
    unfold swap in Heq; simpl in Heq. injection Heq as -> ->. by right.
  - intros [?|?]; [by left; left|]. left; right. by exists (v, u).
Qed.




Lemma nodes_generated L counts b N :
  N = fold_left Z.add counts 0 -> proper_cables L N ->
  nodes_are (generated L counts b) N.
Proof.
  intros -> HL x. unfold generated.
  rewrite nodes_init_capacities, nodes_add_links.
  rewrite !elem_of_union, !elem_of_list_to_set, nodes_gen_nodes.
  split; [|tauto].
  intros [[[[a b'] [-> H]]%list_elem_of_fmap|[[a b'] [-> H]]%list_elem_of_fmap]|?];
    [apply HL in H; simpl; lia..|done].
Qed.


End Generated.

(** ** Counting and telling apart the cables of nested loops *)

Lemma length_bind_const {A B} (f : A -> list B) (l : list A) (c : nat) :
  (forall x, x ∈ l -> length (f x) = c) -> length (l ≫= f) = (length l * c)%nat.
Proof.
  induction l as [|x l IH]; intros Hf; [done|].
  change ((x :: l) ≫= f) with (f x ++ (l ≫= f)).
  rewrite length_app, Hf, IH; [simpl; lia| |by left].
  intros y Hy. apply Hf. by right.
Qed.

Section FatTreeCables.
Variable p : Z.
Hypothesis Hvalid : FatTree_valid p.
Let h := p / 2.

Local Lemma h_pos : 1 <= h /\ p = 2 * h.
Proof.
  destruct Hvalid as [Hev Hp]. unfold h. split.
  - apply Z.div_le_lower_bound; lia.
  - rewrite (Z.div_mod p 2) at 1; lia.
Qed.

Lemma FatTree_pod_links_spec u v :
  (u, v) ∈ FatTree_pod_links p <->
  exists i j, 0 <= i < p * h /\ 0 <= j < h /\ u = i + 1 /\ v = p * h + i / h * h + j + 1.
Proof.
  unfold FatTree_pod_links. fold h. set_unfold.
  split.
  - intros (i & (j & Heq & Hj) & Hi). exists i, j. injection Heq as -> ->. lia.
  - intros (i & j & Hi & Hj & -> & ->). exists i. split; [|lia]. exists j. split; [done|lia].
Qed.

Lemma FatTree_core_links_spec u v :
  (u, v) ∈ FatTree_core_links p <->
  exists i j, 0 <= i < p * h /\ 0 <= j < h /\
    u = p * h + i + 1 /\ v = 2 * (p * h) + i mod h * h + j + 1.
Proof.
  unfold FatTree_core_links. fold h. set_unfold.
  split.
  - intros (i & (j & Heq & Hj) & Hi). exists i, j. injection Heq as -> ->. lia.
  - intros (i & j & Hi & Hj & -> & ->). exists i. split; [|lia]. exists j. split; [done|lia].
Qed.

Lemma FatTree_links_spec u v :
  (u, v) ∈ FatTree_links p <->
  (exists i j, 0 <= i < p * h /\ 0 <= j < h /\ u = i + 1 /\ v = p * h + i / h * h + j + 1)
  \/ (exists i j, 0 <= i < p * h /\ 0 <= j < h /\
        u = p * h + i + 1 /\ v = 2 * (p * h) + i mod h * h + j + 1).
Proof.
  unfold FatTree_links. rewrite elem_of_app.
  by rewrite FatTree_pod_links_spec, FatTree_core_links_spec.
Qed.

Lemma FatTree_links_bounds a b :
  (a, b) ∈ FatTree_links p -> 1 <= a < b /\ b <= p * h + p * h + h * h.
Proof.
  destruct h_pos as [Hh Hph]. rewrite FatTree_links_spec.
  intros [(i & j & Hi & Hj & -> & ->)|(i & j & Hi & Hj & -> & ->)]; divmod i h.
  - assert (i / h < p) by nia. nia.
  - nia.
Qed.

Lemma FatTree_links_proper : proper_cables (FatTree_links p) (p * h + p * h + h * h).
Proof. intros a b H%FatTree_links_bounds. lia. Qed.


End FatTreeCables.

(** ** Fabric *)

Section Fabric.
Context {V : Type}.
Implicit Types (cap : option (callable V)) (G : DiGraph V).

Lemma Fabric_init_ok s e n pc cap :
  valid_cap cap -> Fabric.init s e n pc cap = Ok (Fabric_instance s e n pc cap).
Proof.
  intros Hcap. unfold Fabric.init. cbv zeta.
  rewrite Topology_init_ok by done. done.
Qed.

(** The [while] loop lays [m] cables when [m] is the number of rounds that
    pass its test, and has fuel for them all. *)
Lemma plane_loop_ok (t : Fabric.t V) (m : nat) : forall fuel switch_idx current G,
  1 <= Fabric.nr_of_planes t ->
  start (Fabric.spine_idx_range t) < stop (Fabric.spine_idx_range t) ->
  (m <= fuel)%nat ->
  stop (Fabric.spine_idx_range t) - 1 < current + Z.of_nat m * Fabric.nr_of_planes t ->
  (m <> 0%nat ->
   current + (Z.of_nat m - 1) * Fabric.nr_of_planes t
   <= stop (Fabric.spine_idx_range t) - 1) ->
  Fabric.plane_loop fuel t switch_idx current G
  = Ok (add_links
          (plane_cables (Fabric.nr_of_planes t) switch_idx current (Z.of_nat m)) G).
Proof.
  induction m as [|m IH]; intros fuel switch_idx current G Hn Hr Hfuel Hout Hin.
  - change (Z.of_nat 0) with 0 in *. rewrite Z.mul_0_l in Hout.
    destruct fuel; cbn [Fabric.plane_loop]; rewrite range_get_last by done;
      ok_step; rewrite decide_False by lia; done.
  - destruct fuel as [|fuel]; [lia|]. cbn [Fabric.plane_loop].
    rewrite range_get_last by done. ok_step.
    specialize (Hin ltac:(done)).
    assert (0 <= (Z.of_nat (S m) - 1) * Fabric.nr_of_planes t)
      by (apply Z.mul_nonneg_nonneg; lia).
    rewrite decide_True by lia.
    rewrite Nat2Z.inj_succ in *.
    rewrite (IH fuel) by (try done; lia).
    unfold plane_cables. rewrite (seqZ_cons 0 (Z.succ (Z.of_nat m))) by lia.
    replace (Z.pred (Z.succ (Z.of_nat m))) with (Z.of_nat m) by lia.
    change (Z.succ 0) with (1 + 0). rewrite <- (fmap_add_seqZ 1 0).
    rewrite bind_cons, add_links_app, list_fmap_bind.
    cbn [add_links fold_left fst snd]. rewrite Z.mul_0_l, Z.add_0_r.
    do 2 f_equal. apply list_bind_ext; [|done].
    intros k. simpl. do 2 f_equal. lia.
Qed.

Lemma connect_to_plane_switches_ok s e n pc cap G plane i :
  Fabric_valid s e n pc -> 0 <= plane < n ->
  Fabric.connect_to_plane_switches G (Fabric_instance s e n pc cap) plane i
  = Ok (add_links (plane_cables n i (pc * s + n * s + 1 + plane) s) G).
Proof.
  intros (Hs & He & Hn & Hpc) Hplane. unfold Fabric.connect_to_plane_switches.
  cbn [Fabric.nr_of_planes Fabric.spine_idx_range Fabric_instance].
  rewrite decide_False by lia.
  rewrite range_get_nth by (simpl; nia). ok_step. cbn [start stop].
  replace (pc * s + n * s + 1 + 0) with (pc * s + n * s + 1) by lia.
  rewrite (plane_loop_ok _ (Z.to_nat s)); cbn [Fabric.nr_of_planes
    Fabric.spine_idx_range Fabric_instance start stop]; try nia.
  by rewrite Z2Nat.id by lia.
Qed.

Lemma Fabric_wire_ok s e n pc cap :
  Fabric_valid s e n pc ->
  Fabric.wire (Fabric_instance s e n pc cap)
  = Ok (add_links (Fabric_links s e n pc) (gen_nodes (Fabric_counts s e n pc))).
Proof.
  intros Hv. pose proof Hv as (Hs & He & Hn & Hpc).
  unfold Fabric.wire, range_list.
  cbn [Fabric.nr_of_planes Fabric.spine_idx_range Fabric.tor_idx_range
       Fabric.fabric_idx_range Fabric.edge_idx_range Fabric.port_count
       Fabric_instance].
  unfold range_len. cbn [start stop].
  replace (Z.max 0 (pc * s + 1 - 1)) with (pc * s) by nia.
  replace (Z.max 0 (pc * s + n * s + 1 - (pc * s + 1))) with (n * s) by nia.
  replace (Z.max 0 (pc * s + n * s + n * s + 1 - (pc * s + n * s + 1)))
    with (n * s) by nia.
  replace (Z.max 0 (pc * s + n * s + n * s + e * n + 1
                    - (pc * s + n * s + n * s + 1))) with (e * n) by nia.
  fold (Fabric_counts s e n pc). set (G0 := gen_nodes _).
  rewrite range_get_nth by (simpl; nia). ok_step. cbn [start].
  rewrite Z.add_0_r.
  rewrite (for_each_links_pure _
    (fun i => seqZ 0 n ≫= fun j => [(i, pc * s + 1 + n * ((i - 1) / pc) + j)])).
  2: nia.
  2: { intros i G Hi. rewrite int_div_nonneg by lia. ok_step.
       rewrite (for_each_links_pure _
         (fun j => [(i, pc * s + 1 + n * ((i - 1) / pc) + j)])) by (done || lia).
       do 4 f_equal. }
  ok_step.
  rewrite (for_each_links _
    (fun i => plane_cables n i (pc * s + n * s + 1 + (i - (pc * s + 1)) mod n) s)
    (fun i => (i - (pc * s + 1)) mod n)).
  2: nia.
  2: by rewrite Z.sub_diag, Z.mod_0_l by lia.
  2: { intros i G Hi.
       rewrite connect_to_plane_switches_ok by (done || (apply Z.mod_pos_bound; lia)).
       ok_step. rewrite py_mod_pos by lia. ok_step. do 2 f_equal.
       replace (i + 1 - (pc * s + 1)) with ((i - (pc * s + 1)) + 1) by lia.
       by rewrite Zplus_mod_idemp_l. }
  ok_step.
  rewrite (for_each_links _
    (fun i => plane_cables n i
       (pc * s + n * s + 1 + (i - (pc * s + n * s + n * s + 1)) mod n) s)
    (fun i => (i - (pc * s + n * s + n * s + 1)) mod n)).
  2: nia.
  2: by rewrite Z.sub_diag, Z.mod_0_l by lia.
  2: { intros i G Hi.
       rewrite connect_to_plane_switches_ok by (done || (apply Z.mod_pos_bound; lia)).
       ok_step. rewrite py_mod_pos by lia. ok_step. do 2 f_equal.
       replace (i + 1 - (pc * s + n * s + n * s + 1))
         with ((i - (pc * s + n * s + n * s + 1)) + 1) by lia.
       by rewrite Zplus_mod_idemp_l. }
  ok_step. unfold Fabric_links. by rewrite !add_links_app.
Qed.
End Fabric.

Lemma div_range i d m : 0 < d -> 0 <= i < d * m -> 0 <= i / d < m.
Proof.
  intros Hd Hi. split; [apply Z.div_pos; lia|].
  apply Z.div_lt_upper_bound; lia.
Qed.

Lemma grid_bound n q j m : 0 <= q < m -> 0 <= j < n -> 0 <= n * q + j < n * m.
Proof. intros Hq Hj. nia. Qed.

Section FabricCables.
Variables s e n pc : Z.
Hypothesis Hvalid : Fabric_valid s e n pc.

Lemma Fabric_tor_links_spec u v :
  (u, v) ∈ Fabric_tor_links s n pc <->
  exists j, 1 <= u <= pc * s /\ 0 <= j < n /\
    v = pc * s + 1 + n * ((u - 1) / pc) + j.
Proof.
  unfold Fabric_tor_links. set_unfold. split.
  - intros (i & (j & Heq & Hj) & Hi). exists j. simplify_eq. lia.
  - intros (j & Hu & Hj & ->). exists u. split; [|lia]. exists j. split; [done|lia].
Qed.

Lemma plane_cables_spec i c m u v :
  (u, v) ∈ plane_cables n i c m <-> exists k, 0 <= k < m /\ u = c + k * n /\ v = i.
Proof.
  unfold plane_cables. set_unfold. split.
  - intros (k & Heq & Hk). exists k. simplify_eq. lia.
  - intros (k & Hk & -> & ->). exists k. split; [done|lia].
Qed.

Lemma Fabric_fabric_links_spec u v :
  (u, v) ∈ Fabric_fabric_links s n pc <->
  exists k, pc * s + 1 <= v <= pc * s + n * s /\ 0 <= k < s /\
    u = pc * s + n * s + 1 + (v - (pc * s + 1)) mod n + k * n.
Proof.
  unfold Fabric_fabric_links. rewrite list_elem_of_bind.
  setoid_rewrite plane_cables_spec. setoid_rewrite elem_of_seqZ. split.
  - intros (i & (k & Hk & -> & ->) & Hi). exists k. lia.
  - intros (k & Hv & Hk & ->). exists v. split; [|lia]. exists k. lia.
Qed.

Lemma Fabric_edge_links_spec u v :
  (u, v) ∈ Fabric_edge_links s e n pc <->
  exists k, pc * s + n * s + n * s + 1 <= v <= pc * s + n * s + n * s + e * n /\
    0 <= k < s /\
    u = pc * s + n * s + 1 + (v - (pc * s + n * s + n * s + 1)) mod n + k * n.
Proof.
  unfold Fabric_edge_links. rewrite list_elem_of_bind.
  setoid_rewrite plane_cables_spec. setoid_rewrite elem_of_seqZ. split.
  - intros (i & (k & Hk & -> & ->) & Hi). exists k. lia.
  - intros (k & Hv & Hk & ->). exists v. split; [|lia]. exists k. lia.
Qed.


Lemma Fabric_links_oriented a b :
  (a, b) ∈ Fabric_links s e n pc -> Fabric_oriented s e n pc a b.
Proof.
  destruct Hvalid as (Hs & He & Hn & Hpc).
  unfold Fabric_links. rewrite !elem_of_app.
  rewrite Fabric_tor_links_spec, Fabric_fabric_links_spec, Fabric_edge_links_spec.
  intros [(j & Hu & Hj & ->)|[(k & Hv & Hk & ->)|(k & Hv & Hk & ->)]].
  - left. pose proof (div_range (a - 1) pc s ltac:(lia) ltac:(lia)) as Hq.
    pose proof (grid_bound n _ j s Hq Hj). lia.
  - right; left. pose proof (Z.mod_pos_bound (b - (pc * s + 1)) n ltac:(lia)) as Hm.
    pose proof (grid_bound n k _ s Hk Hm). lia.
  - right; right.
    pose proof (Z.mod_pos_bound (b - (pc * s + n * s + n * s + 1)) n ltac:(lia)) as Hm.
    pose proof (grid_bound n k _ s Hk Hm). lia.
Qed.




End FabricCables.

(** ** Jupiter, block level *)

Lemma list_get_fmap_seqZ {A} (f : Z -> A) n i :
  0 <= i < n -> list_get (f <$> seqZ 0 n) i = Ok (f i).
Proof.
  intros Hi. unfold list_get. rewrite decide_True by lia.
  rewrite list_lookup_fmap, lookup_seqZ_lt by lia. simpl.
  by rewrite Z2Nat.id by lia.
Qed.

Lemma list_get_row first n i : 0 <= i < n -> list_get (row first n) i = Ok (first + i).
Proof. apply list_get_fmap_seqZ. Qed.

Lemma list_get_table first blocks per_block b :
  0 <= b < blocks ->
  list_get (table first blocks per_block) b
  = Ok (row (first + per_block * b) per_block).
Proof. apply (list_get_fmap_seqZ (fun b => row (first + per_block * b) per_block)). Qed.

Lemma mod_succ k S :
  0 < S -> (k + 1) mod S = if decide (k mod S + 1 = S) then 0 else k mod S + 1.
Proof.
  intros HS. divmod k S. case_decide as E.
  - symmetry. apply (Z.mod_unique_pos _ _ (k / S + 1)); lia.
  - symmetry. apply (Z.mod_unique_pos _ _ (k / S)); lia.
Qed.

(** The loop that fills one row of a table. *)
Lemma fill_row (n c : Z) :
  0 <= n ->
  for_each (seqZ 0 n)
    (fun (_ : Z) '(l, current_idx) => Ok (l ++ [current_idx], current_idx + 1))
    ([], c)
  = Ok (row c n, c + n).
Proof.
  intros Hn.
  rewrite (for_each_append _ (fun j => c + j) (fun j => c + j)); [|lia|lia|].
  - by replace (c + (0 + n)) with (c + n) by lia.
  - intros i l Hi. congr_lia.
Qed.

Section Jupiter_bl.
Context {V : Type}.
Implicit Types (cap : option (callable V)) (G : DiGraph V).

Lemma Jupiter_bl_init_ok S A cap :
  Jupiter_valid S A -> valid_cap cap ->
  Jupiter_bl.init S A cap = Ok (Jupiter_bl_instance S A cap).
Proof.
  intros [HA HS] Hcap. unfold Jupiter_bl.init. rewrite decide_False by lia. cbv zeta.
  rewrite range_get_last by (simpl; lia). ok_step. cbn [stop].
  replace (A * 32 + 1 - 1) with (A * 32) by lia.
  rewrite range_get_last by (simpl; lia). ok_step. cbn [stop].
  replace (A * 32 + A * 8 + 1 - 1) with (A * 32 + A * 8) by lia.
  by rewrite Topology_init_ok by done.
Qed.

Lemma Jupiter_bl_prestructure_tors S A cap c :
  0 <= A ->
  Jupiter_bl.prestructure_tors (Jupiter_bl_instance S A cap) c
  = Ok (table c A 32, c + 32 * A).
Proof.
  intros HA. unfold Jupiter_bl.prestructure_tors.
  cbn [Jupiter_bl.aggregation_block_count Jupiter_bl.tors_per_aggregation_block
       Jupiter_bl_instance].
  rewrite (for_each_append _ (fun b => row (c + 32 * b) 32) (fun b => c + 32 * b));
    [done|lia|lia|].
  intros i l Hi. rewrite fill_row by lia. ok_step. congr_lia.
Qed.

Lemma Jupiter_bl_prestructure_aggregation S A cap c :
  0 <= A ->
  Jupiter_bl.prestructure_aggregation (Jupiter_bl_instance S A cap) c
  = Ok (table c A 8, c + 8 * A).
Proof.
  intros HA. unfold Jupiter_bl.prestructure_aggregation.
  cbn [Jupiter_bl.aggregation_block_count Jupiter_bl_instance].
  rewrite (for_each_append _ (fun b => row (c + 8 * b) 8) (fun b => c + 8 * b));
    [done|lia|lia|].
  intros i l Hi. rewrite fill_row by lia. ok_step. congr_lia.
Qed.

Lemma Jupiter_bl_prestructure_spines S A cap c :
  0 <= S ->
  Jupiter_bl.prestructure_spines (Jupiter_bl_instance S A cap) c
  = Ok (row c S, c + S).
Proof. intros HS. by apply fill_row. Qed.

Lemma Jupiter_bl_wire_tors S A cap G :
  Jupiter_valid S A ->
  Jupiter_bl.wire_tors (Jupiter_bl_instance S A cap) (table (A * 32 + 1) A 8) G
  = Ok (add_links (Jupiter_bl_tor_links A) G, 32 * A).
Proof.
  intros [HA HS]. unfold Jupiter_bl.wire_tors.
  cbn [Jupiter_bl.aggregation_block_count Jupiter_bl.tors_per_aggregation_block
       Jupiter_bl.tor_idx_range Jupiter_bl_instance].
  rewrite (for_each_links _
    (fun ab => seqZ 0 32 ≫= fun tor => seqZ 0 8 ≫= fun out =>
       [(1 + (32 * ab + tor), A * 32 + 1 + 8 * ab + out)])
    (fun ab => 32 * ab)); [done|lia|lia|].
  intros ab G' Hab.
  rewrite (for_each_links _
    (fun tor => seqZ 0 8 ≫= fun out =>
       [(1 + (32 * ab + tor), A * 32 + 1 + 8 * ab + out)])
    (fun tor => 32 * ab + tor)); [congr_lia|lia|lia|].
  intros tor G'' Htor.
  rewrite (for_each_links_pure _
    (fun out => [(1 + (32 * ab + tor), A * 32 + 1 + 8 * ab + out)])).
  - ok_step. congr_lia.
  - lia.
  - intros out G3 Hout. rewrite range_get_nth by (simpl; lia). ok_step.
    rewrite list_get_table by lia. ok_step. rewrite list_get_row by lia. done.
Qed.

Lemma Jupiter_bl_wire_aggregation S A cap G :
  Jupiter_valid S A ->
  Jupiter_bl.wire_aggregation (Jupiter_bl_instance S A cap)
    (row (A * 32 + A * 8 + 1) S) G
  = Ok (add_links (Jupiter_bl_agg_links S A) G,
        (8 * A, if decide (32 >= S) then 0 else (32 * (8 * A)) mod S)).
Proof.
  intros [HA HS]. unfold Jupiter_bl.wire_aggregation.
  cbn [Jupiter_bl.aggregation_block_count Jupiter_bl.ports_per_middle_block_up
       Jupiter_bl.spine_block_count Jupiter_bl.aggregation_idx_range
       Jupiter_bl.spine_idx_range Jupiter_bl_instance].
  set (cur := fun x => if decide (32 >= S) then 0 else (32 * x) mod S).
  rewrite (for_each_links _
    (fun ab => seqZ 0 8 ≫= fun mb => Jupiter_bl_uplinks_of S A (8 * ab + mb))
    (fun ab => (8 * ab, cur (8 * ab)))); [done|lia| |].
  { unfold cur. case_decide; [done|]. by rewrite Z.mod_0_l by lia. }
  intros ab G' Hab.
  rewrite (for_each_links _
    (fun mb => Jupiter_bl_uplinks_of S A (8 * ab + mb))
    (fun mb => (8 * ab + mb, cur (8 * ab + mb))));
    [congr_lia|lia|by rewrite Z.add_0_r|].
  intros mb G'' Hmb. unfold Jupiter_bl_uplinks_of, cur.
  destruct (decide (32 >= S)) as [Hfull|Hrr].
  - unfold range_len. cbn [start stop].
    replace (Z.max 0 (A * 32 + A * 8 + S + 1 - (A * 32 + A * 8 + 1))) with S by lia.
    rewrite (for_each_links_pure _
      (fun sp => [(A * 32 + 1 + (8 * ab + mb), A * 32 + A * 8 + 1 + sp)])).
    + ok_step. congr_lia.
    + lia.
    + intros sp G3 Hsp. by rewrite !range_get_nth by (simpl; lia).
  - rewrite (for_each_links _
      (fun u => [(A * 32 + 1 + (8 * ab + mb),
                  A * 32 + A * 8 + 1 + (32 * (8 * ab + mb) + u) mod S)])
      (fun u => (32 * (8 * ab + mb) + u) mod S)).
    + ok_step. congr_lia.
    + lia.
    + by rewrite Z.add_0_r.
    + intros u G3 Hu. rewrite range_get_nth by (simpl; lia). ok_step.
      rewrite list_get_row by (apply Z.mod_pos_bound; lia). ok_step.
      do 2 f_equal. rewrite Z.add_assoc. rewrite (mod_succ _ S) by lia. done.
Qed.

Lemma Jupiter_bl_wire_ok S A cap :
  Jupiter_valid S A ->
  Jupiter_bl.wire (Jupiter_bl_instance S A cap)
  = Ok (add_links (Jupiter_bl_links S A) (gen_nodes (Jupiter_bl_counts S A))).
Proof.
  intros Hv. pose proof Hv as [HA HS]. unfold Jupiter_bl.wire, py_assert.
  cbn [Jupiter_bl.tor_idx_range Jupiter_bl.aggregation_idx_range
       Jupiter_bl.spine_idx_range Jupiter_bl_instance].
  unfold range_len. cbn [start stop].
  replace (Z.max 0 (A * 32 + 1 - 1)) with (A * 32) by lia.
  replace (Z.max 0 (A * 32 + A * 8 + 1 - (A * 32 + 1))) with (A * 8) by lia.
  replace (Z.max 0 (A * 32 + A * 8 + S + 1 - (A * 32 + A * 8 + 1))) with S by lia.
  fold (Jupiter_bl_counts S A).
  rewrite !range_get_nth by (cbn [start stop]; lia). cbn [start].
  rewrite !Z.add_0_r. ok_step.
  rewrite decide_True by done. ok_step.
  rewrite Jupiter_bl_prestructure_tors by lia. ok_step.
  rewrite decide_True by lia. ok_step.
  rewrite Jupiter_bl_prestructure_aggregation by lia. ok_step.
  rewrite decide_True by lia. ok_step.
  rewrite Jupiter_bl_prestructure_spines by lia. ok_step.
  replace (1 + 32 * A + 8 * A) with (A * 32 + A * 8 + 1) by lia.
  replace (1 + 32 * A) with (A * 32 + 1) by lia.
  rewrite Jupiter_bl_wire_tors by done. ok_step.
  rewrite Jupiter_bl_wire_aggregation by done. ok_step.
  unfold Jupiter_bl_links. by rewrite add_links_app.
Qed.
End Jupiter_bl.

Lemma mod_inj_window k k' S :
  0 < S -> k mod S = k' mod S -> - S < k - k' < S -> k = k'.
Proof.
  intros HS Hm Hw. divmod k S. divmod k' S.
  assert (k / S = k' / S) by nia. congruence.
Qed.

Section Jupiter_blCables.
Variables S A : Z.
Hypothesis Hvalid : Jupiter_valid S A.

Lemma Jupiter_bl_tor_links_spec u v :
  (u, v) ∈ Jupiter_bl_tor_links A <->
  exists ab tor out, 0 <= ab < A /\ 0 <= tor < 32 /\ 0 <= out < 8 /\
    u = 1 + (32 * ab + tor) /\ v = A * 32 + 1 + 8 * ab + out.
Proof.
  unfold Jupiter_bl_tor_links. unfold_cables. split.
  - intros (ab & (tor & (out & Heq & Hout) & Htor) & Hab).
    exists ab, tor, out. simplify_eq. lia.
  - intros (ab & tor & out & Hab & Htor & Hout & -> & ->).
    exists ab. split; [|lia]. exists tor. split; [|lia]. exists out. split; [done|lia].
Qed.

Lemma Jupiter_bl_uplinks_of_spec x u v :
  (u, v) ∈ Jupiter_bl_uplinks_of S A x <->
  u = A * 32 + 1 + x /\
  if decide (32 >= S) then exists sp, 0 <= sp < S /\ v = A * 32 + A * 8 + 1 + sp
  else exists k, 0 <= k < 32 /\ v = A * 32 + A * 8 + 1 + (32 * x + k) mod S.
Proof.
  unfold Jupiter_bl_uplinks_of. case_decide; unfold_cables; split.
  - intros (sp & Heq & Hsp). simplify_eq. split; [done|]. exists sp. lia.
  - intros (-> & sp & Hsp & ->). exists sp. split; [done|lia].
  - intros (k & Heq & Hk). simplify_eq. split; [done|]. exists k. lia.
  - intros (-> & k & Hk & ->). exists k. split; [done|lia].
Qed.

Lemma Jupiter_bl_agg_links_spec u v :
  (u, v) ∈ Jupiter_bl_agg_links S A <->
  exists x, 0 <= x < 8 * A /\ (u, v) ∈ Jupiter_bl_uplinks_of S A x.
Proof.
  unfold Jupiter_bl_agg_links. rewrite list_elem_of_bind.
  setoid_rewrite list_elem_of_bind. setoid_rewrite elem_of_seqZ. split.
  - intros (ab & (mb & H & Hmb) & Hab). exists (8 * ab + mb). split; [lia|done].
  - intros (x & Hx & H). exists (x / 8). divmod x 8. split; [|lia].
    exists (x mod 8). split; [|lia].
    by replace (8 * (x / 8) + x mod 8) with x by lia.
Qed.





End Jupiter_blCables.

(** ** Jupiter, switch level *)

Lemma div_succ k S :
  0 < S -> (k + 1) / S = if decide ((k + 1) mod S = 0) then k / S + 1 else k / S.
Proof.
  intros HS. divmod k S. divmod (k + 1) S. case_decide as E.
  - symmetry. apply (Z.div_unique_pos _ _ _ 0); [lia|].
    assert ((k + 1) / S = k / S + 1) by nia. nia.
  - symmetry. apply (Z.div_unique_pos _ _ _ ((k + 1) mod S)); [lia|].
    assert ((k + 1) / S = k / S) by nia. nia.
Qed.

(** The loop that fills a table of rows. *)
Lemma fill_table (blocks per_block c : Z) :
  0 <= blocks -> 0 <= per_block ->
  for_each (seqZ 0 blocks)
    (fun (_ : Z) '(t, current_idx) =>
       '(r, current_idx) ←
         for_each (seqZ 0 per_block)
           (fun (_ : Z) '(l, current_idx) =>
              Ok (l ++ [current_idx], current_idx + 1))
           ([], current_idx);
       Ok (t ++ [r], current_idx))
    ([], c)
  = Ok (table c blocks per_block, c + per_block * blocks).
Proof.
  intros Hb Hp.
  rewrite (for_each_append _ (fun b => row (c + per_block * b) per_block)
             (fun b => c + per_block * b)); [done|lia|lia|].
  intros i l Hi. rewrite fill_row by lia. ok_step. congr_lia.
Qed.

Section Jupiter.
Context {V : Type}.
Implicit Types (cap : option (callable V)) (G : DiGraph V).

Lemma Jupiter_init_ok S A cap :
  Jupiter_valid S A -> valid_cap cap ->
  Jupiter.init S A cap = Ok (Jupiter_instance S A cap).
Proof.
  intros [HA HS] Hcap. unfold Jupiter.init. rewrite decide_False by lia. cbv zeta.
  rewrite range_get_last by (simpl; lia). ok_step. cbn [stop].
  replace (A * 32 + 1 - 1) with (A * 32) by lia.
  rewrite range_get_last by (simpl; lia). ok_step. cbn [stop].
  replace (A * 32 + A * 8 * 4 + 1 - 1) with (A * 32 + A * 8 * 4) by lia.
  by rewrite Topology_init_ok by done.
Qed.

Lemma Jupiter_prestructure_tors S A cap c :
  0 <= A ->
  Jupiter.prestructure_tors (Jupiter_instance S A cap) c
  = Ok (table c A 32, c + 32 * A).
Proof. intros HA. by apply fill_table. Qed.

Lemma Jupiter_prestructure_spines S A cap c :
  0 <= S ->
  Jupiter.prestructure_spines (Jupiter_instance S A cap) c
  = Ok (table c S 6, c + 6 * S).
Proof. intros HS. by apply fill_table. Qed.

Lemma Jupiter_prestructure_aggregation S A cap c :
  0 <= A ->
  Jupiter.prestructure_aggregation (Jupiter_instance S A cap) c
  = Ok (table3 c A, c + 32 * A).
Proof.
  intros HA. unfold Jupiter.prestructure_aggregation.
  cbn [Jupiter.aggregation_block_count Jupiter_instance].
  rewrite (for_each_append _ (fun b => table (c + 32 * b) 8 4)
             (fun b => c + 32 * b)); [done|lia|lia|].
  intros i l Hi. rewrite (fill_table 8 4) by lia. ok_step. congr_lia.
Qed.

Lemma list_get_table3 first blocks b :
  0 <= b < blocks ->
  list_get (table3 first blocks) b = Ok (table (first + 32 * b) 8 4).
Proof. apply (list_get_fmap_seqZ (fun b => table (first + 32 * b) 8 4)). Qed.

Lemma Jupiter_wire_spines S A cap G :
  Jupiter_valid S A ->
  Jupiter.wire_spines (Jupiter_instance S A cap)
    (table (A * 32 + A * 8 * 4 + 1) S 6) G
  = Ok (add_links (Jupiter_spine_links S A) G, 6 * S).
Proof.
  intros [HA HS]. unfold Jupiter.wire_spines.
  cbn [Jupiter.spine_block_count Jupiter.switches_per_spine
       Jupiter.spine_idx_range Jupiter_instance].
  rewrite (for_each_links _
    (fun sb => seqZ 0 6 ≫= fun sw => seqZ 0 sw ≫= fun prev =>
       [(A * 32 + A * 8 * 4 + 1 + (6 * sb + sw),
         A * 32 + A * 8 * 4 + 1 + 6 * sb + prev)])
    (fun sb => 6 * sb)); [done|lia|lia|].
  intros sb G' Hsb.
  rewrite (for_each_links _
    (fun sw => seqZ 0 sw ≫= fun prev =>
       [(A * 32 + A * 8 * 4 + 1 + (6 * sb + sw),
         A * 32 + A * 8 * 4 + 1 + 6 * sb + prev)])
    (fun sw => 6 * sb + sw)); [congr_lia|lia|lia|].
  intros sw G'' Hsw.
  rewrite (for_each_links_pure _
    (fun prev => [(A * 32 + A * 8 * 4 + 1 + (6 * sb + sw),
                   A * 32 + A * 8 * 4 + 1 + 6 * sb + prev)])).
  - ok_step. congr_lia.
  - lia.
  - intros prev G3 Hprev. rewrite range_get_nth by (simpl; lia). ok_step.
    rewrite list_get_table by lia. ok_step. rewrite list_get_row by lia. done.
Qed.

Lemma Jupiter_wire_uplinks S A cap G x :
  Jupiter_valid S A -> 0 <= x < 32 * A ->
  for_each (seqZ 0 8)
    (fun (_ : Z) '(G, (sb, sp)) =>
       v1 ← range_get (Jupiter.aggregation_idx_range (Jupiter_instance S A cap)) x;
       row ← list_get (table (A * 32 + A * 8 * 4 + 1) S 6) sb;
       v2 ← list_get row sp;
       let G := add_link v1 v2 G in
       sb ← py_mod (sb + 1) S;
       sp ← (if decide (sb = 0) then py_mod (sp + 1) 6 else Ok sp);
       Ok (G, (sb, sp)))
    (G, ((8 * x) mod S, (8 * x / S) mod 6))
  = Ok (add_links (Jupiter_uplinks_of S A x) G,
        ((8 * (x + 1)) mod S, (8 * (x + 1) / S) mod 6)).
Proof.
  intros [HA HS] Hx.
  rewrite (for_each_links _
    (fun u => [(A * 32 + 1 + x, Jupiter_target S A (8 * x + u))])
    (fun u => ((8 * x + u) mod S, ((8 * x + u) / S) mod 6))).
  - congr_lia.
  - lia.
  - by rewrite Z.add_0_r.
  - intros u G' Hu. cbn [Jupiter.aggregation_idx_range Jupiter_instance].
    rewrite range_get_nth by (simpl; lia). ok_step. cbn [start].
    rewrite list_get_table by (apply Z.mod_pos_bound; lia). ok_step.
    rewrite list_get_row by (apply Z.mod_pos_bound; lia). ok_step.
    rewrite !py_mod_pos by lia. ok_step.
    rewrite Zplus_mod_idemp_l. rewrite Z.add_assoc.
    rewrite (div_succ (8 * x + u) S) by lia.
    unfold Jupiter_target.
    case_decide; ok_step; [rewrite Zplus_mod_idemp_l|]; congr_lia.
Qed.

Lemma Jupiter_wire_aggregation S A cap G :
  Jupiter_valid S A ->
  Jupiter.wire_aggregation (Jupiter_instance S A cap) (table3 (A * 32 + 1) A)
    (table (A * 32 + A * 8 * 4 + 1) S 6) G
  = Ok (add_links (Jupiter_agg_links S A) G, Jupiter_cursor S (32 * A)).
Proof.
  intros Hv. pose proof Hv as [HA HS]. unfold Jupiter.wire_aggregation.
  cbn [Jupiter.aggregation_block_count Jupiter.spine_block_count
       Jupiter.switches_per_spine Jupiter_instance].
  rewrite (for_each_links _
    (fun ab => seqZ 0 8 ≫= fun mb => seqZ 0 4 ≫= fun sw =>
       Jupiter_mesh_of A ab mb sw
       ++ Jupiter_uplinks_of S A (32 * ab + 4 * mb + sw))
    (fun ab => Jupiter_cursor S (32 * ab))); [done|lia| |].
  { unfold Jupiter_cursor. simpl. by rewrite Z.mod_0_l, Z.div_0_l, Z.mod_0_l by lia. }
  intros ab G' Hab.
  rewrite (for_each_links _
    (fun mb => seqZ 0 4 ≫= fun sw =>
       Jupiter_mesh_of A ab mb sw
       ++ Jupiter_uplinks_of S A (32 * ab + 4 * mb + sw))
    (fun mb => Jupiter_cursor S (32 * ab + 4 * mb))); [congr_lia|lia|congr_lia|].
  intros mb G'' Hmb.
  rewrite (for_each_links _
    (fun sw => Jupiter_mesh_of A ab mb sw
       ++ Jupiter_uplinks_of S A (32 * ab + 4 * mb + sw))
    (fun sw => Jupiter_cursor S (32 * ab + 4 * mb + sw)));
    [congr_lia|lia|congr_lia|].
  intros sw G3 Hsw. unfold Jupiter_cursor.
  cbn [Jupiter.agg_idx Jupiter.spine_block_idx Jupiter.spine_switch_pos].
  rewrite (for_each_links_pure _
    (fun prev => [(A * 32 + 1 + (32 * ab + 4 * mb + sw),
                   A * 32 + 1 + 32 * ab + 4 * mb + prev)])).
  2: lia.
  2: { intros prev G4 Hprev.
       cbn [Jupiter.aggregation_idx_range Jupiter_instance].
       rewrite range_get_nth by (simpl; lia). ok_step. cbn [start].
       rewrite list_get_table3 by lia. ok_step.
       rewrite list_get_table by lia. ok_step.
       rewrite list_get_row by lia. ok_step. congr_lia. }
  ok_step. rewrite Jupiter_wire_uplinks by (done || lia). ok_step.
  rewrite add_links_app. unfold Jupiter_cursor, Jupiter_mesh_of. congr_lia.
Qed.

Lemma Jupiter_wire_tors S A cap G :
  Jupiter_valid S A ->
  Jupiter.wire_tors (Jupiter_instance S A cap) (table3 (A * 32 + 1) A) G
  = Ok (add_links (Jupiter_tor_links A) G, 32 * A).
Proof.
  intros [HA HS]. unfold Jupiter.wire_tors.
  cbn [Jupiter.aggregation_block_count Jupiter.tors_per_aggregation_block
       Jupiter.tor_idx_range Jupiter_instance].
  rewrite (for_each_links _
    (fun ab => seqZ 0 32 ≫= fun tor => seqZ 0 8 ≫= fun out =>
      [(1 + (32 * ab + tor), A * 32 + 1 + 32 * ab + 4 * out + tor / 8);
       (1 + (32 * ab + tor),
        A * 32 + 1 + 32 * ab + 4 * out + (tor / 8 + 1) mod 4)])
    (fun ab => 32 * ab)); [done|lia|lia|].
  intros ab G' Hab.
  rewrite (for_each_links _
    (fun tor => seqZ 0 8 ≫= fun out =>
      [(1 + (32 * ab + tor), A * 32 + 1 + 32 * ab + 4 * out + tor / 8);
       (1 + (32 * ab + tor),
        A * 32 + 1 + 32 * ab + 4 * out + (tor / 8 + 1) mod 4)])
    (fun tor => 32 * ab + tor)); [congr_lia|lia|lia|].
  intros tor G'' Htor.
  rewrite (for_each_links_pure _
    (fun out =>
      [(1 + (32 * ab + tor), A * 32 + 1 + 32 * ab + 4 * out + tor / 8);
       (1 + (32 * ab + tor),
        A * 32 + 1 + 32 * ab + 4 * out + (tor / 8 + 1) mod 4)])).
  - ok_step. congr_lia.
  - lia.
  - intros out G3 Hout. rewrite int_div_nonneg by lia. ok_step.
    pose proof (div_range tor 8 4 ltac:(lia) ltac:(lia)) as Hq.
    rewrite range_get_nth by (simpl; lia). ok_step.
    rewrite list_get_table3 by lia. ok_step.
    rewrite list_get_table by lia. ok_step.
    rewrite list_get_row by lia. ok_step.
    rewrite py_mod_pos by lia. ok_step.
    rewrite list_get_row by (apply Z.mod_pos_bound; lia). ok_step.
    cbn [start]. unfold add_links. cbn [fold_left fst snd]. congr_lia.
Qed.

Lemma Jupiter_wire_ok S A cap :
  Jupiter_valid S A ->
  Jupiter.wire (Jupiter_instance S A cap)
  = Ok (add_links (Jupiter_links S A) (gen_nodes (Jupiter_counts S A))).
Proof.
  intros Hv. pose proof Hv as [HA HS]. unfold Jupiter.wire, py_assert.
  cbn [Jupiter.tor_idx_range Jupiter.aggregation_idx_range
       Jupiter.spine_idx_range Jupiter_instance].
  unfold range_len. cbn [start stop].
  replace (Z.max 0 (A * 32 + 1 - 1)) with (A * 32) by lia.
  replace (Z.max 0 (A * 32 + A * 8 * 4 + 1 - (A * 32 + 1))) with (A * 8 * 4) by lia.
  replace (Z.max 0 (A * 32 + A * 8 * 4 + S * 6 + 1 - (A * 32 + A * 8 * 4 + 1)))
    with (S * 6) by lia.
  fold (Jupiter_counts S A).
  rewrite !range_get_nth by (cbn [start stop]; lia). cbn [start].
  rewrite !Z.add_0_r. ok_step.
  rewrite decide_True by done. ok_step.
  rewrite Jupiter_prestructure_tors by lia. ok_step.
  rewrite decide_True by lia. ok_step.
  rewrite Jupiter_prestructure_aggregation by lia. ok_step.
  rewrite decide_True by lia. ok_step.
  rewrite Jupiter_prestructure_spines by lia. ok_step.
  replace (1 + 32 * A + 32 * A) with (A * 32 + A * 8 * 4 + 1) by lia.
  replace (1 + 32 * A) with (A * 32 + 1) by lia.
  rewrite Jupiter_wire_spines by done. ok_step.
  rewrite Jupiter_wire_aggregation by done. ok_step.
  rewrite Jupiter_wire_tors by done. ok_step.
  unfold Jupiter_links. by rewrite !add_links_app.
Qed.
End Jupiter.

Lemma Jupiter_target_bounds S A k :
  0 < S ->
  A * 32 + A * 8 * 4 < Jupiter_target S A k <= A * 32 + A * 8 * 4 + S * 6.
Proof.
  intros HS. unfold Jupiter_target.
  pose proof (Z.mod_pos_bound k S ltac:(lia)).
  pose proof (Z.mod_pos_bound (k / S) 6 ltac:(lia)). lia.
Qed.

(** Two uplinks less than a full tour of the spine layer apart end at
    different spine switches. *)
Lemma Jupiter_target_inj S A k k' :
  0 < S -> - (6 * S) < k - k' < 6 * S ->
  Jupiter_target S A k = Jupiter_target S A k' -> k = k'.
Proof.
  intros HS Hw. unfold Jupiter_target. intros Heq.
  pose proof (Z.mod_pos_bound k S ltac:(lia)).
  pose proof (Z.mod_pos_bound k' S ltac:(lia)).
  pose proof (Z.mod_pos_bound (k / S) 6 ltac:(lia)).
  pose proof (Z.mod_pos_bound (k' / S) 6 ltac:(lia)).
  assert (Hr : k mod S = k' mod S) by lia.
  assert (Hc : (k / S) mod 6 = (k' / S) mod 6) by lia.
  pose proof (Z.div_mod k S ltac:(lia)) as Hk.
  pose proof (Z.div_mod k' S ltac:(lia)) as Hk'.
  pose proof (Z.div_mod (k / S) 6 ltac:(lia)) as Hq.
  pose proof (Z.div_mod (k' / S) 6 ltac:(lia)) as Hq'.
  set (a := k / S / 6) in *. set (a' := k' / S / 6) in *.
  assert (Hd : k - k' = 6 * S * (a - a')) by nia.
  assert (a = a') by nia.
  nia.
Qed.

Section JupiterCables.
Variables S A : Z.
Hypothesis Hvalid : Jupiter_valid S A.

Lemma Jupiter_spine_links_spec u v :
  (u, v) ∈ Jupiter_spine_links S A <->
  exists sb sw prev, 0 <= sb < S /\ 0 <= sw < 6 /\ 0 <= prev < sw /\
    u = A * 32 + A * 8 * 4 + 1 + (6 * sb + sw) /\
    v = A * 32 + A * 8 * 4 + 1 + 6 * sb + prev.
Proof.
  unfold Jupiter_spine_links. unfold_cables. split.
  - intros (sb & (sw & (prev & Heq & Hprev) & Hsw) & Hsb).
    exists sb, sw, prev. simplify_eq. lia.
  - intros (sb & sw & prev & Hsb & Hsw & Hprev & -> & ->).
    exists sb. split; [|lia]. exists sw. split; [|lia].
    exists prev. split; [done|lia].
Qed.

Lemma Jupiter_mesh_of_spec ab mb sw u v :
  (u, v) ∈ Jupiter_mesh_of A ab mb sw <->
  exists prev, 0 <= prev < sw /\
    u = A * 32 + 1 + (32 * ab + 4 * mb + sw) /\
    v = A * 32 + 1 + 32 * ab + 4 * mb + prev.
Proof.
  unfold Jupiter_mesh_of. unfold_cables. split.
  - intros (prev & Heq & Hprev). exists prev. simplify_eq. lia.
  - intros (prev & Hprev & -> & ->). exists prev. split; [done|lia].
Qed.

Lemma Jupiter_uplinks_of_spec x u v :
  (u, v) ∈ Jupiter_uplinks_of S A x <->
  exists i, 0 <= i < 8 /\ u = A * 32 + 1 + x /\ v = Jupiter_target S A (8 * x + i).
Proof.
  unfold Jupiter_uplinks_of. unfold_cables. split.
  - intros (i & Heq & Hi). exists i. simplify_eq. lia.
  - intros (i & Hi & -> & ->). exists i. split; [done|lia].
Qed.

Lemma Jupiter_agg_links_spec u v :
  (u, v) ∈ Jupiter_agg_links S A <->
  exists ab mb sw, 0 <= ab < A /\ 0 <= mb < 8 /\ 0 <= sw < 4 /\
    ((u, v) ∈ Jupiter_mesh_of A ab mb sw
     \/ (u, v) ∈ Jupiter_uplinks_of S A (32 * ab + 4 * mb + sw)).
Proof.
  unfold Jupiter_agg_links. split.
  - intros (ab & (mb & (sw & H & Hsw%elem_of_seqZ)%list_elem_of_bind
                     & Hmb%elem_of_seqZ)%list_elem_of_bind
               & Hab%elem_of_seqZ)%list_elem_of_bind.
    apply elem_of_app in H. exists ab, mb, sw. split_and!; try lia. done.
  - intros (ab & mb & sw & Hab & Hmb & Hsw & H).
    apply list_elem_of_bind. exists ab. split; [|apply elem_of_seqZ; lia].
    apply list_elem_of_bind. exists mb. split; [|apply elem_of_seqZ; lia].
    apply list_elem_of_bind. exists sw. split; [|apply elem_of_seqZ; lia].
    by apply elem_of_app.
Qed.

Lemma Jupiter_tor_links_spec u v :
  (u, v) ∈ Jupiter_tor_links A <->
  exists ab tor out, 0 <= ab < A /\ 0 <= tor < 32 /\ 0 <= out < 8 /\
    u = 1 + (32 * ab + tor) /\
    (v = A * 32 + 1 + 32 * ab + 4 * out + tor / 8
     \/ v = A * 32 + 1 + 32 * ab + 4 * out + (tor / 8 + 1) mod 4).
Proof.
  unfold Jupiter_tor_links. unfold_cables. split.
  - intros (ab & (tor & (out & Heq & Hout) & Htor) & Hab).
    exists ab, tor, out. destruct Heq as [Heq|Heq]; simplify_eq;
      split_and!; try lia; auto.
  - intros (ab & tor & out & Hab & Htor & Hout & -> & Hv).
    exists ab. split; [|lia]. exists tor. split; [|lia]. exists out. split; [|lia].
    destruct Hv as [-> | ->]; auto.
Qed.


Lemma Jupiter_links_oriented a b :
  (a, b) ∈ Jupiter_links S A -> Jupiter_oriented S A a b.
Proof.
  destruct Hvalid as [HA HS]. unfold Jupiter_links. rewrite !elem_of_app.
  rewrite Jupiter_spine_links_spec, Jupiter_agg_links_spec, Jupiter_tor_links_spec.
  intros [(sb & sw & prev & ? & ? & ? & -> & ->)
         |[(ab & mb & sw & ? & ? & ? & [H|H])
          |(ab & tor & out & ? & ? & ? & -> & Hv)]].
  - left. lia.
  - apply Jupiter_mesh_of_spec in H as (prev & ? & -> & ->). right; left. lia.
  - apply Jupiter_uplinks_of_spec in H as (i & ? & -> & ->). right; right; left.
    pose proof (Jupiter_target_bounds S A (8 * (32 * ab + 4 * mb + sw) + i)
                  ltac:(lia)). lia.
  - right; right; right.
    pose proof (div_range tor 8 4 ltac:(lia) ltac:(lia)).
    pose proof (Z.mod_pos_bound (tor / 8 + 1) 4 ltac:(lia)).
    destruct Hv as [-> | ->]; lia.
Qed.







End JupiterCables.

(** * What the four generators produce *)

Section Generators.
Context {V : Type}.
Implicit Types (cap : option (callable V)).

Lemma FatTree_gen_graph_ok p cap :
  FatTree_valid p ->
  FatTree.gen_graph (FatTree_instance p cap)
  = Ok (generated (FatTree_links p) [p * (p / 2); p * (p / 2); p / 2 * (p / 2)]
          (FatTree.base (FatTree_instance p cap))).
Proof.
  intros Hv. unfold FatTree.gen_graph. by rewrite FatTree_wire_ok by done.
Qed.

Lemma Fabric_gen_graph_ok s e n pc cap :
  Fabric_valid s e n pc ->
  Fabric.gen_graph (Fabric_instance s e n pc cap)
  = Ok (generated (Fabric_links s e n pc) (Fabric_counts s e n pc)
          (Fabric.base (Fabric_instance s e n pc cap))).
Proof.
  intros Hv. unfold Fabric.gen_graph. by rewrite Fabric_wire_ok by done.
Qed.

Lemma Jupiter_gen_graph_ok S A cap :
  Jupiter_valid S A ->
  Jupiter.gen_graph (Jupiter_instance S A cap)
  = Ok (generated (Jupiter_links S A) (Jupiter_counts S A)
          (Jupiter.base (Jupiter_instance S A cap))).
Proof.
  intros Hv. unfold Jupiter.gen_graph. by rewrite Jupiter_wire_ok by done.
Qed.

Lemma Jupiter_bl_gen_graph_ok S A cap :
  Jupiter_valid S A ->
  Jupiter_bl.gen_graph (Jupiter_bl_instance S A cap)
  = Ok (generated (Jupiter_bl_links S A) (Jupiter_bl_counts S A)
          (Jupiter_bl.base (Jupiter_bl_instance S A cap))).
Proof.
  intros Hv. unfold Jupiter_bl.gen_graph. by rewrite Jupiter_bl_wire_ok by done.
Qed.

End Generators.

(** * Properties of the generators *)



Section Layers.
Context {V : Type}.
Implicit Types (cap : option (callable V)).

Lemma FatTree_layered p cap :
  FatTree_valid p ->
  layered (generated (FatTree_links p) [p * (p / 2); p * (p / 2); p / 2 * (p / 2)]
             (FatTree.base (FatTree_instance p cap)))
          (FatTree_indices p) [p * (p / 2); p * (p / 2); p / 2 * (p / 2)].
Proof.
  intros Hv. pose proof Hv as [Hev Hp].
  assert (Hh : 1 <= p / 2) by (apply Z.div_le_lower_bound; lia).
  assert (0 < p * (p / 2)) by nia. assert (0 < p / 2 * (p / 2)) by nia.
  split_and!.
  - apply nodes_generated; [done|]. simpl.
    replace (0 + p * (p / 2) + p * (p / 2) + p / 2 * (p / 2))
      with (p * (p / 2) + p * (p / 2) + p / 2 * (p / 2)) by lia.
    by apply FatTree_links_proper.
  - simpl. lia.
  - unfold FatTree_indices, range_len. simpl. repeat f_equal; lia.
Qed.



End Layers.




Section EdgeCounts.
Context {V : Type}.
Implicit Types (b : Topology.t V).





End EdgeCounts.




(** ** The plane guard of Fabric *)

Section PlaneGuard.
Context {V : Type}.
Implicit Types (G : DiGraph V) (cap : option (callable V)).

(** What the guard refuses. *)
Lemma connect_to_plane_switches_raises G (t : Fabric.t V) plane i :
  plane < 0 \/ plane > Fabric.nr_of_planes t ->
  Fabric.connect_to_plane_switches G t plane i = Raise ValueError.
Proof.
  intros H. unfold Fabric.connect_to_plane_switches. by rewrite decide_True.
Qed.

(** What it lets through on a valid topology: every plane from 0 up to
    [nr_of_planes] itself, which lays the cables of plane 0 but the first. *)
Lemma connect_to_plane_switches_past_the_end s e n pc cap G i :
  Fabric_valid s e n pc ->
  Fabric.connect_to_plane_switches G (Fabric_instance s e n pc cap) n i
  = Ok (add_links (plane_cables n i (pc * s + n * s + 1 + n) (s - 1)) G).
Proof.
  intros (Hs & He & Hn & Hpc). unfold Fabric.connect_to_plane_switches.
  cbn [Fabric.nr_of_planes Fabric.spine_idx_range Fabric_instance].
  rewrite decide_False by lia.
  rewrite range_get_nth by (simpl; nia). ok_step. cbn [start stop].
  replace (pc * s + n * s + 1 + 0) with (pc * s + n * s + 1) by lia.
  rewrite (plane_loop_ok _ (Z.to_nat (s - 1))); cbn [Fabric.nr_of_planes
    Fabric.spine_idx_range Fabric_instance start stop]; try nia.
  by rewrite Z2Nat.id by lia.
Qed.

Lemma connect_to_plane_switches_raises_iff s e n pc cap G plane i :
  Fabric_valid s e n pc ->
  Fabric.connect_to_plane_switches G (Fabric_instance s e n pc cap) plane i
  = Raise ValueError
  <-> plane < 0 \/ plane > n.
Proof.
  intros Hv. split; [|intros H; by apply connect_to_plane_switches_raises].
  intros Hr. destruct (decide (plane < 0 \/ plane > n)) as [|Hin]; [done|].
  exfalso. destruct (decide (plane = n)) as [->|Hne].
  - by rewrite connect_to_plane_switches_past_the_end in Hr.
  - by rewrite connect_to_plane_switches_ok in Hr by (done || lia).
Qed.
End PlaneGuard.


(** ** Construction errors *)



(** ** Capacities *)

Section Capacities.
Context {V : Type}.
Implicit Types (cap : option (callable V)).

End Capacities.



(** ** FatTree with four ports *)

Lemma FatTree_links_4 u v : (u, v) ∈ FatTree_links 4 <-> FatTree4_wired u v.
Proof.
  split.
  - revert u v.
    assert (H : Forall (fun l => FatTree4_wired l.1 l.2) (FatTree_links 4))
      by (apply (bool_decide_unpack _); vm_compute; reflexivity).
    intros u v Huv. by apply (proj1 (Forall_forall _ _) H (u, v)).
  - intros Hw.
    assert (Hu : u ∈ seqZ 1 16) by (apply elem_of_seqZ; unfold FatTree4_wired in Hw; lia).
    assert (Hv : v ∈ seqZ 9 12) by (apply elem_of_seqZ; unfold FatTree4_wired in Hw; lia).
    assert (H : Forall (fun a => Forall (fun b =>
                  FatTree4_wired a b -> (a, b) ∈ FatTree_links 4) (seqZ 9 12))
                (seqZ 1 16))
      by (apply (bool_decide_unpack _); vm_compute; reflexivity).
    by apply (proj1 (Forall_forall _ _) (proj1 (Forall_forall _ _) H u Hu) v Hv).
Qed.

Lemma neighbours_in_iff {V} (G : DiGraph V) (P : Z -> Prop)
    `{!forall y, Decision (P y)} x r :
  (forall y, has_edge G x y <-> P y) ->
  neighbours_in G x r = filter P (range_list r).
Proof. intros Hiff. unfold neighbours_in. by apply list_filter_iff. Qed.

(** C4. FatTree with port_count = 4: 8 rack switches 1 .. 8, 8 aggregation
    switches 9 .. 16, 4 core switches 17 .. 20; two nodes are linked exactly
    when they are a rack switch and an aggregation switch of the same pod of
    2 + 2, or an aggregation switch and one of the 2 core switches of its
    core group; so a rack switch is linked to the 2 aggregation switches of
    its pod, and an aggregation switch to the 2 rack switches of its pod and
    to exactly 2 core switches. *)
Theorem FatTree_4_scenario :
  forall V (cap : option (callable V)), valid_cap cap ->
  exists t G, FatTree.init 4 cap = Ok t /\ FatTree.gen_graph t = Ok G /\
    FatTree.tor_switches t = 8 /\ FatTree.aggregation_switches t = 8 /\
    FatTree.core_switches t = 4 /\
    range_list (FatTree.tor_idx_range t) = [1; 2; 3; 4; 5; 6; 7; 8] /\
    range_list (FatTree.aggregation_idx_range t) = [9; 10; 11; 12; 13; 14; 15; 16] /\
    range_list (FatTree.core_idx_range t) = [17; 18; 19; 20] /\
    nodes_are G 20 /\
    (forall u v, has_edge G u v <-> FatTree4_wired u v \/ FatTree4_wired v u) /\
    (forall u, in_range (FatTree.tor_idx_range t) u ->
       neighbours_in G u (FatTree.aggregation_idx_range t)
       = [9 + 2 * ((u - 1) / 2); 10 + 2 * ((u - 1) / 2)]) /\
    (forall a, in_range (FatTree.aggregation_idx_range t) a ->
       neighbours_in G a (FatTree.tor_idx_range t)
       = [1 + 2 * ((a - 9) / 2); 2 + 2 * ((a - 9) / 2)] /\
       neighbours_in G a (FatTree.core_idx_range t)
       = [17 + 2 * ((a - 9) mod 2); 18 + 2 * ((a - 9) mod 2)]).
Proof.
  intros V cap Hcap.
  assert (Hv : FatTree_valid 4) by (split; [reflexivity | lia]).
  eexists _, _.
  split; [by apply FatTree_init_ok|]. split; [by apply FatTree_gen_graph_ok|].
  assert (Hedge : forall u v,
    has_edge (generated (FatTree_links 4) [4 * (4 / 2); 4 * (4 / 2); 4 / 2 * (4 / 2)]
                (FatTree.base (FatTree_instance 4 cap))) u v
    <-> FatTree4_wired u v \/ FatTree4_wired v u).
  { intros u v. rewrite has_edge_generated. by rewrite !FatTree_links_4. }
  unfold in_range. cbn [FatTree.tor_idx_range FatTree.aggregation_idx_range
    FatTree.core_idx_range FatTree_instance start stop].
  split_and!; try reflexivity.
  - apply (FatTree_layered 4 cap Hv).
  - done.
  - intros u Hu. rewrite (neighbours_in_iff _ _ _ _ (Hedge u)).
    assert (u = 1 \/ u = 2 \/ u = 3 \/ u = 4 \/ u = 5 \/ u = 6 \/ u = 7 \/ u = 8)
      as Hc by (change (4 / 2) with 2 in Hu; lia).
    clear Hedge Hu. destruct_or!; subst u; vm_compute; reflexivity.
  - intros a Ha. rewrite !(neighbours_in_iff _ _ _ _ (Hedge a)).
    assert (a = 9 \/ a = 10 \/ a = 11 \/ a = 12 \/ a = 13 \/ a = 14 \/ a = 15
            \/ a = 16) as Hc by (change (4 / 2) with 2 in Ha; lia).
    clear Hedge Ha. destruct_or!; subst a; split; vm_compute; reflexivity.
Qed.

Lemma FatTree_4_scenario_witness :
  exists t G, FatTree.init (V:=Z) 4 None = Ok t /\ FatTree.gen_graph t = Ok G /\
    FatTree.tor_switches t = 8 /\ FatTree.aggregation_switches t = 8 /\
    FatTree.core_switches t = 4 /\
    range_list (FatTree.tor_idx_range t) = [1; 2; 3; 4; 5; 6; 7; 8] /\
    range_list (FatTree.aggregation_idx_range t) = [9; 10; 11; 12; 13; 14; 15; 16] /\
    range_list (FatTree.core_idx_range t) = [17; 18; 19; 20] /\
    nodes_are G 20 /\
    (forall u v, has_edge G u v <-> FatTree4_wired u v \/ FatTree4_wired v u) /\
    (forall u, in_range (FatTree.tor_idx_range t) u ->
       neighbours_in G u (FatTree.aggregation_idx_range t)
       = [9 + 2 * ((u - 1) / 2); 10 + 2 * ((u - 1) / 2)]) /\
    (forall a, in_range (FatTree.aggregation_idx_range t) a ->
       neighbours_in G a (FatTree.tor_idx_range t)
       = [1 + 2 * ((a - 9) / 2); 2 + 2 * ((a - 9) / 2)] /\
       neighbours_in G a (FatTree.core_idx_range t)
       = [17 + 2 * ((a - 9) mod 2); 18 + 2 * ((a - 9) mod 2)]).
Proof. apply (FatTree_4_scenario Z None). exact I. Defined.

(** ** The planes of Fabric *)

Section Planes.
Variables s e n pc : Z.
Hypothesis Hvalid : Fabric_valid s e n pc.

(** Between a fabric switch [f] and a spine switch [x] the only cable is
    the one laid from [x] down to [f], and it is there exactly when the two
    are in the same plane. *)
Lemma Fabric_links_fabric_spine f x :
  pc * s + 1 <= f < pc * s + n * s + 1 ->
  pc * s + n * s + 1 <= x < pc * s + n * s + n * s + 1 ->
  ((x, f) ∈ Fabric_links s e n pc
   <-> (f - (pc * s + 1)) mod n = (x - (pc * s + n * s + 1)) mod n)
  /\ (f, x) ∉ Fabric_links s e n pc.
Proof.
  destruct Hvalid as (Hs & He & Hn & Hpc). intros Hf Hx. split.
  - unfold Fabric_links. rewrite !elem_of_app.
    rewrite (Fabric_tor_links_spec s e n pc Hvalid),
      (Fabric_fabric_links_spec s e n pc Hvalid),
      (Fabric_edge_links_spec s e n pc Hvalid).
    split.
    + intros [(j & ? & _)|[(k & _ & Hk & ->)|(k & ? & _)]]; [lia| |lia].
      replace (pc * s + n * s + 1 + (f - (pc * s + 1)) mod n + k * n
               - (pc * s + n * s + 1))
        with ((f - (pc * s + 1)) mod n + k * n) by lia.
      by rewrite Z.mod_add, Z.mod_mod by lia.
    + intros Heq. right; left.
      exists ((x - (pc * s + n * s + 1)) / n).
      pose proof (div_range (x - (pc * s + n * s + 1)) n s ltac:(lia) ltac:(lia)).
      pose proof (Z.div_mod (x - (pc * s + n * s + 1)) n ltac:(lia)).
      split_and!; lia.
  - intros H%(Fabric_links_oriented s e n pc Hvalid). unfold Fabric_oriented in H.
    lia.
Qed.
End Planes.

(** C5. In the graph Fabric generates from valid parameters, for each plane
    the fabric switches and the spine switches of that plane are linked all
    to all, in both directions; and a fabric switch and a spine switch that
    are linked are in one and the same plane, so that the planes' edges are
    disjoint and leave no edge between the two layers out. *)
Theorem Fabric_planes :
  forall V (cap : option (callable V)) s e n pc,
    Fabric_valid s e n pc -> valid_cap cap ->
    exists t G, Fabric.init s e n pc cap = Ok t /\ Fabric.gen_graph t = Ok G /\
      Fabric.nr_of_planes t = n /\
      (forall p f x,
         0 <= p < n ->
         in_range (Fabric.fabric_idx_range t) f ->
         in_range (Fabric.spine_idx_range t) x ->
         plane_of (Fabric.fabric_idx_range t) n f = p ->
         plane_of (Fabric.spine_idx_range t) n x = p ->
         has_edge G f x /\ has_edge G x f)
      /\ (forall f x,
         in_range (Fabric.fabric_idx_range t) f ->
         in_range (Fabric.spine_idx_range t) x ->
         has_edge G f x \/ has_edge G x f ->
         plane_of (Fabric.fabric_idx_range t) n f
         = plane_of (Fabric.spine_idx_range t) n x
         /\ 0 <= plane_of (Fabric.fabric_idx_range t) n f < n).
Proof.
  intros V cap s e n pc Hv Hcap. eexists _, _.
  split; [by apply Fabric_init_ok|]. split; [by apply Fabric_gen_graph_ok|].
  split; [done|].
  unfold in_range, plane_of.
  cbn [Fabric.fabric_idx_range Fabric.spine_idx_range Fabric_instance start stop].
  split.
  - intros p f x Hp Hf Hx Hpf Hpx.
    destruct (Fabric_links_fabric_spine s e n pc Hv f x Hf Hx) as [Hin _].
    rewrite !has_edge_generated. split; [right|left]; apply Hin; congruence.
  - intros f x Hf Hx Hedge.
    destruct (Fabric_links_fabric_spine s e n pc Hv f x Hf Hx) as [Hin Hout].
    split; [|apply Z.mod_pos_bound; unfold Fabric_valid in Hv; lia].
    rewrite !has_edge_generated in Hedge. apply Hin. tauto.
Qed.

Lemma Fabric_planes_witness :
  exists t G, Fabric.init (V:=Z) 2 1 4 3 None = Ok t /\ Fabric.gen_graph t = Ok G /\
    Fabric.nr_of_planes t = 4 /\
    (forall p f x,
       0 <= p < 4 ->
       in_range (Fabric.fabric_idx_range t) f ->
       in_range (Fabric.spine_idx_range t) x ->
       plane_of (Fabric.fabric_idx_range t) 4 f = p ->
       plane_of (Fabric.spine_idx_range t) 4 x = p ->
       has_edge G f x /\ has_edge G x f)
    /\ (forall f x,
       in_range (Fabric.fabric_idx_range t) f ->
       in_range (Fabric.spine_idx_range t) x ->
       has_edge G f x \/ has_edge G x f ->
       plane_of (Fabric.fabric_idx_range t) 4 f
       = plane_of (Fabric.spine_idx_range t) 4 x
       /\ 0 <= plane_of (Fabric.fabric_idx_range t) 4 f < 4).
Proof.
  apply (Fabric_planes Z None 2 1 4 3); [unfold Fabric_valid; lia | exact I].
Defined.

(** ** Nested loops as one run *)

Lemma bind_ext_in {A B} (f g : A -> list B) (l : list A) :
  (forall x, x ∈ l -> f x = g x) -> l ≫= f = l ≫= g.
Proof.
  induction l as [|a l IH]; intros H; [done|].
  rewrite !bind_cons, IH, (H a); [done|by left|].
  intros x Hx. apply H. by right.
Qed.

(** [n] rounds of [m] steps are [n * m] steps. *)
Lemma bind_seqZ_flat {B} (f : Z -> list B) (n m : Z) :
  0 <= n -> 0 <= m ->
  (seqZ 0 n ≫= fun x => seqZ 0 m ≫= fun u => f (m * x + u)) = seqZ 0 (n * m) ≫= f.
Proof.
  intros Hn Hm. pattern n. apply natlike_ind; [done| |done].
  clear n Hn. intros n Hn IH.
  replace (Z.succ n) with (n + 1) by lia.
  rewrite (seqZ_app 0 n 1) by lia. rewrite bind_app, IH.
  replace ((n + 1) * m) with (n * m + m) by lia.
  rewrite (seqZ_app 0 (n * m) m) by nia. rewrite bind_app. f_equal.
  simpl. rewrite app_nil_r.
  replace (0 + n * m) with (n * m + 0) by lia.
  rewrite <- (fmap_add_seqZ (n * m) 0 m), list_fmap_bind.
  apply bind_ext_in. intros u _. simpl. f_equal. lia.
Qed.

Lemma lookup_bind_singleton_seqZ {B} (g : Z -> B) (K k : Z) :
  0 <= k < K -> (seqZ 0 K ≫= fun k => [g k]) !! Z.to_nat k = Some (g k).
Proof.
  intros Hk. rewrite bind_singleton, list_lookup_fmap, lookup_seqZ_lt by lia.
  simpl. by rewrite Z2Nat.id by lia.
Qed.

(** ** The spine cursor of Jupiter-Blocks *)

Section BlockCursor.
Variables S A : Z.
Hypothesis Hvalid : Jupiter_valid S A.
Hypothesis Hmany : 32 < S.

(** With more than 32 spine blocks the cables of all middle blocks to the
    spine, in the order they are laid, are one run of the cursor. *)
Lemma Jupiter_bl_agg_links_flat :
  Jupiter_bl_agg_links S A
  = seqZ 0 (256 * A) ≫= fun k =>
      [(A * 32 + 1 + k / 32, A * 32 + A * 8 + 1 + k mod S)].
Proof.
  destruct Hvalid as [HA HS]. unfold Jupiter_bl_agg_links.
  rewrite (bind_seqZ_flat (Jupiter_bl_uplinks_of S A) A 8) by lia.
  replace (256 * A) with (A * 8 * 32) by lia.
  rewrite <- (bind_seqZ_flat
    (fun k => [(A * 32 + 1 + k / 32, A * 32 + A * 8 + 1 + k mod S)]) (A * 8) 32)
    by lia.
  apply bind_ext_in. intros x Hx. unfold Jupiter_bl_uplinks_of.
  rewrite decide_False by lia.
  apply bind_ext_in. intros u Hu%elem_of_seqZ. do 3 f_equal.
  apply (Z.div_unique_pos _ _ _ u); lia.
Qed.
End BlockCursor.

(** C10. In Jupiter-Blocks with more than 32 spine blocks the aggregation
    phase lays 32 cables per middle block, 256 per aggregation block, in one
    run: the cursor starts at 0 before the first aggregation block, is reset
    nowhere but at the end of the spine range, and the [k]-th cable of the
    phase joins middle block [k / 32] to the spine node at position
    [k mod spine_block_count] of the spine range. *)
Theorem Jupiter_bl_cursor_is_global :
  forall V (cap : option (callable V)) S A,
    Jupiter_valid S A -> 32 < S -> valid_cap cap ->
    exists t G spines cables,
      Jupiter_bl.init S A cap = Ok t /\ Jupiter_bl.gen_graph t = Ok G /\
      Jupiter_bl.prestructure_spines t (start (Jupiter_bl.spine_idx_range t))
      = Ok (spines, stop (Jupiter_bl.spine_idx_range t)) /\
      (forall G0, Jupiter_bl.wire_aggregation t spines G0
                  = Ok (add_links cables G0, (8 * A, (256 * A) mod S))) /\
      length cables = Z.to_nat (256 * A) /\
      forall k, 0 <= k < 256 * A ->
        range_get (Jupiter_bl.aggregation_idx_range t) (k / 32)
        = Ok (start (Jupiter_bl.aggregation_idx_range t) + k / 32) /\
        range_get (Jupiter_bl.spine_idx_range t) (k mod S)
        = Ok (start (Jupiter_bl.spine_idx_range t) + k mod S) /\
        cables !! Z.to_nat k
        = Some (start (Jupiter_bl.aggregation_idx_range t) + k / 32,
                start (Jupiter_bl.spine_idx_range t) + k mod S) /\
        has_edge G (start (Jupiter_bl.aggregation_idx_range t) + k / 32)
                   (start (Jupiter_bl.spine_idx_range t) + k mod S).
Proof.
  intros V cap S A Hv HS Hcap. pose proof Hv as [HA HSA].
  exists (Jupiter_bl_instance S A cap), (generated (Jupiter_bl_links S A)
    (Jupiter_bl_counts S A) (Jupiter_bl.base (Jupiter_bl_instance S A cap))),
    (row (A * 32 + A * 8 + 1) S), (Jupiter_bl_agg_links S A).
  split; [by apply Jupiter_bl_init_ok|]. split; [by apply Jupiter_bl_gen_graph_ok|].
  cbn [Jupiter_bl.spine_idx_range Jupiter_bl.aggregation_idx_range
       Jupiter_bl_instance start stop].
  split.
  { rewrite Jupiter_bl_prestructure_spines by lia. congr_lia. }
  split.
  { intros G0. rewrite Jupiter_bl_wire_aggregation by done.
    rewrite decide_False by lia. congr_lia. }
  rewrite (Jupiter_bl_agg_links_flat S A Hv HS).
  split.
  { rewrite (length_bind_const _ _ 1%nat) by done. rewrite length_seqZ. lia. }
  intros k Hk.
  pose proof (div_range k 32 (8 * A) ltac:(lia) ltac:(lia)).
  pose proof (Z.mod_pos_bound k S ltac:(lia)).
  split_and!.
  - by rewrite range_get_nth by (simpl; lia).
  - by rewrite range_get_nth by (simpl; lia).
  - by rewrite (lookup_bind_singleton_seqZ
      (fun k => (A * 32 + 1 + k / 32, A * 32 + A * 8 + 1 + k mod S))).
  - apply has_edge_generated. left. unfold Jupiter_bl_links.
    apply elem_of_app. right. rewrite (Jupiter_bl_agg_links_flat S A Hv HS).
    apply list_elem_of_bind. exists k. split; [by left|]. apply elem_of_seqZ. lia.
Qed.

Lemma Jupiter_bl_cursor_is_global_witness :
  exists t G spines cables,
    Jupiter_bl.init (V:=Z) 64 64 None = Ok t /\ Jupiter_bl.gen_graph t = Ok G /\
    Jupiter_bl.prestructure_spines t (start (Jupiter_bl.spine_idx_range t))
    = Ok (spines, stop (Jupiter_bl.spine_idx_range t)) /\
    (forall G0, Jupiter_bl.wire_aggregation t spines G0
                = Ok (add_links cables G0, (8 * 64, (256 * 64) mod 64))) /\
    length cables = Z.to_nat (256 * 64) /\
    forall k, 0 <= k < 256 * 64 ->
      range_get (Jupiter_bl.aggregation_idx_range t) (k / 32)
      = Ok (start (Jupiter_bl.aggregation_idx_range t) + k / 32) /\
      range_get (Jupiter_bl.spine_idx_range t) (k mod 64)
      = Ok (start (Jupiter_bl.spine_idx_range t) + k mod 64) /\
      cables !! Z.to_nat k
      = Some (start (Jupiter_bl.aggregation_idx_range t) + k / 32,
              start (Jupiter_bl.spine_idx_range t) + k mod 64) /\
      has_edge G (start (Jupiter_bl.aggregation_idx_range t) + k / 32)
                 (start (Jupiter_bl.spine_idx_range t) + k mod 64).
Proof.
  apply (Jupiter_bl_cursor_is_global Z None 64 64);
    [unfold Jupiter_valid; lia | lia | exact I].
Defined.

(** ** Round robin *)

(** How many of the steps [0 .. K - 1] fall on residue [r] modulo [M]: every
    residue gets [K / M] of them and the first [K mod M] residues one more. *)
Lemma count_mod (K M r : Z) :
  0 <= K -> 0 < M -> 0 <= r < M ->
  length (filter (fun k => k mod M = r) (seqZ 0 K))
  = Z.to_nat (K / M + if decide (r < K mod M) then 1 else 0).
Proof.
  intros HK HM Hr. pattern K. apply natlike_ind; [| |done].
  - rewrite Z.div_0_l, Z.mod_0_l by lia. rewrite decide_False by lia. done.
  - clear K HK. intros K HK IH.
    replace (Z.succ K) with (K + 1) by lia.
    rewrite (seqZ_app 0 K 1) by lia. rewrite filter_app, length_app, IH.
    change (seqZ (0 + K) 1) with [0 + K]. rewrite Z.add_0_l.
    pose proof (Z.mod_pos_bound K M HM). pose proof (Z.div_pos K M HK HM).
    rewrite (div_succ K M), (mod_succ K M) by lia.
    destruct (decide (K mod M = r)) as [E|E].
    + rewrite filter_cons_True by done. simpl.
      repeat case_decide; lia.
    + rewrite filter_cons_False by done. simpl.
      repeat case_decide; lia.
Qed.

(** Round robin is even: two residues differ by at most one step. *)
Lemma count_mod_even (K M r r' : Z) :
  0 <= K -> 0 < M -> 0 <= r < M -> 0 <= r' < M ->
  (length (filter (fun k : Z => (k mod M)%Z = r) (seqZ 0 K))
   <= length (filter (fun k : Z => (k mod M)%Z = r') (seqZ 0 K)) + 1)%nat.
Proof.
  intros HK HM Hr Hr'. rewrite !count_mod by done.
  pose proof (Z.div_pos K M HK HM). repeat case_decide; lia.
Qed.

(** ** The uplinks of Jupiter *)

Lemma length_filter_fmap {A B} (f : A -> B) (P : B -> Prop)
    `{!forall y, Decision (P y)} (l : list A) :
  length (filter P (f <$> l)) = length (filter (fun x => P (f x)) l).
Proof.
  induction l as [|a l IH]; [done|]. rewrite fmap_cons.
  destruct (decide (P (f a))).
  - rewrite !filter_cons_True by done. simpl. by rewrite IH.
  - by rewrite !filter_cons_False by done.
Qed.

Section Uplinks.
Variables S A : Z.
Hypothesis Hvalid : Jupiter_valid S A.

(** All uplinks, in the order they are laid, are one run of the cursor. *)
Lemma Jupiter_uplinks_flat :
  Jupiter_uplinks S A
  = (fun k => (A * 32 + 1 + k / 8, Jupiter_target S A k)) <$> seqZ 0 (256 * A).
Proof.
  destruct Hvalid as [HA HS]. unfold Jupiter_uplinks.
  rewrite <- bind_singleton.
  replace (256 * A) with (32 * A * 8) by lia.
  rewrite <- (bind_seqZ_flat
    (fun k => [(A * 32 + 1 + k / 8, Jupiter_target S A k)]) (32 * A) 8) by lia.
  apply bind_ext_in. intros x Hx. unfold Jupiter_uplinks_of.
  apply bind_ext_in. intros u Hu%elem_of_seqZ. do 3 f_equal.
  apply (Z.div_unique_pos _ _ _ u); lia.
Qed.

(** The cursor as one counter: the [k]-th uplink ends at spine switch
    [6 * b + q] exactly when [k] is [q * S + b] modulo [6 * S]. *)
Lemma Jupiter_target_iff k b q :
  0 <= b < S -> 0 <= q < 6 ->
  Jupiter_target S A k = A * 32 + A * 8 * 4 + 1 + 6 * b + q
  <-> k mod (S * 6) = q * S + b.
Proof.
  destruct Hvalid as [HA HS]. intros Hb Hq. unfold Jupiter_target.
  rewrite Z.rem_mul_r by lia.
  pose proof (Z.mod_pos_bound k S ltac:(lia)).
  pose proof (Z.mod_pos_bound (k / S) 6 ltac:(lia)).
  split; intros Heq.
  - assert (k mod S = b) by lia. assert ((k / S) mod 6 = q) by lia. nia.
  - assert ((k / S) mod 6 = q) by nia. assert (k mod S = b) by nia. lia.
Qed.

Lemma Jupiter_target_block k b :
  0 <= b < S ->
  (A * 32 + A * 8 * 4 + 1 + 6 * b <= Jupiter_target S A k
   < A * 32 + A * 8 * 4 + 1 + 6 * b + 6)
  <-> k mod S = b.
Proof.
  destruct Hvalid as [HA HS]. intros Hb. unfold Jupiter_target.
  pose proof (Z.mod_pos_bound k S ltac:(lia)).
  pose proof (Z.mod_pos_bound (k / S) 6 ltac:(lia)). lia.
Qed.

Lemma Jupiter_load y :
  A * 32 + A * 8 * 4 < y <= A * 32 + A * 8 * 4 + S * 6 ->
  exists r, 0 <= r < S * 6 /\
    load (Jupiter_uplinks S A) y
    = length (filter (fun k => k mod (S * 6) = r) (seqZ 0 (256 * A))).
Proof.
  destruct Hvalid as [HA HS]. intros Hy.
  set (p := y - (A * 32 + A * 8 * 4 + 1)).
  pose proof (div_range p 6 S ltac:(lia) ltac:(unfold p; lia)) as Hb.
  pose proof (Z.mod_pos_bound p 6 ltac:(lia)) as Hq.
  pose proof (Z.div_mod p 6 ltac:(lia)) as Hp.
  exists (p mod 6 * S + p / 6). split; [nia|].
  unfold load. rewrite Jupiter_uplinks_flat, length_filter_fmap. f_equal.
  apply list_filter_iff. intros k. cbn [snd].
  rewrite <- (Jupiter_target_iff k (p / 6) (p mod 6)) by lia.
  unfold p in *. split; intros; lia.
Qed.

Lemma Jupiter_block_load b :
  0 <= b < S ->
  block_load (Jupiter_uplinks S A) (A * 32 + A * 8 * 4 + 1) b
  = length (filter (fun k => k mod S = b) (seqZ 0 (256 * A))).
Proof.
  intros Hb. unfold block_load. rewrite Jupiter_uplinks_flat, length_filter_fmap.
  f_equal. apply list_filter_iff. intros k. cbn [snd].
  by apply Jupiter_target_block.
Qed.

(** The spine switches an aggregation switch is linked to are the ends of
    its uplinks. *)
Lemma Jupiter_spine_neighbours x y :
  0 <= x < 32 * A ->
  A * 32 + A * 8 * 4 < y <= A * 32 + A * 8 * 4 + S * 6 ->
  (A * 32 + 1 + x, y) ∈ Jupiter_links S A \/ (y, A * 32 + 1 + x) ∈ Jupiter_links S A
  <-> exists i, 0 <= i < 8 /\ y = Jupiter_target S A (8 * x + i).
Proof.
  destruct Hvalid as [HA HS]. intros Hx Hy. split.
  - intros [Hin|Hin].
    + unfold Jupiter_links in Hin. rewrite !elem_of_app in Hin.
      rewrite Jupiter_spine_links_spec, Jupiter_agg_links_spec,
        Jupiter_tor_links_spec in Hin.
      destruct Hin as [(sb & sw & prev & ? & ? & ? & ? & ?)
                      |[(ab & mb & sw & ? & ? & ? & [Hm|Hu])
                       |(ab & tor & out & ? & ? & ? & ? & _)]]; [lia| | |lia].
      * apply Jupiter_mesh_of_spec in Hm as (prev & ? & ? & ?). lia.
      * apply Jupiter_uplinks_of_spec in Hu as (i & ? & ? & ->).
        exists i. split; [done|]. f_equal. lia.
    + apply (Jupiter_links_oriented S A Hvalid) in Hin.
      unfold Jupiter_oriented in Hin. lia.
  - intros (i & Hi & ->). left. unfold Jupiter_links. rewrite !elem_of_app.
    right; left. apply Jupiter_agg_links_spec.
    pose proof (div_range x 32 A ltac:(lia) ltac:(lia)).
    pose proof (Z.div_mod x 32 ltac:(lia)). pose proof (Z.mod_pos_bound x 32 ltac:(lia)).
    pose proof (div_range (x mod 32) 4 8 ltac:(lia) ltac:(lia)).
    pose proof (Z.div_mod (x mod 32) 4 ltac:(lia)).
    pose proof (Z.mod_pos_bound (x mod 32) 4 ltac:(lia)).
    exists (x / 32), (x mod 32 / 4), (x mod 32 mod 4). split_and!; try lia.
    right. apply Jupiter_uplinks_of_spec. exists i. split; [done|].
    split; [lia|]. f_equal. lia.
Qed.

Lemma Jupiter_spine_degree {V} (b : Topology.t V) x :
  2 <= S -> 0 <= x < 32 * A ->
  length (neighbours_in (generated (Jupiter_links S A) (Jupiter_counts S A) b)
            (A * 32 + 1 + x)
            (Range (A * 32 + A * 8 * 4 + 1) (A * 32 + A * 8 * 4 + S * 6 + 1)))
  = 8%nat.
Proof.
  destruct Hvalid as [HA HS]. intros HS2 Hx.
  set (T := (fun i => Jupiter_target S A (8 * x + i)) <$> seqZ 0 8).
  assert (HT : length T = 8%nat) by (unfold T; by rewrite length_fmap, length_seqZ).
  rewrite <- HT. apply Permutation_length, NoDup_Permutation.
  - apply NoDup_filter, NoDup_seqZ.
  - unfold T. apply NoDup_fmap_2_strong; [|apply NoDup_seqZ].
    intros i i' Hi%elem_of_seqZ Hi'%elem_of_seqZ Heq.
    apply Jupiter_target_inj in Heq; lia.
  - intros y. unfold neighbours_in, range_list, range_len. cbn [start stop].
    rewrite list_elem_of_filter, elem_of_seqZ, has_edge_generated.
    unfold T. rewrite list_elem_of_fmap. setoid_rewrite elem_of_seqZ. split.
    + intros [He Hy]. apply Jupiter_spine_neighbours in He as (i & Hi & ->); [|lia..].
      exists i. split; [done|lia].
    + intros (i & -> & Hi).
      pose proof (Jupiter_target_bounds S A (8 * x + i) ltac:(lia)).
      split; [|lia]. apply Jupiter_spine_neighbours; [lia..|]. exists i. split; [lia|done].
Qed.
End Uplinks.

(** C6, the distinct targets taken from two spine blocks on. In
    switch-level Jupiter with valid parameters the aggregation phase lays,
    for each of the four switches of each middle block in turn, 8 uplinks;
    the [i]-th uplink of switch [x], the [k = 8 x + i]-th of the
    generation, ends at spine block [k mod S] and there at switch position
    [(k / S) mod 6], a position that moves on only when a pass over all [S]
    spine blocks is complete; the numbers of uplinks that end at two spine
    switches, or at two spine blocks, differ by at most one. With at least
    two spine blocks the 8 uplinks of a switch end at 8 different spine
    switches, its neighbours in the spine layer. *)
Theorem Jupiter_uplinks_round_robin :
  forall V (cap : option (callable V)) S A,
    Jupiter_valid S A -> valid_cap cap ->
    exists t G aggregation spines,
      Jupiter.init S A cap = Ok t /\ Jupiter.gen_graph t = Ok G /\
      Jupiter.prestructure_aggregation t (start (Jupiter.aggregation_idx_range t))
      = Ok (aggregation, stop (Jupiter.aggregation_idx_range t)) /\
      Jupiter.prestructure_spines t (start (Jupiter.spine_idx_range t))
      = Ok (spines, stop (Jupiter.spine_idx_range t)) /\
      (forall G0, Jupiter.wire_aggregation t aggregation spines G0
                  = Ok (add_links (Jupiter_agg_links S A) G0,
                        Jupiter.Cursor (32 * A) ((256 * A) mod S)
                          ((256 * A / S) mod 6))) /\
      (forall x, 0 <= x < 32 * A ->
         length (Jupiter_uplinks_of S A x) = 8%nat /\
         forall i, 0 <= i < 8 ->
           exists v1 row v2,
             range_get (Jupiter.aggregation_idx_range t) x = Ok v1 /\
             list_get spines ((8 * x + i) mod S) = Ok row /\
             list_get row (((8 * x + i) / S) mod 6) = Ok v2 /\
             Jupiter_uplinks_of S A x !! Z.to_nat i = Some (v1, v2)) /\
      (forall y y',
         in_range (Jupiter.spine_idx_range t) y ->
         in_range (Jupiter.spine_idx_range t) y' ->
         (load (Jupiter_uplinks S A) y <= load (Jupiter_uplinks S A) y' + 1)%nat) /\
      (forall b b', 0 <= b < S -> 0 <= b' < S ->
         (block_load (Jupiter_uplinks S A) (start (Jupiter.spine_idx_range t)) b
          <= block_load (Jupiter_uplinks S A) (start (Jupiter.spine_idx_range t)) b'
             + 1)%nat) /\
      (2 <= S ->
       forall x, in_range (Jupiter.aggregation_idx_range t) x ->
         length (neighbours_in G x (Jupiter.spine_idx_range t)) = 8%nat).
Proof.
  intros V cap S A Hv Hcap. pose proof Hv as [HA HS].
  exists (Jupiter_instance S A cap), (generated (Jupiter_links S A)
    (Jupiter_counts S A) (Jupiter.base (Jupiter_instance S A cap))),
    (table3 (A * 32 + 1) A), (table (A * 32 + A * 8 * 4 + 1) S 6).
  split; [by apply Jupiter_init_ok|]. split; [by apply Jupiter_gen_graph_ok|].
  unfold in_range.
  cbn [Jupiter.spine_idx_range Jupiter.aggregation_idx_range
       Jupiter_instance start stop].
  split; [rewrite Jupiter_prestructure_aggregation by lia; congr_lia|].
  split; [rewrite Jupiter_prestructure_spines by lia; congr_lia|].
  split.
  { intros G0. rewrite Jupiter_wire_aggregation by done. unfold Jupiter_cursor.
    by replace (8 * (32 * A)) with (256 * A) by lia. }
  split.
  { intros x Hx. split; [done|]. intros i Hi.
    pose proof (Z.mod_pos_bound (8 * x + i) S ltac:(lia)).
    pose proof (Z.mod_pos_bound ((8 * x + i) / S) 6 ltac:(lia)).
    eexists _, _, _.
    split; [by rewrite range_get_nth by (simpl; lia)|].
    split; [by rewrite list_get_table by lia|].
    split; [by rewrite list_get_row by lia|].
    unfold Jupiter_uplinks_of.
    rewrite (lookup_bind_singleton_seqZ
      (fun u => (A * 32 + 1 + x, Jupiter_target S A (8 * x + u)))) by lia.
    unfold Jupiter_target. cbn [start]. congr_lia. }
  split.
  { intros y y' Hy Hy'.
    destruct (Jupiter_load S A Hv y ltac:(lia)) as (r & Hr & ->).
    destruct (Jupiter_load S A Hv y' ltac:(lia)) as (r' & Hr' & ->).
    apply count_mod_even; lia. }
  split.
  { intros b b' Hb Hb'. rewrite !(Jupiter_block_load S A Hv) by done.
    apply count_mod_even; lia. }
  intros HS2 x Hx.
  replace x with (A * 32 + 1 + (x - (A * 32 + 1))) by lia.
  apply (Jupiter_spine_degree S A Hv); lia.
Qed.

Lemma Jupiter_uplinks_round_robin_witness :
  exists t G aggregation spines,
    Jupiter.init (V:=Z) 2 1 None = Ok t /\ Jupiter.gen_graph t = Ok G /\
    Jupiter.prestructure_aggregation t (start (Jupiter.aggregation_idx_range t))
    = Ok (aggregation, stop (Jupiter.aggregation_idx_range t)) /\
    Jupiter.prestructure_spines t (start (Jupiter.spine_idx_range t))
    = Ok (spines, stop (Jupiter.spine_idx_range t)) /\
    (forall G0, Jupiter.wire_aggregation t aggregation spines G0
                = Ok (add_links (Jupiter_agg_links 2 1) G0,
                      Jupiter.Cursor (32 * 1) ((256 * 1) mod 2)
                        ((256 * 1 / 2) mod 6))) /\
    (forall x, 0 <= x < 32 * 1 ->
       length (Jupiter_uplinks_of 2 1 x) = 8%nat /\
       forall i, 0 <= i < 8 ->
         exists v1 row v2,
           range_get (Jupiter.aggregation_idx_range t) x = Ok v1 /\
           list_get spines ((8 * x + i) mod 2) = Ok row /\
           list_get row (((8 * x + i) / 2) mod 6) = Ok v2 /\
           Jupiter_uplinks_of 2 1 x !! Z.to_nat i = Some (v1, v2)) /\
    (forall y y',
       in_range (Jupiter.spine_idx_range t) y ->
       in_range (Jupiter.spine_idx_range t) y' ->
       (load (Jupiter_uplinks 2 1) y <= load (Jupiter_uplinks 2 1) y' + 1)%nat) /\
    (forall b b', 0 <= b < 2 -> 0 <= b' < 2 ->
       (block_load (Jupiter_uplinks 2 1) (start (Jupiter.spine_idx_range t)) b
        <= block_load (Jupiter_uplinks 2 1) (start (Jupiter.spine_idx_range t)) b'
           + 1)%nat) /\
    (2 <= 2 ->
     forall x, in_range (Jupiter.aggregation_idx_range t) x ->
       length (neighbours_in G x (Jupiter.spine_idx_range t)) = 8%nat).
Proof.
  apply (Jupiter_uplinks_round_robin Z None 2 1);
    [unfold Jupiter_valid; lia | exact I].
Defined.

(** C6 at Jupiter(1, 1). Jupiter with one spine block and one
    aggregation block is valid; its first aggregation switch, 33, makes its
    eight uplinks to the six switches 65 .. 70 of the only spine block, the
    last two being the first two again: it has six uplinks, not eight. *)
Lemma Jupiter_1_1_switch_has_six_uplinks :
  exists t G, Jupiter.init (V:=unit) 1 1 None = Ok t /\ Jupiter.gen_graph t = Ok G /\
    in_range (Jupiter.aggregation_idx_range t) 33 /\
    Jupiter_uplinks_of 1 1 0
    = [(33, 65); (33, 66); (33, 67); (33, 68); (33, 69); (33, 70); (33, 65); (33, 66)] /\
    neighbours_in G 33 (Jupiter.spine_idx_range t) = [65; 66; 67; 68; 69; 70] /\
    length (neighbours_in G 33 (Jupiter.spine_idx_range t)) <> 8%nat.
Proof.
  assert (Hv : Jupiter_valid 1 1) by (unfold Jupiter_valid; lia).
  exists (Jupiter_instance 1 1 None),
    (generated (Jupiter_links 1 1) (Jupiter_counts 1 1)
       (Jupiter.base (Jupiter_instance 1 1 None))).
  split; [by apply Jupiter_init_ok|]. split; [by apply Jupiter_gen_graph_ok|].
  split; [unfold in_range; simpl; lia|]. split; [reflexivity|].
  assert (Hn : neighbours_in
            (generated (V:=unit) (Jupiter_links 1 1) (Jupiter_counts 1 1)
               (Jupiter.base (Jupiter_instance 1 1 None))) 33
            (Jupiter.spine_idx_range (Jupiter_instance (V:=unit) 1 1 None))
          = [65; 66; 67; 68; 69; 70])
    by (vm_compute; reflexivity).
  split; [done|]. rewrite Hn. simpl. lia.
Qed.

(** ** Neighbours read off a range *)

Lemma filter_all {A} (P : A -> Prop) `{!forall x, Decision (P x)} (l : list A) :
  Forall P l -> filter P l = l.
Proof.
  induction 1 as [|x l Hx _ IH]; [done|]. by rewrite filter_cons_True, IH.
Qed.

Lemma filter_none {A} (P : A -> Prop) `{!forall x, Decision (P x)} (l : list A) :
  Forall (fun x => ~ P x) l -> filter P l = [].
Proof.
  induction 1 as [|x l Hx _ IH]; [done|]. by rewrite filter_cons_False.
Qed.

(** The members of a run [lo .. lo + n - 1] of a range, picked out of it. *)
Lemma filter_seqZ_run (P : Z -> Prop) `{!forall x, Decision (P x)} (s m lo n : Z) :
  s <= lo -> 0 <= n -> lo + n <= s + m ->
  (forall y, s <= y < s + m -> (P y <-> lo <= y < lo + n)) ->
  filter P (seqZ s m) = seqZ lo n.
Proof.
  intros Hs Hn Hm HP.
  replace m with ((lo - s) + (n + (s + m - (lo + n)))) by lia.
  rewrite seqZ_app by lia. rewrite (seqZ_app (s + (lo - s))) by lia.
  rewrite !filter_app.
  rewrite (filter_none P (seqZ s (lo - s))).
  2: { apply Forall_forall. intros y Hy%elem_of_seqZ. rewrite HP by lia. lia. }
  rewrite (filter_none P (seqZ (s + (lo - s) + n) _)).
  2: { apply Forall_forall. intros y Hy%elem_of_seqZ. rewrite HP by lia. lia. }
  rewrite filter_all.
  2: { apply Forall_forall. intros y Hy%elem_of_seqZ. rewrite HP by lia. lia. }
  rewrite app_nil_r. simpl. f_equal. lia.
Qed.

Lemma neighbours_in_run {V} (G : DiGraph V) x r lo n :
  start r <= lo -> 0 <= n -> lo + n <= stop r ->
  (forall y, start r <= y < stop r -> (has_edge G x y <-> lo <= y < lo + n)) ->
  neighbours_in G x r = seqZ lo n.
Proof.
  intros Hs Hn Hm HP. unfold neighbours_in, range_list, range_len.
  apply filter_seqZ_run; [done..|lia|]. intros y Hy. apply HP. lia.
Qed.

Lemma neighbours_in_none {V} (G : DiGraph V) x r :
  (forall y, start r <= y < stop r -> ~ has_edge G x y) ->
  neighbours_in G x r = [].
Proof.
  intros HP. unfold neighbours_in, range_list, range_len. apply filter_none.
  apply Forall_forall. intros y Hy%elem_of_seqZ. apply HP. lia.
Qed.

Lemma elem_of_neighbours_in {V} (G : DiGraph V) x r y :
  y ∈ neighbours_in G x r <-> start r <= y < stop r /\ has_edge G x y.
Proof.
  unfold neighbours_in, range_list, range_len.
  rewrite list_elem_of_filter, elem_of_seqZ. intuition lia.
Qed.

Lemma NoDup_neighbours_in {V} (G : DiGraph V) x r : NoDup (neighbours_in G x r).
Proof. apply NoDup_filter, NoDup_seqZ. Qed.

(** ** The wiring of FatTree, switch by switch *)

Section FatTreeWiring.
Context {V : Type}.
Variable p : Z.
Hypothesis Hvalid : FatTree_valid p.
Variable b : Topology.t V.
Let h := p / 2.
Let G := generated (FatTree_links p) [p * (p / 2); p * (p / 2); p / 2 * (p / 2)] b.





End FatTreeWiring.

Lemma filter_bind {A B} (P : B -> Prop) `{!forall x, Decision (P x)}
    (f : A -> list B) (l : list A) :
  filter P (l ≫= f) = l ≫= fun x => filter P (f x).
Proof.
  induction l as [|a l IH]; [done|]. rewrite !bind_cons, filter_app. by f_equal.
Qed.

(** A range of [m] rounds of [n] values, round by round. *)
Lemma seqZ_rounds (s n m : Z) :
  0 <= n -> 0 <= m ->
  seqZ s (m * n) = seqZ 0 m ≫= fun k => seqZ (s + k * n) n.
Proof.
  intros Hn Hm. pattern m. apply natlike_ind; [done| |done].
  clear m Hm. intros m Hm IH.
  replace (Z.succ m * n) with (m * n + n) by lia.
  rewrite seqZ_app by nia. rewrite IH.
  replace (Z.succ m) with (m + 1) by lia. rewrite (seqZ_app 0 m 1) by lia.
  rewrite bind_app. f_equal. simpl. by rewrite app_nil_r.
Qed.

(** The members of a range whose place in it has residue [r]. *)
Lemma filter_seqZ_stride (P : Z -> Prop) `{!forall x, Decision (P x)} (s n m r : Z) :
  0 < n -> 0 <= m -> 0 <= r < n ->
  (forall y, s <= y < s + m * n -> (P y <-> (y - s) mod n = r)) ->
  filter P (seqZ s (m * n)) = (fun k => s + r + k * n) <$> seqZ 0 m.
Proof.
  intros Hn Hm Hr HP. rewrite seqZ_rounds by lia. rewrite filter_bind.
  rewrite <- bind_singleton. apply bind_ext_in. intros k Hk%elem_of_seqZ.
  change [s + r + k * n] with (seqZ (s + r + k * n) 1).
  apply filter_seqZ_run; [lia..|].
  intros y Hy. rewrite HP by nia.
  replace (y - s) with ((y - s - k * n) + k * n) by lia.
  rewrite Z.mod_add by lia. rewrite Z.mod_small by lia. lia.
Qed.

Lemma neighbours_in_stride {V} (G : DiGraph V) x rg n m r :
  0 < n -> 0 <= m -> 0 <= r < n -> stop rg = start rg + m * n ->
  (forall y, start rg <= y < stop rg -> (has_edge G x y <-> (y - start rg) mod n = r)) ->
  neighbours_in G x rg = (fun k => start rg + r + k * n) <$> seqZ 0 m.
Proof.
  intros Hn Hm Hr Hstop HP. unfold neighbours_in, range_list, range_len.
  replace (Z.max 0 (stop rg - start rg)) with (m * n) by nia.
  apply filter_seqZ_stride; [done..|]. intros y Hy. apply HP. lia.
Qed.

(** ** The wiring of Fabric, switch by switch *)

Section FabricWiring.
Context {V : Type}.
Variables s e n pc : Z.
Hypothesis Hvalid : Fabric_valid s e n pc.
Variable b : Topology.t V.
Let G := generated (Fabric_links s e n pc) (Fabric_counts s e n pc) b.
Let T := pc * s.
Let F := pc * s + n * s.
Let P := pc * s + n * s + n * s.
Let E := pc * s + n * s + n * s + e * n.

Lemma Fabric_has_edge u v :
  has_edge G u v <->
  (1 <= u <= T /\ T + n * ((u - 1) / pc) < v <= T + n * ((u - 1) / pc) + n)
  \/ (1 <= v <= T /\ T + n * ((v - 1) / pc) < u <= T + n * ((v - 1) / pc) + n)
  \/ (F < u <= P /\ T < v <= F /\ (u - F - 1) mod n = (v - T - 1) mod n)
  \/ (F < v <= P /\ T < u <= F /\ (v - F - 1) mod n = (u - T - 1) mod n)
  \/ (F < u <= P /\ P < v <= E /\ (u - F - 1) mod n = (v - P - 1) mod n)
  \/ (F < v <= P /\ P < u <= E /\ (v - F - 1) mod n = (u - P - 1) mod n).
Proof.
  destruct Hvalid as (Hs & He & Hn & Hpc).
  assert (Hup : forall x y base top, base < y <= top ->
    (exists k, 0 <= k < s /\ x = F + 1 + (y - (base + 1)) mod n + k * n)
    <-> F < x <= P /\ (x - F - 1) mod n = (y - base - 1) mod n).
  { intros x y base top Hy.
    pose proof (Z.mod_pos_bound (y - (base + 1)) n ltac:(lia)) as Hm.
    replace (y - base - 1) with (y - (base + 1)) by lia. split.
    - intros (k & Hk & ->). pose proof (grid_bound n k _ s Hk Hm). split; [unfold F, P; lia|].
      replace (F + 1 + (y - (base + 1)) mod n + k * n - F - 1)
        with ((y - (base + 1)) mod n + k * n) by lia.
      by rewrite Z.mod_add, Z.mod_mod by lia.
    - intros [Hx Heq]. exists ((x - F - 1) / n).
      pose proof (div_range (x - F - 1) n s ltac:(lia) ltac:(unfold F, P in *; lia)).
      pose proof (Z.div_mod (x - F - 1) n ltac:(lia)). split; lia. }
  unfold G. rewrite has_edge_generated. unfold Fabric_links. rewrite !elem_of_app.
  rewrite !(Fabric_tor_links_spec s e n pc Hvalid),
    !(Fabric_fabric_links_spec s e n pc Hvalid),
    !(Fabric_edge_links_spec s e n pc Hvalid).
  unfold T, F, P, E in *. split.
  - intros [[(j & ? & ? & ->)|[(k & ? & Hk)|(k & ? & Hk)]]
           |[(j & ? & ? & ->)|[(k & ? & Hk)|(k & ? & Hk)]]].
    + left. lia.
    + right; right; left.
      destruct (proj1 (Hup u v (pc * s) (pc * s + n * s) ltac:(lia)) (ex_intro _ k Hk)). lia.
    + do 4 right; left. 
      destruct (proj1 (Hup u v (pc * s + n * s + n * s) (pc * s + n * s + n * s + e * n) ltac:(lia)) (ex_intro _ k Hk)). lia.
    + right; left. lia.
    + do 3 right; left. destruct (proj1 (Hup v u (pc * s) (pc * s + n * s) ltac:(lia)) (ex_intro _ k Hk)). lia.
    + do 5 right. destruct (proj1 (Hup v u (pc * s + n * s + n * s) (pc * s + n * s + n * s + e * n) ltac:(lia)) (ex_intro _ k Hk)). lia.
  - intros [[? ?]|[[? ?]|[(?&?&?)|[(?&?&?)|[(?&?&?)|(?&?&?)]]]]].
    + left; left. exists (v - (pc * s + 1 + n * ((u - 1) / pc))). lia.
    + right; left. exists (u - (pc * s + 1 + n * ((v - 1) / pc))). lia.
    + left; right; left. destruct (proj2 (Hup u v (pc * s) (pc * s + n * s) ltac:(lia))) as (k & ?); [done|].
      exists k. lia.
    + right; right; left. destruct (proj2 (Hup v u (pc * s) (pc * s + n * s) ltac:(lia))) as (k & ?); [done|].
      exists k. lia.
    + left; right; right. destruct (proj2 (Hup u v (pc * s + n * s + n * s) (pc * s + n * s + n * s + e * n) ltac:(lia))) as (k & ?); [done|].
      exists k. lia.
    + right; right; right. destruct (proj2 (Hup v u (pc * s + n * s + n * s) (pc * s + n * s + n * s + e * n) ltac:(lia))) as (k & ?); [done|].
      exists k. lia.
Qed.

Lemma Fabric_rack_neighbours u :
  1 <= u <= T ->
  neighbours_in G u (Range 1 (T + 1)) = []
  /\ neighbours_in G u (Range (T + 1) (F + 1)) = seqZ (T + 1 + n * ((u - 1) / pc)) n
  /\ neighbours_in G u (Range (F + 1) (P + 1)) = []
  /\ neighbours_in G u (Range (P + 1) (E + 1)) = [].
Proof.
  destruct Hvalid as (Hs & He & Hn & Hpc). intros Hu.
  pose proof (div_range (u - 1) pc s ltac:(lia) ltac:(unfold T in *; lia)) as Hq.
  pose proof (grid_bound n _ 0 s Hq ltac:(lia)).
  split_and!.
  - apply neighbours_in_none. cbn [start stop]. intros y Hy. rewrite Fabric_has_edge.
    pose proof (div_range (y - 1) pc s ltac:(lia) ltac:(unfold T in *; lia)).
    unfold T, F, P, E in *. nia.
  - apply neighbours_in_run; cbn [start stop]; [unfold T, F in *; nia..|].
    intros y Hy. rewrite Fabric_has_edge. unfold T, F, P, E in *.
    split; [|intros; left; lia]. intros [?|[?|[?|[?|[?|?]]]]]; lia.
  - apply neighbours_in_none. cbn [start stop]. intros y Hy. rewrite Fabric_has_edge.
    unfold T, F, P, E in *. nia.
  - apply neighbours_in_none. cbn [start stop]. intros y Hy. rewrite Fabric_has_edge.
    unfold T, F, P, E in *. nia.
Qed.

Lemma Fabric_fabric_neighbours f :
  T < f <= F ->
  neighbours_in G f (Range 1 (T + 1)) = seqZ (1 + pc * ((f - T - 1) / n)) pc
  /\ neighbours_in G f (Range (T + 1) (F + 1)) = []
  /\ neighbours_in G f (Range (F + 1) (P + 1))
     = (fun k => F + 1 + (f - T - 1) mod n + k * n) <$> seqZ 0 s
  /\ neighbours_in G f (Range (P + 1) (E + 1)) = [].
Proof.
  destruct Hvalid as (Hs & He & Hn & Hpc). intros Hf.
  pose proof (div_range (f - T - 1) n s ltac:(lia) ltac:(unfold T, F in *; lia)) as Hq.
  pose proof (Z.div_mod (f - T - 1) n ltac:(lia)) as Hdm.
  pose proof (Z.mod_pos_bound (f - T - 1) n ltac:(lia)) as Hmb.
  split_and!.
  - apply neighbours_in_run; cbn [start stop]; [unfold T, F in *; nia..|].
    intros y Hy. rewrite Fabric_has_edge.
    pose proof (div_range (y - 1) pc s ltac:(lia) ltac:(unfold T in *; lia)).
    pose proof (Z.div_mod (y - 1) pc ltac:(lia)).
    pose proof (Z.mod_pos_bound (y - 1) pc ltac:(lia)).
    unfold T, F, P, E in *. split.
    + intros [?|[[_ ?]|[?|[?|[?|?]]]]]; [lia| |lia..].
      assert ((y - 1) / pc = (f - pc * s - 1) / n) by nia. nia.
    + intros Hrun. right; left. split; [lia|].
      assert ((y - 1) / pc = (f - pc * s - 1) / n) by nia. nia.
  - apply neighbours_in_none. cbn [start stop]. intros y Hy. rewrite Fabric_has_edge.
    pose proof (div_range (y - 1) pc s ltac:(lia)).
    pose proof (div_range (f - 1) pc s ltac:(lia)).
    unfold T, F, P, E in *. intros [?|[?|[?|[?|[?|?]]]]]; lia.
  - apply (neighbours_in_stride G f (Range (F + 1) (P + 1)) n s);
      cbn [start stop]; [lia|lia|lia|unfold F, P; lia|].
    intros y Hy. rewrite Fabric_has_edge. unfold T, F, P, E in *.
    replace (y - (pc * s + n * s + 1)) with (y - (pc * s + n * s) - 1) by lia.
    split; [|intros; do 3 right; left; lia].
    intros [?|[?|[?|[?|[?|?]]]]]; lia.
  - apply neighbours_in_none. cbn [start stop]. intros y Hy. rewrite Fabric_has_edge.
    unfold T, F, P, E in *. intros [?|[?|[?|[?|[?|?]]]]]; lia.
Qed.

Lemma Fabric_spine_neighbours x :
  F < x <= P ->
  neighbours_in G x (Range 1 (T + 1)) = []
  /\ neighbours_in G x (Range (T + 1) (F + 1))
     = (fun k => T + 1 + (x - F - 1) mod n + k * n) <$> seqZ 0 s
  /\ neighbours_in G x (Range (F + 1) (P + 1)) = []
  /\ neighbours_in G x (Range (P + 1) (E + 1))
     = (fun k => P + 1 + (x - F - 1) mod n + k * n) <$> seqZ 0 e.
Proof.
  destruct Hvalid as (Hs & He & Hn & Hpc). intros Hx.
  pose proof (Z.mod_pos_bound (x - F - 1) n ltac:(lia)) as Hmb.
  split_and!.
  - apply neighbours_in_none. cbn [start stop]. intros y Hy. rewrite Fabric_has_edge.
    pose proof (div_range (y - 1) pc s ltac:(lia) ltac:(unfold T in *; lia)).
    unfold T, F, P, E in *. intros [?|[?|[?|[?|[?|?]]]]]; nia.
  - apply (neighbours_in_stride G x (Range (T + 1) (F + 1)) n s);
      cbn [start stop]; [lia|lia|lia|unfold T, F; lia|].
    intros y Hy. rewrite Fabric_has_edge. unfold T, F, P, E in *.
    replace (y - (pc * s + 1)) with (y - pc * s - 1) by lia.
    split; [|intros; do 2 right; left; lia].
    intros [?|[?|[?|[?|[?|?]]]]]; lia.
  - apply neighbours_in_none. cbn [start stop]. intros y Hy. rewrite Fabric_has_edge.
    unfold T, F, P, E in *. intros [?|[?|[?|[?|[?|?]]]]]; lia.
  - apply (neighbours_in_stride G x (Range (P + 1) (E + 1)) n e);
      cbn [start stop]; [lia|lia|lia|unfold P, E; lia|].
    intros y Hy. rewrite Fabric_has_edge. unfold T, F, P, E in *.
    replace (y - (pc * s + n * s + n * s + 1)) with (y - (pc * s + n * s + n * s) - 1)
      by lia.
    split; [|intros; do 4 right; left; lia].
    intros [?|[?|[?|[?|[?|?]]]]]; lia.
Qed.

Lemma Fabric_edge_neighbours y :
  P < y <= E ->
  neighbours_in G y (Range 1 (T + 1)) = []
  /\ neighbours_in G y (Range (T + 1) (F + 1)) = []
  /\ neighbours_in G y (Range (F + 1) (P + 1))
     = (fun k => F + 1 + (y - P - 1) mod n + k * n) <$> seqZ 0 s
  /\ neighbours_in G y (Range (P + 1) (E + 1)) = [].
Proof.
  destruct Hvalid as (Hs & He & Hn & Hpc). intros Hy.
  pose proof (Z.mod_pos_bound (y - P - 1) n ltac:(lia)) as Hmb.
  split_and!.
  - apply neighbours_in_none. cbn [start stop]. intros z Hz. rewrite Fabric_has_edge.
    pose proof (div_range (z - 1) pc s ltac:(lia) ltac:(unfold T in *; lia)).
    unfold T, F, P, E in *. intros [?|[?|[?|[?|[?|?]]]]]; nia.
  - apply neighbours_in_none. cbn [start stop]. intros z Hz. rewrite Fabric_has_edge.
    unfold T, F, P, E in *. intros [?|[?|[?|[?|[?|?]]]]]; lia.
  - apply (neighbours_in_stride G y (Range (F + 1) (P + 1)) n s);
      cbn [start stop]; [lia|lia|lia|unfold F, P; lia|].
    intros z Hz. rewrite Fabric_has_edge. unfold T, F, P, E in *.
    replace (z - (pc * s + n * s + 1)) with (z - (pc * s + n * s) - 1) by lia.
    split; [|intros; do 5 right; lia].
    intros [?|[?|[?|[?|[?|?]]]]]; lia.
  - apply neighbours_in_none. cbn [start stop]. intros z Hz. rewrite Fabric_has_edge.
    unfold T, F, P, E in *. intros [?|[?|[?|[?|[?|?]]]]]; lia.
Qed.
End FabricWiring.

(** ** The wiring of Jupiter, switch by switch *)

Section JupiterWiring.
Context {V : Type}.
Variables S A : Z.
Hypothesis Hvalid : Jupiter_valid S A.
Variable b : Topology.t V.
Let G := generated (Jupiter_links S A) (Jupiter_counts S A) b.

(** Which cables there are between two switches, by the layers of the
    two. *)
Lemma Jupiter_links_by_layer u v :
  (u, v) ∈ Jupiter_links S A <->
  (A * 32 + A * 8 * 4 < v < u /\ u <= A * 32 + A * 8 * 4 + S * 6
   /\ (u - (A * 32 + A * 8 * 4 + 1)) / 6 = (v - (A * 32 + A * 8 * 4 + 1)) / 6)
  \/ (A * 32 < v < u /\ u <= A * 32 + A * 8 * 4
      /\ (u - (A * 32 + 1)) / 4 = (v - (A * 32 + 1)) / 4)
  \/ (A * 32 < u <= A * 32 + A * 8 * 4
      /\ exists i, 0 <= i < 8 /\ v = Jupiter_target S A (8 * (u - (A * 32 + 1)) + i))
  \/ (1 <= u <= A * 32 /\ A * 32 < v <= A * 32 + A * 8 * 4
      /\ (u - 1) / 32 = (v - (A * 32 + 1)) / 32
      /\ ((v - (A * 32 + 1)) mod 4 = (u - 1) mod 32 / 8
          \/ (v - (A * 32 + 1)) mod 4 = ((u - 1) mod 32 / 8 + 1) mod 4)).
Proof.
  destruct Hvalid as [HA HS]. unfold Jupiter_links. rewrite !elem_of_app.
  rewrite (Jupiter_spine_links_spec S A), (Jupiter_agg_links_spec S A),
    (Jupiter_tor_links_spec A).
  split.
  - intros [(sb & sw & prev & ? & ? & ? & -> & ->)
           |[(ab & mb & sw & ? & ? & ? & [H|H])
            |(ab & tor & out & ? & ? & ? & -> & Hv)]].
    + left. split; [lia|]. split; [lia|].
      replace (A * 32 + A * 8 * 4 + 1 + (6 * sb + sw) - (A * 32 + A * 8 * 4 + 1))
        with (sw + sb * 6) by lia.
      replace (A * 32 + A * 8 * 4 + 1 + 6 * sb + prev - (A * 32 + A * 8 * 4 + 1))
        with (prev + sb * 6) by lia.
      rewrite !Z.div_add by lia. rewrite !Z.div_small by lia. done.
    + apply Jupiter_mesh_of_spec in H as (prev & ? & -> & ->). right; left.
      split; [lia|]. split; [lia|].
      replace (A * 32 + 1 + (32 * ab + 4 * mb + sw) - (A * 32 + 1))
        with (sw + (8 * ab + mb) * 4) by lia.
      replace (A * 32 + 1 + 32 * ab + 4 * mb + prev - (A * 32 + 1))
        with (prev + (8 * ab + mb) * 4) by lia.
      rewrite !Z.div_add by lia. rewrite !Z.div_small by lia. done.
    + apply Jupiter_uplinks_of_spec in H as (i & ? & -> & ->). right; right; left.
      split; [lia|]. exists i. split; [done|]. f_equal. lia.
    + do 3 right.
      pose proof (div_range tor 8 4 ltac:(lia) ltac:(lia)).
      pose proof (Z.mod_pos_bound (tor / 8 + 1) 4 ltac:(lia)).
      replace (1 + (32 * ab + tor) - 1) with (tor + ab * 32) by lia.
      rewrite Z.div_add, Z.mod_add, (Z.div_small tor 32), (Z.mod_small tor 32) by lia.
      split; [lia|].
      destruct Hv as [-> | ->].
      * split; [lia|].
        replace (A * 32 + 1 + 32 * ab + 4 * out + tor / 8 - (A * 32 + 1))
          with (tor / 8 + 4 * out + ab * 32) by lia.
        rewrite Z.div_add by lia. rewrite (Z.div_small (_ + _) 32) by lia.
        split; [lia|]. left.
        replace (tor / 8 + 4 * out + ab * 32) with (tor / 8 + (out + 8 * ab) * 4) by lia.
        rewrite Z.mod_add by lia. by rewrite Z.mod_small by lia.
      * split; [lia|].
        replace (A * 32 + 1 + 32 * ab + 4 * out + (tor / 8 + 1) mod 4 - (A * 32 + 1))
          with ((tor / 8 + 1) mod 4 + 4 * out + ab * 32) by lia.
        rewrite Z.div_add by lia. rewrite (Z.div_small (_ + _) 32) by lia.
        split; [lia|]. right.
        replace ((tor / 8 + 1) mod 4 + 4 * out + ab * 32)
          with ((tor / 8 + 1) mod 4 + (out + 8 * ab) * 4) by lia.
        rewrite Z.mod_add by lia. by rewrite Z.mod_mod by lia.
  - intros [(Hv & Hu & Heq)|[(Hv & Hu & Heq)|[(Hu & i & Hi & ->)|(Hu & Hv & Hblk & Hpos)]]].
    + left.
      set (x := u - (A * 32 + A * 8 * 4 + 1)) in *.
      set (y := v - (A * 32 + A * 8 * 4 + 1)) in *.
      divmod x 6. divmod y 6.
      pose proof (div_range x 6 S ltac:(lia) ltac:(unfold x; lia)).
      exists (x / 6), (x mod 6), (y mod 6). unfold x, y in *. split_and!; lia.
    + right; left.
      set (x := u - (A * 32 + 1)) in *. set (y := v - (A * 32 + 1)) in *.
      divmod x 4. divmod y 4. divmod (x / 4) 8.
      pose proof (div_range x 4 (8 * A) ltac:(lia) ltac:(unfold x; lia)).
      pose proof (div_range (x / 4) 8 A ltac:(lia) ltac:(lia)).
      exists (x / 4 / 8), (x / 4 mod 8), (x mod 4). split_and!; try lia.
      left. apply Jupiter_mesh_of_spec. exists (y mod 4). unfold x, y in *. lia.
    + right; left.
      set (x := u - (A * 32 + 1)) in *.
      divmod x 4. divmod (x / 4) 8.
      pose proof (div_range x 4 (8 * A) ltac:(lia) ltac:(unfold x; lia)).
      pose proof (div_range (x / 4) 8 A ltac:(lia) ltac:(lia)).
      exists (x / 4 / 8), (x / 4 mod 8), (x mod 4). split_and!; try lia.
      right. apply Jupiter_uplinks_of_spec. exists i. split; [done|].
      unfold x in *. split; [lia|]. f_equal. lia.
    + right; right.
      set (x := u - 1) in *. set (y := v - (A * 32 + 1)) in *.
      divmod x 32. divmod y 32. divmod y 4. divmod (y mod 32) 4.
      pose proof (div_range x 32 A ltac:(lia) ltac:(unfold x; lia)).
      pose proof (div_range (y mod 32) 4 8 ltac:(lia) ltac:(lia)).
      assert (y mod 32 mod 4 = y mod 4) as Hmm.
      { replace y with (y mod 32 + y / 32 * 8 * 4) at 2 by lia.
        by rewrite Z.mod_add by lia. }
      exists (x / 32), (x mod 32), (y mod 32 / 4). split_and!; lia.
Qed.

Lemma Jupiter_spine_mesh x y :
  A * 32 + A * 8 * 4 < x <= A * 32 + A * 8 * 4 + S * 6 ->
  A * 32 + A * 8 * 4 < y <= A * 32 + A * 8 * 4 + S * 6 ->
  has_edge G x y <->
  x <> y /\ (x - (A * 32 + A * 8 * 4 + 1)) / 6 = (y - (A * 32 + A * 8 * 4 + 1)) / 6.
Proof.
  destruct Hvalid as [HA HS]. intros Hx Hy. unfold G.
  rewrite has_edge_generated, !Jupiter_links_by_layer. split.
  - intros [[?|[?|[[? _]|?]]]|[?|[?|[[? _]|?]]]]; lia.
  - intros [Hne Heq]. destruct (decide (y < x)); [left|right]; left; lia.
Qed.

Lemma Jupiter_middle_block_mesh x y :
  A * 32 < x <= A * 32 + A * 8 * 4 -> A * 32 < y <= A * 32 + A * 8 * 4 ->
  has_edge G x y <->
  x <> y /\ (x - (A * 32 + 1)) / 4 = (y - (A * 32 + 1)) / 4.
Proof.
  destruct Hvalid as [HA HS]. intros Hx Hy. unfold G.
  rewrite has_edge_generated, !Jupiter_links_by_layer. split.
  - intros [[?|[?|[[_ (i & ? & ->)]|?]]]|[?|[?|[[_ (i & ? & ->)]|?]]]]; try lia.
    + pose proof (Jupiter_target_bounds S A (8 * (x - (A * 32 + 1)) + i) ltac:(lia)). lia.
    + pose proof (Jupiter_target_bounds S A (8 * (y - (A * 32 + 1)) + i) ltac:(lia)). lia.
  - intros [Hne Heq]. destruct (decide (y < x)); [left|right]; right; left; lia.
Qed.

Lemma Jupiter_rack_links u a :
  1 <= u <= A * 32 -> A * 32 < a <= A * 32 + A * 8 * 4 ->
  (has_edge G u a <->
   (u - 1) / 32 = (a - (A * 32 + 1)) / 32
   /\ ((a - (A * 32 + 1)) mod 4 = (u - 1) mod 32 / 8
       \/ (a - (A * 32 + 1)) mod 4 = ((u - 1) mod 32 / 8 + 1) mod 4))
  /\ (has_edge G a u <-> has_edge G u a).
Proof.
  destruct Hvalid as [HA HS]. intros Hu Ha. split.
  - unfold G. rewrite has_edge_generated, !Jupiter_links_by_layer. split.
    + intros [[?|[?|[[? _]|?]]]|[?|[?|[[_ (i & ? & ->)]|?]]]]; try lia.
      pose proof (Jupiter_target_bounds S A (8 * (a - (A * 32 + 1)) + i) ltac:(lia)). lia.
    + intros ?. left. do 3 right. lia.
  - unfold G. rewrite !has_edge_generated. tauto.
Qed.

Lemma Jupiter_rack_neighbours u :
  1 <= u <= A * 32 ->
  neighbours_in G u (Range 1 (A * 32 + 1)) = []
  /\ neighbours_in G u
       (Range (A * 32 + A * 8 * 4 + 1) (A * 32 + A * 8 * 4 + S * 6 + 1)) = []
  /\ length (neighbours_in G u (Range (A * 32 + 1) (A * 32 + A * 8 * 4 + 1))) = 16%nat.
Proof.
  destruct Hvalid as [HA HS]. intros Hu. split_and!.
  - apply neighbours_in_none. cbn [start stop]. intros y Hy. unfold G.
    rewrite has_edge_generated, !Jupiter_links_by_layer.
    intros [[?|[?|[[? _]|?]]]|[?|[?|[[? _]|?]]]]; lia.
  - apply neighbours_in_none. cbn [start stop]. intros y Hy. unfold G.
    rewrite has_edge_generated, !Jupiter_links_by_layer.
    intros [[?|[?|[[? _]|?]]]|[?|[?|[[? _]|?]]]]; lia.
  - pose proof (Z.mod_pos_bound (u - 1) 32 ltac:(lia)).
    pose proof (div_range (u - 1) 32 A ltac:(lia) ltac:(lia)) as Hab.
    pose proof (div_range ((u - 1) mod 32) 8 4 ltac:(lia) ltac:(lia)) as Hq.
    assert (Hlinks := fun a Ha => proj1 (Jupiter_rack_links u a Hu Ha)).
    revert Hab Hq Hlinks.
    generalize ((u - 1) / 32) as ab. generalize ((u - 1) mod 32 / 8) as q.
    intros q ab Hab Hq Hlinks.
    set (T := seqZ 0 8 ≫= fun out =>
                [A * 32 + 1 + 32 * ab + 4 * out + q;
                 A * 32 + 1 + 32 * ab + 4 * out + (q + 1) mod 4]).
    pose proof (Z.mod_pos_bound (q + 1) 4 ltac:(lia)) as Hq1.
    assert (Hq2 : (q + 1) mod 4 <> q).
    { destruct (decide (q = 3)) as [->|]; [done|]. rewrite Z.mod_small; lia. }
    assert (HT : length T = 16%nat).
    { unfold T. by rewrite (length_bind_const _ _ 2%nat). }
    rewrite <- HT. apply Permutation_length, NoDup_Permutation.
    + apply NoDup_neighbours_in.
    + unfold T. apply NoDup_bind; [| |apply NoDup_seqZ].
      * same_round'.
      * intros out _. apply NoDup_cons. split; [|apply NoDup_singleton].
        rewrite list_elem_of_singleton. lia.
    + intros y. rewrite elem_of_neighbours_in. cbn [start stop]. unfold T.
      rewrite list_elem_of_bind. setoid_rewrite elem_of_seqZ.
      setoid_rewrite elem_of_cons. setoid_rewrite list_elem_of_singleton. split.
      * intros [Hy He]. apply Hlinks in He as [Hblk Hpos]; [|lia].
        set (z := y - (A * 32 + 1)) in *.
        divmod z 32. divmod z 4. divmod (z mod 32) 4.
        pose proof (div_range (z mod 32) 4 8 ltac:(lia) ltac:(lia)).
        assert (z mod 32 mod 4 = z mod 4) as Hmm.
        { replace z with (z mod 32 + z / 32 * 8 * 4) at 2 by lia.
          by rewrite Z.mod_add by lia. }
        exists (z mod 32 / 4). unfold z in *. split; [|lia]. lia.
      * intros (out & Hy & Hout).
        assert (Hy' : exists r, (r = q \/ r = (q + 1) mod 4)
                                /\ y = A * 32 + 1 + 32 * ab + 4 * out + r).
        { destruct Hy as [-> | ->]; [exists q | exists ((q + 1) mod 4)]; auto. }
        destruct Hy' as (r & Hr & ->). assert (0 <= r < 4) by lia.
        split; [lia|]. apply Hlinks; [lia|].
        replace (A * 32 + 1 + 32 * ab + 4 * out + r - (A * 32 + 1))
          with (r + 4 * out + ab * 32) by lia.
        rewrite Z.div_add by lia. rewrite (Z.div_small (_ + _) 32) by lia.
        split; [lia|].
        replace (r + 4 * out + ab * 32) with (r + (out + 8 * ab) * 4) by lia.
        rewrite Z.mod_add by lia. rewrite Z.mod_small by lia. lia.
Qed.
End JupiterWiring.

(** ** The wiring of Jupiter-Blocks, node by node *)

(** A loop that lays at most one value per round lays as many values as
    it has rounds that lay one. *)
Lemma length_bind_indicator {A B} (P : A -> Prop) `{!forall x, Decision (P x)}
    (f : A -> list B) (l : list A) :
  (forall x, x ∈ l -> length (f x) = if decide (P x) then 1%nat else 0%nat) ->
  length (l ≫= f) = length (filter P l).
Proof.
  induction l as [|a l IH]; intros Hf; [done|].
  rewrite bind_cons, length_app, IH, (Hf a) by (by left || (intros; apply Hf; by right)).
  destruct (decide (P a)).
  - by rewrite filter_cons_True.
  - by rewrite filter_cons_False.
Qed.

Section Jupiter_blWiring.
Context {V : Type}.
Variables S A : Z.
Hypothesis Hvalid : Jupiter_valid S A.
Variable b : Topology.t V.
Let G := generated (Jupiter_bl_links S A) (Jupiter_bl_counts S A) b.

Lemma Jupiter_bl_links_by_layer u v :
  (u, v) ∈ Jupiter_bl_links S A <->
  (1 <= u <= A * 32 /\ A * 32 < v <= A * 32 + A * 8
   /\ (u - 1) / 32 = (v - (A * 32 + 1)) / 8)
  \/ (A * 32 < u <= A * 32 + A * 8 /\ A * 32 + A * 8 < v <= A * 32 + A * 8 + S
      /\ (32 < S -> (v - (A * 32 + A * 8 + 1) - 32 * (u - (A * 32 + 1))) mod S < 32)).
Proof.
  destruct Hvalid as [HA HS]. unfold Jupiter_bl_links. rewrite elem_of_app.
  rewrite (Jupiter_bl_tor_links_spec A), (Jupiter_bl_agg_links_spec S A).
  setoid_rewrite (Jupiter_bl_uplinks_of_spec S A). split.
  - intros [(ab & tor & out & ? & ? & ? & -> & ->)|(x & Hx & -> & H)].
    + left. split; [lia|]. split; [lia|].
      replace (1 + (32 * ab + tor) - 1) with (tor + ab * 32) by lia.
      replace (A * 32 + 1 + 8 * ab + out - (A * 32 + 1)) with (out + ab * 8) by lia.
      rewrite !Z.div_add by lia. rewrite !Z.div_small by lia. done.
    + right. split; [lia|]. case_decide.
      * destruct H as (sp & ? & ->). split; [lia|]. lia.
      * destruct H as (k & ? & ->).
        pose proof (Z.mod_pos_bound (32 * x + k) S ltac:(lia)). split; [lia|].
        intros _.
        replace (A * 32 + A * 8 + 1 + (32 * x + k) mod S - (A * 32 + A * 8 + 1)
                 - 32 * (A * 32 + 1 + x - (A * 32 + 1)))
          with ((32 * x + k) mod S - 32 * x) by lia.
        rewrite Zminus_mod_idemp_l.
        replace (32 * x + k - 32 * x) with k by lia. rewrite Z.mod_small; lia.
  - intros [(Hu & Hv & Heq)|(Hu & Hv & Hk)].
    + left.
      set (x := u - 1) in *. set (y := v - (A * 32 + 1)) in *.
      divmod x 32. divmod y 8.
      pose proof (div_range x 32 A ltac:(lia) ltac:(unfold x; lia)).
      exists (x / 32), (x mod 32), (y mod 8). unfold x, y in *. split_and!; lia.
    + right. exists (u - (A * 32 + 1)). split; [lia|]. split; [lia|]. case_decide.
      * exists (v - (A * 32 + A * 8 + 1)). lia.
      * set (x := u - (A * 32 + 1)) in *. set (y := v - (A * 32 + A * 8 + 1)) in *.
        exists ((y - 32 * x) mod S).
        pose proof (Z.mod_pos_bound (y - 32 * x) S ltac:(lia)).
        split; [lia|]. rewrite Zplus_mod_idemp_r.
        replace (32 * x + (y - 32 * x)) with y by lia.
        rewrite Z.mod_small by (unfold y; lia). unfold y. lia.
Qed.

Lemma Jupiter_bl_rack_neighbours u :
  1 <= u <= A * 32 ->
  neighbours_in G u (Range 1 (A * 32 + 1)) = []
  /\ neighbours_in G u (Range (A * 32 + 1) (A * 32 + A * 8 + 1))
     = seqZ (A * 32 + 1 + 8 * ((u - 1) / 32)) 8
  /\ neighbours_in G u (Range (A * 32 + A * 8 + 1) (A * 32 + A * 8 + S + 1)) = [].
Proof.
  destruct Hvalid as [HA HS]. intros Hu.
  pose proof (div_range (u - 1) 32 A ltac:(lia) ltac:(lia)).
  split_and!.
  - apply neighbours_in_none. cbn [start stop]. intros y Hy. unfold G.
    rewrite has_edge_generated, !Jupiter_bl_links_by_layer. lia.
  - apply neighbours_in_run; cbn [start stop]; [lia..|]. intros y Hy. unfold G.
    rewrite has_edge_generated, !Jupiter_bl_links_by_layer.
    divmod (y - (A * 32 + 1)) 8. split.
    + intros [[?|?]|[?|?]]; lia.
    + intros ?. left; left. lia.
  - apply neighbours_in_none. cbn [start stop]. intros y Hy. unfold G.
    rewrite has_edge_generated, !Jupiter_bl_links_by_layer. lia.
Qed.

Lemma Jupiter_bl_middle_block_racks m :
  A * 32 < m <= A * 32 + A * 8 ->
  neighbours_in G m (Range 1 (A * 32 + 1)) = seqZ (1 + 32 * ((m - (A * 32 + 1)) / 8)) 32
  /\ neighbours_in G m (Range (A * 32 + 1) (A * 32 + A * 8 + 1)) = [].
Proof.
  destruct Hvalid as [HA HS]. intros Hm.
  pose proof (div_range (m - (A * 32 + 1)) 8 A ltac:(lia) ltac:(lia)).
  split.
  - apply neighbours_in_run; cbn [start stop]; [lia..|]. intros y Hy. unfold G.
    rewrite has_edge_generated, !Jupiter_bl_links_by_layer.
    divmod (y - 1) 32. split.
    + intros [[?|?]|[?|?]]; lia.
    + intros ?. right; left. lia.
  - apply neighbours_in_none. cbn [start stop]. intros y Hy. unfold G.
    rewrite has_edge_generated, !Jupiter_bl_links_by_layer. lia.
Qed.

Lemma Jupiter_bl_spine_links m y :
  A * 32 < m <= A * 32 + A * 8 -> A * 32 + A * 8 < y <= A * 32 + A * 8 + S ->
  has_edge G m y <->
  (32 < S -> (y - (A * 32 + A * 8 + 1) - 32 * (m - (A * 32 + 1))) mod S < 32).
Proof.
  destruct Hvalid as [HA HS]. intros Hm Hy. unfold G.
  rewrite has_edge_generated, !Jupiter_bl_links_by_layer. split.
  - intros [[?|?]|[?|?]]; [lia|tauto|lia|lia].
  - intros ?. left; right. lia.
Qed.

(** With at most 32 spine blocks a middle block is linked to all of them;
    with more, to the 32 that follow where the previous middle block
    stopped. *)
Lemma Jupiter_bl_middle_block_spines m :
  A * 32 < m <= A * 32 + A * 8 ->
  neighbours_in G m (Range (A * 32 + A * 8 + 1) (A * 32 + A * 8 + S + 1))
  ≡ₚ (fun k => A * 32 + A * 8 + 1 + (32 * (m - (A * 32 + 1)) + k) mod S)
     <$> seqZ 0 (Z.min 32 S).
Proof.
  destruct Hvalid as [HA HS]. intros Hm. set (x := m - (A * 32 + 1)).
  apply NoDup_Permutation.
  - apply NoDup_neighbours_in.
  - apply NoDup_fmap_2_strong; [|apply NoDup_seqZ].
    intros k k' Hk%elem_of_seqZ Hk'%elem_of_seqZ Heq.
    apply Z.add_reg_l, mod_inj_window in Heq; lia.
  - intros y. rewrite elem_of_neighbours_in. cbn [start stop].
    rewrite list_elem_of_fmap. setoid_rewrite elem_of_seqZ. split.
    + intros [Hy He'].
      pose proof (proj1 (Jupiter_bl_spine_links m y Hm ltac:(lia)) He') as He.
      fold x in He.
      set (z := y - (A * 32 + A * 8 + 1)) in *.
      exists ((z - 32 * x) mod S).
      pose proof (Z.mod_pos_bound (z - 32 * x) S ltac:(lia)).
      split.
      * rewrite Zplus_mod_idemp_r. replace (32 * x + (z - 32 * x)) with z by lia.
        rewrite Z.mod_small by (unfold z; lia). unfold z. lia.
      * destruct (decide (32 < S)); [specialize (He ltac:(done))|]; lia.
    + intros (k & -> & Hk).
      pose proof (Z.mod_pos_bound (32 * x + k) S ltac:(lia)). split; [lia|].
      apply Jupiter_bl_spine_links; [lia..|]. intros HS32. fold x.
      replace (A * 32 + A * 8 + 1 + (32 * x + k) mod S - (A * 32 + A * 8 + 1) - 32 * x)
        with ((32 * x + k) mod S - 32 * x) by lia.
      rewrite Zminus_mod_idemp_l.
      replace (32 * x + k - 32 * x) with k by lia. rewrite Z.mod_small; lia.
Qed.

(** The middle blocks a spine block is linked to are as many as the
    steps of the cursor that stopped on it. *)
Lemma Jupiter_bl_spine_degree y :
  A * 32 + A * 8 < y <= A * 32 + A * 8 + S ->
  length (neighbours_in G y (Range (A * 32 + 1) (A * 32 + A * 8 + 1)))
  = if decide (32 < S)
    then length (filter (fun k => k mod S = y - (A * 32 + A * 8 + 1)) (seqZ 0 (256 * A)))
    else Z.to_nat (8 * A).
Proof.
  destruct Hvalid as [HA HS]. intros Hy.
  assert (Hlink : forall x, 0 <= x < 8 * A ->
    (has_edge G y (A * 32 + 1 + x)
     <-> (32 < S -> (y - (A * 32 + A * 8 + 1) - 32 * x) mod S < 32))).
  { intros x Hx.
    pose proof (Jupiter_bl_spine_links (A * 32 + 1 + x) y ltac:(lia) ltac:(lia)) as H.
    replace (A * 32 + 1 + x - (A * 32 + 1)) with x in H by lia. rewrite <- H.
    unfold G. rewrite !has_edge_generated. tauto. }
  unfold neighbours_in, range_list, range_len. cbn [start stop].
  replace (Z.max 0 (A * 32 + A * 8 + 1 - (A * 32 + 1))) with (8 * A) by lia.
  case_decide as HS32.
  - replace (A * 32 + 1) with (A * 32 + 1 + 0) at 1 by lia.
    rewrite <- (fmap_add_seqZ (A * 32 + 1) 0), length_filter_fmap.
    replace (256 * A) with (8 * A * 32) by lia.
    rewrite (seqZ_rounds 0 32 (8 * A)), filter_bind by lia. symmetry.
    apply length_bind_indicator. intros x Hx%elem_of_seqZ. cbn beta.
    set (r := y - (A * 32 + A * 8 + 1)) in *.
    pose proof (Z.mod_pos_bound (r - 32 * x) S ltac:(lia)) as Hmb.
    case_decide as He.
    + apply (proj1 (Hlink x ltac:(lia))) in He; [|done].
      rewrite (filter_seqZ_run _ _ _ (32 * x + (r - 32 * x) mod S) 1); [done|lia..|].
      intros k Hk. split.
      * intros Hr.
        assert (k mod S = (32 * x + (r - 32 * x) mod S) mod S) as Heq.
        { rewrite Zplus_mod_idemp_r. replace (32 * x + (r - 32 * x)) with r by lia.
          rewrite Hr. rewrite Z.mod_small; unfold r; lia. }
        apply mod_inj_window in Heq; lia.
      * intros Hk'. assert (k = 32 * x + (r - 32 * x) mod S) as -> by lia.
        rewrite Zplus_mod_idemp_r. replace (32 * x + (r - 32 * x)) with r by lia.
        rewrite Z.mod_small; unfold r; lia.
    + rewrite filter_none; [done|]. apply Forall_forall. intros k Hk%elem_of_seqZ Hr.
      apply He, Hlink; [lia|]. intros _.
      replace (r - 32 * x) with (r - k + (k - 32 * x)) by lia.
      rewrite <- Hr at 1. rewrite <- Zplus_mod_idemp_l, Zminus_mod_idemp_l.
      replace (k - k) with 0 by lia. rewrite Z.mod_0_l, Z.add_0_l by lia.
      rewrite Z.mod_small; lia.
  - rewrite filter_all; [by rewrite length_seqZ|].
    apply Forall_forall. intros m Hm%elem_of_seqZ.
    replace m with (A * 32 + 1 + (m - (A * 32 + 1))) by lia.
    apply Hlink; lia.
Qed.

Lemma Jupiter_bl_spine_degree_even y y' :
  A * 32 + A * 8 < y <= A * 32 + A * 8 + S ->
  A * 32 + A * 8 < y' <= A * 32 + A * 8 + S ->
  (length (neighbours_in G y (Range (A * 32 + 1) (A * 32 + A * 8 + 1)))
   <= length (neighbours_in G y' (Range (A * 32 + 1) (A * 32 + A * 8 + 1))) + 1)%nat.
Proof.
  destruct Hvalid as [HA HS]. intros Hy Hy'.
  rewrite !Jupiter_bl_spine_degree by done. case_decide; [|lia].
  apply count_mod_even; lia.
Qed.
End Jupiter_blWiring.

(** ** Parameters the constructors do not check *)

(** A loop whose every round keeps an invariant returns, and keeps it. *)
Lemma for_each_invariant {St A} (I : St -> Prop) (l : list A)
    (body : A -> St -> result St) (s : St) :
  I s -> (forall x s, x ∈ l -> I s -> exists s', body x s = Ok s' /\ I s') ->
  exists s', for_each l body s = Ok s' /\ I s'.
Proof.
  revert s. induction l as [|a l IH]; intros s Hs Hbody; [by exists s|].
  destruct (Hbody a s ltac:(by left) Hs) as (s1 & E1 & Hs1).
  cbn [for_each]. rewrite E1. ok_step. apply IH; [done|].
  intros x s2 Hx. apply Hbody. by right.
Qed.

Lemma for_each_returns {St A} (I : St -> Prop) (l : list A)
    (body : A -> St -> result St) (s : St) :
  I s -> (forall x s, x ∈ l -> I s -> exists s', body x s = Ok s' /\ I s') ->
  exists s', for_each l body s = Ok s'.
Proof.
  intros Hs Hbody. destruct (for_each_invariant I l body s Hs Hbody) as (s' & ? & _).
  eauto.
Qed.

Lemma range_get_empty r i : stop r <= start r -> range_get r i = Raise IndexError.
Proof.
  intros H. unfold range_get, range_len. rewrite !decide_False by lia. done.
Qed.

Section Unchecked.
Context {V : Type}.
Implicit Types (cap : option (callable V)).




Lemma Jupiter_init_empty S A cap :
  A <= S -> A <= 0 ->
  Jupiter.init S A cap = Raise IndexError /\ Jupiter_bl.init S A cap = Raise IndexError.
Proof.
  intros HS HA. unfold Jupiter.init, Jupiter_bl.init. rewrite !decide_False by lia.
  cbv zeta. rewrite !(range_get_empty (Range 1 _)) by (simpl; lia). done.
Qed.

(** The [while] loop of [connect_to_plane_switches] exits when the step is
    positive. *)
Lemma plane_loop_returns (t : Fabric.t V) :
  1 <= Fabric.nr_of_planes t ->
  start (Fabric.spine_idx_range t) < stop (Fabric.spine_idx_range t) ->
  forall fuel switch_idx current G,
    stop (Fabric.spine_idx_range t) - current <= Z.of_nat fuel ->
    exists G', Fabric.plane_loop fuel t switch_idx current G = Ok G'.
Proof.
  intros Hn Hsp. induction fuel as [|fuel IH]; intros i c G Hfuel.
  - cbn [Fabric.plane_loop]. rewrite range_get_last by done. ok_step.
    rewrite decide_False by lia. eauto.
  - cbn [Fabric.plane_loop]. rewrite range_get_last by done. ok_step.
    case_decide; [|eauto]. apply IH. lia.
Qed.

Lemma connect_to_plane_switches_returns (t : Fabric.t V) G plane i :
  1 <= Fabric.nr_of_planes t ->
  start (Fabric.spine_idx_range t) < stop (Fabric.spine_idx_range t) ->
  0 <= plane <= Fabric.nr_of_planes t ->
  exists G', Fabric.connect_to_plane_switches G t plane i = Ok G'.
Proof.
  intros Hn Hsp Hp. unfold Fabric.connect_to_plane_switches.
  rewrite decide_False by lia. rewrite range_get_nth by lia. ok_step.
  apply plane_loop_returns; [done..|]. lia.
Qed.

Lemma Fabric_wire_returns s e n pc cap :
  1 <= s -> 1 <= n ->
  exists G, Fabric.wire (Fabric_instance s e n pc cap) = Ok G.
Proof.
  intros Hs Hn. unfold Fabric.wire.
  cbn [Fabric_instance Fabric.tor_idx_range Fabric.fabric_idx_range
       Fabric.spine_idx_range Fabric.edge_idx_range Fabric.nr_of_planes
       Fabric.port_count].
  cbv zeta. assert (0 < n * s) by nia.
  rewrite range_get_nth by (simpl; lia). ok_step.
  edestruct (for_each_invariant (fun _ : DiGraph V => True)
               (range_list (Range 1 (pc * s + 1)))) as (G1 & -> & _); [done| |].
  { intros i G Hi _. unfold range_list, range_len in Hi. cbn [start stop] in Hi.
    apply elem_of_seqZ in Hi.
    assert (0 < pc * s) by lia. assert (pc <> 0) by nia.
    unfold int_div. rewrite decide_False by done. ok_step.
    edestruct (for_each_invariant (fun _ : DiGraph V => True) (seqZ 0 n))
      as (G2 & -> & _); [done| |by eauto].
    intros j G' _ _. eauto. }
  ok_step.
  set (t := Fabric_instance s e n pc cap).
  assert (Hloop : forall l G, exists st,
    for_each l
      (fun (i : Z) '(G, plane) =>
         G ← Fabric.connect_to_plane_switches G t plane i;
         plane ← py_mod (plane + 1) n; Ok (G, plane)) (G, 0) = Ok st).
  { intros l G.
    apply (for_each_returns (fun st : DiGraph V * Z => 0 <= st.2 < n)); [simpl; lia|].
    intros i [G' plane] _ Hpl. simpl in Hpl.
    destruct (connect_to_plane_switches_returns t G' plane i) as [G'' ->];
      [simpl; lia..|].
    ok_step. rewrite py_mod_pos by lia. ok_step. eexists. split; [done|]. simpl.
    apply Z.mod_pos_bound. lia. }
  destruct (Hloop (range_list (Range (pc * s + 1) (pc * s + n * s + 1))) G1)
    as [[G2 p2] ->]. ok_step.
  destruct (Hloop (range_list (Range (pc * s + n * s + n * s + 1)
                                     (pc * s + n * s + n * s + e * n + 1))) G2)
    as [[G3 p3] ->]. ok_step. eauto.
Qed.

Lemma Fabric_wire_empty s e n pc cap :
  n * s <= 0 -> Fabric.wire (Fabric_instance s e n pc cap) = Raise IndexError.
Proof.
  intros H. unfold Fabric.wire.
  cbn [Fabric_instance Fabric.fabric_idx_range]. cbv zeta.
  rewrite range_get_empty by (simpl; lia). done.
Qed.

Lemma Fabric_wire_negative s e n pc cap :
  s < 0 -> n < 0 -> Fabric.wire (Fabric_instance s e n pc cap) = Raise ValueError.
Proof.
  intros Hs Hn. unfold Fabric.wire.
  cbn [Fabric_instance Fabric.tor_idx_range Fabric.fabric_idx_range
       Fabric.spine_idx_range Fabric.edge_idx_range Fabric.nr_of_planes
       Fabric.port_count].
  cbv zeta. assert (0 < n * s) by nia.
  rewrite range_get_nth by (simpl; lia). ok_step.
  edestruct (for_each_invariant (fun _ : DiGraph V => True)
               (range_list (Range 1 (pc * s + 1)))) as (G1 & -> & _); [done| |].
  { intros i G Hi _. unfold range_list, range_len in Hi. cbn [start stop] in Hi.
    apply elem_of_seqZ in Hi.
    assert (0 < pc * s) by lia. assert (pc <> 0) by nia.
    unfold int_div. rewrite decide_False by done. ok_step.
    rewrite seqZ_nil by lia. cbn [for_each]. eauto. }
  ok_step. unfold range_list, range_len. cbn [start stop].
  replace (Z.max 0 (pc * s + n * s + 1 - (pc * s + 1))) with (Z.succ (n * s - 1)) by lia.
  rewrite (seqZ_cons (pc * s + 1) (Z.succ (n * s - 1))) by lia. cbn [for_each].
  assert (E : Fabric.connect_to_plane_switches G1 (Fabric_instance s e n pc cap) 0
                (pc * s + 1) = Raise ValueError).
  { unfold Fabric.connect_to_plane_switches.
    cbn [Fabric_instance Fabric.nr_of_planes]. by rewrite decide_True by lia. }
  by rewrite E.
Qed.
End Unchecked.

(** * Further properties of the generators *)

(** ** The capacity pass on any graph *)

(** X1. On any graph, whatever attributes its edges carry, the capacity
    pass of a topology with a capacity function of 2 or 3 parameters keeps
    the nodes and the edges, sets the capacity of every edge to the
    function's value, leaves every other attribute alone, and changes
    nothing more when it is run again. *)
Theorem init_capacities_any_graph :
  forall V (f : callable V) ix d (G : DiGraph V),
    valid_cap (Some f) ->
    nodes (Topology.init_capacities (Topology.mk ix d (Some f)) G) = nodes G
    /\ (forall u v,
          has_edge (Topology.init_capacities (Topology.mk ix d (Some f)) G) u v
          <-> has_edge G u v)
    /\ (forall u v, has_edge G u v ->
          capacity (Topology.init_capacities (Topology.mk ix d (Some f)) G) u v
          = Some (expected_capacity f ix d u v))
    /\ (forall u v key, key <> "capacity" ->
          edge_attr (Topology.init_capacities (Topology.mk ix d (Some f)) G) u v key
          = edge_attr G u v key)
    /\ Topology.init_capacities (Topology.mk ix d (Some f))
         (Topology.init_capacities (Topology.mk ix d (Some f)) G)
       = Topology.init_capacities (Topology.mk ix d (Some f)) G.
Proof.
  intros V f ix d G Hf.
  assert (Hann : exists c : Z -> Z -> V,
    (forall G0, Topology.init_capacities (Topology.mk ix d (Some f)) G0
                = Topology.annotate c G0)
    /\ forall u v, c u v = expected_capacity f ix d u v).
  { unfold Topology.init_capacities, expected_capacity. simpl.
    destruct Hf as [-> | ->]; simpl; eexists; split; eauto. }
  destruct Hann as (c & Hinit & Hc). rewrite !Hinit.
  destruct (annotate_spec c G) as [Hn He].
  destruct (annotate_spec c (Topology.annotate c G)) as [Hn' He'].
  split_and!.
  - done.
  - intros u v. unfold has_edge. rewrite !elem_of_dom, He. apply fmap_is_Some.
  - intros u v [dd Hd]%elem_of_dom. unfold capacity. rewrite He, Hd. simpl.
    by rewrite lookup_insert_eq, Hc.
  - intros u v key Hkey. unfold edge_attr. rewrite He.
    destruct (edges G !! (u, v)) as [dd|]; simpl; [|done].
    by rewrite lookup_insert_ne.
  - destruct (Topology.annotate c (Topology.annotate c G)) as [n2 e2] eqn:E2.
    destruct (Topology.annotate c G) as [n1 e1] eqn:E1. simpl in *. f_equal; [done|].
    apply map_eq. intros e. rewrite He', He. destruct (edges G !! e); simpl; [|done].
    by rewrite insert_insert_eq.
Qed.

Lemma init_capacities_any_graph_witness :
  nodes (Topology.init_capacities (Topology.mk [] "x" (Some cap_of_two)) weighted_pair)
  = nodes weighted_pair
  /\ (forall u v,
        has_edge (Topology.init_capacities (Topology.mk [] "x" (Some cap_of_two))
                    weighted_pair) u v
        <-> has_edge weighted_pair u v)
  /\ (forall u v, has_edge weighted_pair u v ->
        capacity (Topology.init_capacities (Topology.mk [] "x" (Some cap_of_two))
                    weighted_pair) u v
        = Some (expected_capacity cap_of_two [] "x" u v))
  /\ (forall u v key, key <> "capacity" ->
        edge_attr (Topology.init_capacities (Topology.mk [] "x" (Some cap_of_two))
                     weighted_pair) u v key
        = edge_attr weighted_pair u v key)
  /\ Topology.init_capacities (Topology.mk [] "x" (Some cap_of_two))
       (Topology.init_capacities (Topology.mk [] "x" (Some cap_of_two)) weighted_pair)
     = Topology.init_capacities (Topology.mk [] "x" (Some cap_of_two)) weighted_pair.
Proof.
  apply (init_capacities_any_graph Z cap_of_two [] "x" weighted_pair). by left.
Defined.

(** ** The neighbours of every switch *)





(** X4. In a Fabric with valid parameters, every rack switch has as
    neighbours exactly the nr_of_planes fabric switches of its pod, and
    the rack neighbours of a fabric switch are the port_count rack
    switches of its pod; there are no links inside a layer. *)
Theorem Fabric_pods_are_wired :
  forall V (cap : option (callable V)) s e n pc,
    Fabric_valid s e n pc -> valid_cap cap ->
    exists t G, Fabric.init s e n pc cap = Ok t /\ Fabric.gen_graph t = Ok G /\
      Fabric_pods_wired t G.
Proof.
  intros V cap s e n pc Hv Hcap. eexists _, _.
  split; [by apply Fabric_init_ok|]. split; [by apply Fabric_gen_graph_ok|].
  unfold Fabric_pods_wired, in_range.
  cbn [Fabric.tor_idx_range Fabric.fabric_idx_range Fabric.spine_idx_range
       Fabric.edge_idx_range Fabric.nr_of_planes Fabric.port_count
       Fabric_instance start stop].
  split.
  - intros u Hu.
    destruct (Fabric_rack_neighbours s e n pc Hv (Fabric.base (Fabric_instance s e n pc cap))
                u ltac:(lia)) as (H1 & H2 & H3 & H4).
    by rewrite H1, H2, H3, H4.
  - intros f Hf.
    destruct (Fabric_fabric_neighbours s e n pc Hv
                (Fabric.base (Fabric_instance s e n pc cap)) f ltac:(lia))
      as (H1 & H2 & _ & H4).
    rewrite H1, H2, H4.
    by replace (f - (pc * s + 1)) with (f - pc * s - 1) by lia.
Qed.

Lemma Fabric_pods_are_wired_witness :
  exists t G, Fabric.init (V:=Z) 2 1 4 3 None = Ok t /\ Fabric.gen_graph t = Ok G /\
    Fabric_pods_wired t G.
Proof.
  apply (Fabric_pods_are_wired Z None 2 1 4 3); [unfold Fabric_valid; lia | exact I].
Defined.

(** X5. In a Fabric with valid parameters, a spine switch has as
    neighbours exactly the fabric switches of its plane, one per server
    pod, and the edge switches of its plane, one per edge pod; a fabric
    switch and an edge switch have as spine neighbours the server_pods
    spine switches of their plane. *)
Theorem Fabric_planes_are_wired :
  forall V (cap : option (callable V)) s e n pc,
    Fabric_valid s e n pc -> valid_cap cap ->
    exists t G, Fabric.init s e n pc cap = Ok t /\ Fabric.gen_graph t = Ok G /\
      Fabric_planes_wired t G.
Proof.
  intros V cap s e n pc Hv Hcap. eexists _, _.
  split; [by apply Fabric_init_ok|]. split; [by apply Fabric_gen_graph_ok|].
  unfold Fabric_planes_wired, in_range, plane_of.
  cbn [Fabric.tor_idx_range Fabric.fabric_idx_range Fabric.spine_idx_range
       Fabric.edge_idx_range Fabric.nr_of_planes Fabric.server_pods Fabric.edge_pods
       Fabric_instance start stop].
  split_and!.
  - intros f Hf.
    destruct (Fabric_fabric_neighbours s e n pc Hv
                (Fabric.base (Fabric_instance s e n pc cap)) f ltac:(lia))
      as (_ & _ & H3 & _).
    rewrite H3. by replace (f - (pc * s + 1)) with (f - pc * s - 1) by lia.
  - intros x Hx.
    destruct (Fabric_spine_neighbours s e n pc Hv
                (Fabric.base (Fabric_instance s e n pc cap)) x ltac:(lia))
      as (H1 & H2 & H3 & H4).
    rewrite H1, H2, H3, H4.
    by replace (x - (pc * s + n * s + 1)) with (x - (pc * s + n * s) - 1) by lia.
  - intros y Hy.
    destruct (Fabric_edge_neighbours s e n pc Hv
                (Fabric.base (Fabric_instance s e n pc cap)) y ltac:(lia))
      as (H1 & H2 & H3 & H4).
    rewrite H1, H2, H3, H4.
    by replace (y - (pc * s + n * s + n * s + 1))
      with (y - (pc * s + n * s + n * s) - 1) by lia.
Qed.

Lemma Fabric_planes_are_wired_witness :
  exists t G, Fabric.init (V:=Z) 2 1 4 3 None = Ok t /\ Fabric.gen_graph t = Ok G /\
    Fabric_planes_wired t G.
Proof.
  apply (Fabric_planes_are_wired Z None 2 1 4 3); [unfold Fabric_valid; lia | exact I].
Defined.

(** X6. In a switch-level Jupiter with valid parameters, two spine
    switches are linked exactly when they are different switches of one
    spine block, and two aggregation switches exactly when they are
    different switches of one middle block. *)
Theorem Jupiter_blocks_are_meshed :
  forall V (cap : option (callable V)) S A,
    Jupiter_valid S A -> valid_cap cap ->
    exists t G, Jupiter.init S A cap = Ok t /\ Jupiter.gen_graph t = Ok G /\
      Jupiter_blocks_meshed t G.
Proof.
  intros V cap S A Hv Hcap. eexists _, _.
  split; [by apply Jupiter_init_ok|]. split; [by apply Jupiter_gen_graph_ok|].
  unfold Jupiter_blocks_meshed, in_range.
  cbn [Jupiter.aggregation_idx_range Jupiter.spine_idx_range Jupiter_instance start stop].
  split.
  - intros x y Hx Hy. apply Jupiter_spine_mesh; [done|lia..].
  - intros x y Hx Hy. apply Jupiter_middle_block_mesh; [done|lia..].
Qed.

Lemma Jupiter_blocks_are_meshed_witness :
  exists t G, Jupiter.init (V:=Z) 2 1 None = Ok t /\ Jupiter.gen_graph t = Ok G /\
    Jupiter_blocks_meshed t G.
Proof.
  apply (Jupiter_blocks_are_meshed Z None 2 1); [unfold Jupiter_valid; lia | exact I].
Defined.

(** X7. In a switch-level Jupiter with valid parameters, every rack
    switch has exactly 16 neighbours, all of them aggregation switches of
    its own aggregation block: in each of the 8 middle blocks the two
    switches at the places [i / 8] and [(i / 8 + 1) mod 4], [i] the place
    of the rack switch in its block. *)
Theorem Jupiter_racks_are_wired :
  forall V (cap : option (callable V)) S A,
    Jupiter_valid S A -> valid_cap cap ->
    exists t G, Jupiter.init S A cap = Ok t /\ Jupiter.gen_graph t = Ok G /\
      Jupiter_racks_wired t G.
Proof.
  intros V cap S A Hv Hcap. eexists _, _.
  split; [by apply Jupiter_init_ok|]. split; [by apply Jupiter_gen_graph_ok|].
  unfold Jupiter_racks_wired, in_range.
  cbn [Jupiter.tor_idx_range Jupiter.aggregation_idx_range Jupiter.spine_idx_range
       Jupiter_instance start stop].
  intros u Hu.
  destruct (Jupiter_rack_neighbours S A Hv (Jupiter.base (Jupiter_instance S A cap)) u
              ltac:(lia)) as (H1 & H2 & H3).
  split_and!; [done..|]. intros a Ha.
  destruct (Jupiter_rack_links S A Hv (Jupiter.base (Jupiter_instance S A cap)) u a
              ltac:(lia) ltac:(lia)) as [H4 H5].
  split; done.
Qed.

Lemma Jupiter_racks_are_wired_witness :
  exists t G, Jupiter.init (V:=Z) 2 1 None = Ok t /\ Jupiter.gen_graph t = Ok G /\
    Jupiter_racks_wired t G.
Proof.
  apply (Jupiter_racks_are_wired Z None 2 1); [unfold Jupiter_valid; lia | exact I].
Defined.

(** X8. In a Jupiter-Blocks with valid parameters, every rack switch has
    as neighbours exactly the 8 middle blocks of its aggregation block,
    and the rack neighbours of a middle block are the 32 rack switches of
    its aggregation block. *)
Theorem Jupiter_bl_racks_are_wired :
  forall V (cap : option (callable V)) S A,
    Jupiter_valid S A -> valid_cap cap ->
    exists t G, Jupiter_bl.init S A cap = Ok t /\ Jupiter_bl.gen_graph t = Ok G /\
      Jupiter_bl_racks_wired t G.
Proof.
  intros V cap S A Hv Hcap. eexists _, _.
  split; [by apply Jupiter_bl_init_ok|]. split; [by apply Jupiter_bl_gen_graph_ok|].
  unfold Jupiter_bl_racks_wired, in_range.
  cbn [Jupiter_bl.tor_idx_range Jupiter_bl.aggregation_idx_range
       Jupiter_bl.spine_idx_range Jupiter_bl_instance start stop].
  split.
  - intros u Hu.
    destruct (Jupiter_bl_rack_neighbours S A Hv
                (Jupiter_bl.base (Jupiter_bl_instance S A cap)) u ltac:(lia))
      as (H1 & H2 & H3).
    by rewrite H1, H2, H3.
  - intros m Hm.
    destruct (Jupiter_bl_middle_block_racks S A Hv
                (Jupiter_bl.base (Jupiter_bl_instance S A cap)) m ltac:(lia))
      as (H1 & H2).
    by rewrite H1, H2.
Qed.

Lemma Jupiter_bl_racks_are_wired_witness :
  exists t G, Jupiter_bl.init (V:=Z) 2 1 None = Ok t /\ Jupiter_bl.gen_graph t = Ok G /\
    Jupiter_bl_racks_wired t G.
Proof.
  apply (Jupiter_bl_racks_are_wired Z None 2 1); [unfold Jupiter_valid; lia | exact I].
Defined.

(** X9. In a Jupiter-Blocks with valid parameters, a middle block is
    linked to min(32, spine_block_count) different spine blocks, those
    that follow, round the spine range, the ones of the middle block
    before it; and the numbers of middle blocks linked to any two spine
    blocks differ by at most one. *)
Theorem Jupiter_bl_spines_are_wired :
  forall V (cap : option (callable V)) S A,
    Jupiter_valid S A -> valid_cap cap ->
    exists t G, Jupiter_bl.init S A cap = Ok t /\ Jupiter_bl.gen_graph t = Ok G /\
      Jupiter_bl_spines_wired t G.
Proof.
  intros V cap S A Hv Hcap. eexists _, _.
  split; [by apply Jupiter_bl_init_ok|]. split; [by apply Jupiter_bl_gen_graph_ok|].
  unfold Jupiter_bl_spines_wired, in_range.
  cbn [Jupiter_bl.tor_idx_range Jupiter_bl.aggregation_idx_range
       Jupiter_bl.spine_idx_range Jupiter_bl.spine_block_count
       Jupiter_bl_instance start stop].
  split.
  - intros m Hm. apply Jupiter_bl_middle_block_spines; [done|lia].
  - intros y y' Hy Hy'. apply Jupiter_bl_spine_degree_even; [done|lia..].
Qed.

Lemma Jupiter_bl_spines_are_wired_witness :
  exists t G, Jupiter_bl.init (V:=Z) 64 64 None = Ok t /\ Jupiter_bl.gen_graph t = Ok G /\
    Jupiter_bl_spines_wired t G.
Proof.
  apply (Jupiter_bl_spines_are_wired Z None 64 64); [unfold Jupiter_valid; lia | exact I].
Defined.

(** ** Where the constructors and [gen_graph] return *)



(** X11. With a capacity function it accepts, the constructor of either
    Jupiter variant returns a topology exactly when
    1 <= aggregation_block_count <= spine_block_count; with
    aggregation_block_count <= 0 (and no more than spine_block_count) it
    raises IndexError, not ValueError. *)
Theorem Jupiter_init_domain :
  forall V (cap : option (callable V)) S A,
    valid_cap cap ->
    (A <= S -> A <= 0 ->
       Jupiter.init S A cap = Raise IndexError
       /\ Jupiter_bl.init S A cap = Raise IndexError)
    /\ ((exists t, Jupiter.init S A cap = Ok t) <-> Jupiter_valid S A)
    /\ ((exists t, Jupiter_bl.init S A cap = Ok t) <-> Jupiter_valid S A).
Proof.
  intros V cap S A Hcap.
  assert (Hlow : S < A -> Jupiter.init S A cap = Raise ValueError
                          /\ Jupiter_bl.init S A cap = Raise ValueError).
  { intros H. unfold Jupiter.init, Jupiter_bl.init. by rewrite !decide_True. }
  split; [apply Jupiter_init_empty|].
  split; (split; [|intros Hv; eexists;
                   by (apply Jupiter_init_ok || apply Jupiter_bl_init_ok)]).
  - intros [t Ht]. destruct (decide (S < A)) as [Hlt|Hge].
    { destruct (Hlow Hlt) as [E _]. congruence. }
    destruct (decide (A <= 0)) as [Hz|Hpos]; [|unfold Jupiter_valid; lia].
    destruct (Jupiter_init_empty S A cap ltac:(lia) Hz) as [E _]. congruence.
  - intros [t Ht]. destruct (decide (S < A)) as [Hlt|Hge].
    { destruct (Hlow Hlt) as [_ E]. congruence. }
    destruct (decide (A <= 0)) as [Hz|Hpos]; [|unfold Jupiter_valid; lia].
    destruct (Jupiter_init_empty S A cap ltac:(lia) Hz) as [_ E]. congruence.
Qed.

Lemma Jupiter_init_domain_witness :
  (0 <= 4 -> 0 <= 0 ->
     Jupiter.init (V:=Z) 4 0 None = Raise IndexError
     /\ Jupiter_bl.init (V:=Z) 4 0 None = Raise IndexError)
  /\ ((exists t, Jupiter.init (V:=Z) 4 0 None = Ok t) <-> Jupiter_valid 4 0)
  /\ ((exists t, Jupiter_bl.init (V:=Z) 4 0 None = Ok t) <-> Jupiter_valid 4 0).
Proof. apply (Jupiter_init_domain Z None 4 0). exact I. Defined.

(** X12. Fabric's constructor checks none of its four parameters.  The
    generation that follows returns a graph when server_pods and
    nr_of_planes are both positive, raises IndexError when their product
    is not, and ValueError when both are negative, whatever edge_pods and
    port_count are. *)
Theorem Fabric_gen_graph_domain :
  forall V (cap : option (callable V)) s e n pc,
    valid_cap cap ->
    exists t, Fabric.init s e n pc cap = Ok t
      /\ (n * s <= 0 -> Fabric.gen_graph t = Raise IndexError)
      /\ (s < 0 -> n < 0 -> Fabric.gen_graph t = Raise ValueError)
      /\ (1 <= s -> 1 <= n -> exists G, Fabric.gen_graph t = Ok G).
Proof.
  intros V cap s e n pc Hcap. eexists. split; [by apply Fabric_init_ok|].
  unfold Fabric.gen_graph. split_and!.
  - intros H. by rewrite Fabric_wire_empty.
  - intros Hs Hn. by rewrite Fabric_wire_negative.
  - intros Hs Hn. destruct (Fabric_wire_returns s e n pc cap Hs Hn) as [G ->].
    ok_step. eauto.
Qed.

Lemma Fabric_gen_graph_domain_witness :
  exists t, Fabric.init (V:=Z) 0 1 4 48 None = Ok t
    /\ (4 * 0 <= 0 -> Fabric.gen_graph t = Raise IndexError)
    /\ (0 < 0 -> 4 < 0 -> Fabric.gen_graph t = Raise ValueError)
    /\ (1 <= 0 -> 1 <= 4 -> exists G, Fabric.gen_graph t = Ok G).
Proof. apply (Fabric_gen_graph_domain Z None 0 1 4 48). exact I. Defined.

(** ** One call of [connect_to_plane_switches] *)

Section Connect.
Context {V : Type}.
Implicit Types (G : DiGraph V) (L : list (Z * Z)).

Lemma edges_add_edge_keeps u v G e d :
  edges G !! e = Some d -> edges (add_edge u v G) !! e = Some d.
Proof.
  intros He. unfold add_edge; simpl. destruct (edges G !! (u, v)) eqn:E; [done|].
  rewrite lookup_insert_ne; [done|]. congruence.
Qed.

Lemma edges_add_links_keeps L G e d :
  edges G !! e = Some d -> edges (add_links L G) !! e = Some d.
Proof.
  revert G. induction L as [|[a b] L IH]; intros G He; [done|].
  rewrite add_links_cons. apply IH. unfold add_link.
  by do 2 apply edges_add_edge_keeps.
Qed.

Lemma add_edge_absorbed u v G :
  has_edge G u v -> u ∈ nodes G -> v ∈ nodes G -> add_edge u v G = G.
Proof.
  intros [d Hd]%elem_of_dom Hu Hv. destruct G as [ns es]. unfold add_edge; simpl in *.
  rewrite Hd. f_equal. set_solver.
Qed.

(** Laying again cables that are there changes nothing. *)
Lemma add_links_absorbed L G :
  (forall a b, (a, b) ∈ L ->
     has_edge G a b /\ has_edge G b a /\ a ∈ nodes G /\ b ∈ nodes G) ->
  add_links L G = G.
Proof.
  induction L as [|[a b] L IH]; intros HL; [done|].
  destruct (HL a b ltac:(by left)) as (Hab & Hba & Ha & Hb).
  rewrite add_links_cons. cbn [fst snd]. unfold add_link.
  rewrite (add_edge_absorbed a b) by done. rewrite (add_edge_absorbed b a) by done.
  apply IH. intros x y Hxy. apply HL. by right.
Qed.

Lemma add_links_twice L G : add_links L (add_links L G) = add_links L G.
Proof.
  apply add_links_absorbed. intros a b Hab. unfold has_edge.
  rewrite dom_edges_add_links, nodes_add_links.
  rewrite !elem_of_union, !elem_of_list_to_set, !list_elem_of_fmap.
  split_and!.
  - by left; left.
  - left; right. by exists (a, b).
  - left; left. by exists (a, b).
  - left; right. by exists (a, b).
Qed.

Lemma plane_connected_ok s e n pc cap G plane i :
  Fabric_valid s e n pc -> 0 <= plane < n ->
  plane_connected (Fabric_instance s e n pc cap) plane i G
    (add_links (plane_cables n i (pc * s + n * s + 1 + plane) s) G).
Proof.
  intros Hv Hplane. pose proof Hv as (Hs & He & Hn & Hpc).
  unfold plane_connected, in_range, plane_of.
  cbn [Fabric.spine_idx_range Fabric.nr_of_planes Fabric_instance start stop].
  assert (Hin : forall u v,
    (u, v) ∈ plane_cables n i (pc * s + n * s + 1 + plane) s
    <-> v = i /\ (pc * s + n * s + 1 <= u < pc * s + n * s + n * s + 1)
        /\ (u - (pc * s + n * s + 1)) mod n = plane).
  { intros u v. rewrite (plane_cables_spec s e n pc Hv i). split.
    - intros (k & Hk & -> & ->). split; [done|].
      pose proof (grid_bound n k plane s Hk Hplane).
      split; [lia|].
      replace (pc * s + n * s + 1 + plane + k * n - (pc * s + n * s + 1))
        with (plane + k * n) by lia.
      rewrite Z.mod_add by lia. apply Z.mod_small. lia.
    - intros (-> & Hu & Hm). exists ((u - (pc * s + n * s + 1)) / n).
      pose proof (div_range (u - (pc * s + n * s + 1)) n s ltac:(lia) ltac:(lia)).
      pose proof (Z.div_mod (u - (pc * s + n * s + 1)) n ltac:(lia)).
      split; [lia|]. split; [lia|done]. }
  split_and!.
  - intros u v. unfold has_edge. rewrite dom_edges_add_links.
    rewrite !elem_of_union, !elem_of_list_to_set, list_elem_of_fmap.
    rewrite Hin. split.
    + intros [[H|([a b] & Heq & Hab)]|H]; [right; right; tauto| |by left].
      unfold swap in Heq; simpl in Heq. simplify_eq. apply Hin in Hab.
      right; left. tauto.
    + intros [H|[H|H]]; [by right| |left; left; tauto].
      left; right. exists (v, u). split; [done|]. apply Hin. tauto.
  - intros x. rewrite nodes_add_links.
    rewrite !elem_of_union, !elem_of_list_to_set, !list_elem_of_fmap. split.
    + intros [[([a b] & -> & Hab)|([a b] & -> & Hab)]|H]; [| |by left];
        apply Hin in Hab; simpl; tauto.
    + intros [H|[->|H]]; [by right| |].
      * left; right. exists (pc * s + n * s + 1 + plane, i). split; [done|].
        apply Hin. split; [done|]. split; [nia|].
        replace (pc * s + n * s + 1 + plane - (pc * s + n * s + 1)) with plane by lia.
        apply Z.mod_small. lia.
      * left; left. exists (x, i). split; [done|]. apply Hin. tauto.
  - intros u v key [d Hd]%elem_of_dom. unfold edge_attr.
    by rewrite (edges_add_links_keeps _ _ _ _ Hd), Hd.
Qed.
End Connect.

(** X13. In a Fabric with valid parameters, a call of
    connect_to_plane_switches for a plane in [0, nr_of_planes) returns the
    graph it is given with both edges between the switch and every spine
    switch of that plane added: the edges that were there keep their
    attributes, no other edge or node appears, and a second call with the
    same arguments changes nothing. *)
Theorem connect_to_plane_switches_links :
  forall V (cap : option (callable V)) s e n pc (G : DiGraph V) plane i,
    Fabric_valid s e n pc -> valid_cap cap -> 0 <= plane < n ->
    exists t G', Fabric.init s e n pc cap = Ok t
      /\ Fabric.connect_to_plane_switches G t plane i = Ok G'
      /\ plane_connected t plane i G G'
      /\ Fabric.connect_to_plane_switches G' t plane i = Ok G'.
Proof.
  intros V cap s e n pc G plane i Hv Hcap Hplane. eexists _, _.
  split; [by apply Fabric_init_ok|].
  split; [by apply connect_to_plane_switches_ok|].
  split; [by apply plane_connected_ok|].
  rewrite connect_to_plane_switches_ok by done. by rewrite add_links_twice.
Qed.

Lemma connect_to_plane_switches_links_witness :
  exists t G', Fabric.init (V:=Z) 2 1 4 3 None = Ok t
    /\ Fabric.connect_to_plane_switches weighted_pair t 3 7 = Ok G'
    /\ plane_connected t 3 7 weighted_pair G'
    /\ Fabric.connect_to_plane_switches G' t 3 7 = Ok G'.
Proof.
  apply (connect_to_plane_switches_links Z None 2 1 4 3 weighted_pair 3 7);
    [unfold Fabric_valid; lia | exact I | lia].
Defined.

(** * The layout code *)

(** ** Steps that return *)

Lemma bind_Ok {A B} (a : A) (k : A -> result B) : Ok a ≫= k = k a.
Proof. done. Qed.

Lemma and_then_Ok {A B} (a : A) (k : A -> outcome B) : and_then (Ok a) k = k a.
Proof. done. Qed.

(** ** Tactics for arrays and rationals *)

(** An equation between rationals in canonical form, as one between
    fractions, where [field] knows the numerals. *)
Ltac to_Q :=
  unfold float_of;
  repeat first [ rewrite Z2Qc_inj_add | rewrite Z2Qc_inj_sub
               | rewrite Z2Qc_inj_mul | rewrite Z2Qc_inj_opp ];
  apply Qc_is_canon;
  repeat (cbn [this Qcplus Qcmult Qcminus Qcopp Qcdiv Qcinv Q2Qc Qc_of_Z];
          rewrite ?Qred_correct);
  unfold inject_Z.

Ltac qc_field := to_Q; field.

(** A step that has returned, by rewriting: the steps to come are left as
    they are. *)
Ltac ok_then := rewrite ?bind_Ok, ?and_then_Ok; cbv beta iota.

(** A step of the layout code that returns an array of the same shape *)
Tactic Notation "shaped_step" constr(lem) "as" ident(a) ident(H) :=
  destruct lem as (a & -> & H);
    [try (simpl; first [done | lia | nia]) ..|];
  cbn [mbind result_bind].

(** The test [a > b] of a loop, both ways *)
Tactic Notation "case_gt" "as" ident(H) :=
  match goal with
  | |- context [decide (?a > ?b)] =>
      destruct (decide (a > b)) as [H|H]; cbn [mbind result_bind]
  end.

(** The state a loop over [seqZ a n] leaves, from the state [f k] it has
    when round [k] starts. *)
Tactic Notation "loop_with" constr(f) "from" constr(a) "for" constr(n) :=
  match goal with
  | |- context [for_each (seqZ a n) ?body ?init] =>
      let E := fresh "Eloop" in
      assert (E : for_each (seqZ a n) body init = Ok (f (a + n)));
      [ transitivity (for_each (seqZ a n) body (f a));
        [ apply (f_equal (for_each (seqZ a n) body))
        | apply (for_each_seqZ body f a n) ]
      | rewrite E; clear E ]
  end.

(** Two states are the same when the rows that have changed are. *)
Ltac same_rows :=
  repeat match goal with
         | |- ?x = ?x => reflexivity
         | |- Ok _ = Ok _ => f_equal
         | |- Completes _ = Completes _ => f_equal
         | |- (_, _) = (_, _) => f_equal
         | |- _ :: _ = _ :: _ => f_equal
         | |- context [decide (?k = 0)] =>
             first [ rewrite (decide_False (P := k = 0)) by lia
                   | rewrite (decide_True (P := k = 0)) by lia ]
         end.

(** ** Floats *)

Lemma Qceiling_unique (x : Qc) (n : Z) :
  (float_of (n - 1) < x)%Qc -> (x <= float_of n)%Qc -> Qceiling (this x) = n.
Proof.
  unfold Qclt, Qcle, float_of. cbn [this Qc_of_Z]. intros H1 H2.
  pose proof (Qle_ceiling (this x)) as H3.
  pose proof (Qceiling_lt (this x)) as H4.
  assert (n - 1 < Qceiling (this x)).
  { rewrite Zlt_Qlt. eapply Qlt_le_trans; eauto. }
  assert (Qceiling (this x) - 1 < n).
  { rewrite Zlt_Qlt. eapply Qlt_le_trans; eauto. }
  lia.
Qed.

Lemma float_of_lt (n m : Z) : n < m -> (float_of n < float_of m)%Qc.
Proof. apply Z2Qc_inj_lt. Qed.

Lemma float_of_le (n m : Z) : n <= m -> (float_of n <= float_of m)%Qc.
Proof. apply Z2Qc_inj_le. Qed.

Lemma int_of_float_of (n : Z) : int_of (float_of n) = n.
Proof. unfold int_of, float_of. cbn. apply Z.quot_1_r. Qed.

(** [int(n / 2)] *)
Lemma int_of_half (n : Z) : 0 <= n -> int_of (float_of n / 2) = n / 2.
Proof.
  intros Hn. unfold int_of.
  assert (Hq : (this (float_of n / 2)%Qc == inject_Z n / inject_Z 2)%Q).
  { unfold float_of.
    repeat (cbn [this Qcplus Qcmult Qcminus Qcopp Qcdiv Qcinv Q2Qc Qc_of_Z];
            rewrite ?Qred_correct).
    field. }
  assert (Hpos : 0 <= Qnum (this (float_of n / 2)%Qc)).
  { assert (H0 : (0 <= this (float_of n / 2)%Qc)%Q).
    { rewrite Hq. unfold Qle. simpl. rewrite !Z.mul_1_r. done. }
    unfold Qle in H0. cbn [Qnum Qden] in H0. lia. }
  rewrite Z.quot_div_nonneg by lia.
  replace (Qnum (this (float_of n / 2)%Qc) / Z.pos (Qden (this (float_of n / 2)%Qc)))
    with (Qfloor (this (float_of n / 2)%Qc)) by (by destruct (this _)).
  rewrite (Qfloor_comp _ _ Hq). symmetry. apply Zdiv_Qdiv.
Qed.

(** ** [np.arange] *)

(** As many values as steps fit. *)
Lemma arange_full (start : Qc) (n : Z) :
  arange start (start + float_of n * (1 + 1 / 2)) (1 + 1 / 2)
  = (fun i => (start + float_of i * (1 + 1 / 2))%Qc) <$> seqZ 0 n.
Proof.
  unfold arange. f_equal. f_equal.
  replace ((start + float_of n * (1 + 1 / 2) - start) / (1 + 1 / 2))%Qc
    with (float_of n) by (symmetry; qc_field).
  apply Qceiling_Z.
Qed.

(** A stop one tenth short of [n] steps gives [n] values. *)
Lemma arange_short (start : Qc) (n : Z) :
  arange start (start + float_of n * (1 + 1 / 2) - 1 / float_of 10) (1 + 1 / 2)
  = (fun i => (start + float_of i * (1 + 1 / 2))%Qc) <$> seqZ 0 n.
Proof.
  unfold arange. f_equal. f_equal.
  replace ((start + float_of n * (1 + 1 / 2) - 1 / float_of 10 - start)
           / (1 + 1 / 2))%Qc
    with (float_of n - 1 / float_of 15)%Qc by (symmetry; qc_field).
  apply Qceiling_unique.
  - replace (float_of (n - 1)) with (float_of n - 1 / float_of 15
                                     + - (float_of 14 / float_of 15))%Qc
      by qc_field.
    rewrite <- (Qcplus_0_r (float_of n - 1 / float_of 15)) at 2.
    apply Qcplus_lt_mono_l. done.
  - rewrite <- (Qcplus_0_r (float_of n)) at 2.
    apply Qcplus_le_mono_l. done.
Qed.

Lemma length_arange_short (start : Qc) (n : Z) :
  length (arange start (start + float_of n * (1 + 1 / 2) - 1 / float_of 10)
                 (1 + 1 / 2))
  = Z.to_nat n.
Proof. by rewrite arange_short, length_fmap, length_seqZ. Qed.

(** ** Rows *)

(** A row is written by its cells: [f <$> seqZ 0 y]. *)
Lemma cells_ext {A} (f g : Z -> A) (a n : Z) :
  (forall i, a <= i < a + n -> f i = g i) -> f <$> seqZ a n = g <$> seqZ a n.
Proof.
  intros H. apply list_fmap_ext. intros i x Hx. apply H.
  apply lookup_seqZ in Hx. lia.
Qed.

Lemma cells_shift {A} (f : Z -> A) (a n : Z) :
  f <$> seqZ a n = (fun i => f (a + i)) <$> seqZ 0 n.
Proof.
  replace a with (a + 0) at 1 by lia.
  by rewrite <- fmap_add_seqZ, <- list_fmap_compose.
Qed.

Lemma lookup_cells {A} (f : Z -> A) (y i : Z) :
  0 <= i < y -> (f <$> seqZ 0 y) !! Z.to_nat i = Some (f i).
Proof.
  intros H. rewrite list_lookup_fmap, lookup_seqZ_lt by lia. simpl.
  f_equal. f_equal. lia.
Qed.

Lemma take_cells {A} (f : Z -> A) (a y : Z) :
  0 <= a <= y -> take (Z.to_nat a) (f <$> seqZ 0 y) = f <$> seqZ 0 a.
Proof.
  intros H. replace y with (a + (y - a)) by lia.
  rewrite seqZ_app, fmap_app by lia.
  rewrite take_app_length'; [done|]. by rewrite length_fmap, length_seqZ.
Qed.

Lemma drop_cells {A} (f : Z -> A) (a y : Z) :
  0 <= a <= y -> drop (Z.to_nat a) (f <$> seqZ 0 y) = f <$> seqZ a (y - a).
Proof.
  intros H. replace y with (a + (y - a)) at 1 by lia.
  rewrite seqZ_app, fmap_app by lia.
  rewrite drop_app_length'; [done|]. by rewrite length_fmap, length_seqZ.
Qed.

Lemma slice_cells {A} (f : Z -> A) (a b y : Z) :
  0 <= a <= b -> b <= y ->
  take (Z.to_nat b - Z.to_nat a) (drop (Z.to_nat a) (f <$> seqZ 0 y))
  = f <$> seqZ a (b - a).
Proof.
  intros H1 H2. rewrite drop_cells by lia.
  replace (y - a) with ((b - a) + (y - b)) by lia.
  rewrite seqZ_app, fmap_app by lia.
  rewrite take_app_length'; [done|]. rewrite length_fmap, length_seqZ. lia.
Qed.

(** Writing [h] over the places [a..b) of a row *)
Lemma splice_cells {A} (f h : Z -> A) (a b y : Z) :
  0 <= a <= b -> b <= y ->
  take (Z.to_nat a) (f <$> seqZ 0 y) ++ (h <$> seqZ a (b - a))
    ++ drop (Z.to_nat b) (f <$> seqZ 0 y)
  = (fun i => if decide (a <= i < b) then h i else f i) <$> seqZ 0 y.
Proof.
  intros H1 H2. rewrite take_cells, drop_cells by lia.
  replace y with (a + ((b - a) + (y - b))) at 2 by lia.
  rewrite seqZ_app, fmap_app by lia. rewrite (seqZ_app _ (b - a)), fmap_app by lia.
  replace (0 + a) with a by lia. replace (a + (b - a)) with b by lia.
  f_equal; [|f_equal]; apply cells_ext; intros i Hi; case_decide; (done || lia).
Qed.

Lemma insert_cells {A} (f : Z -> A) (x : A) (i y : Z) :
  0 <= i < y ->
  <[Z.to_nat i := x]> (f <$> seqZ 0 y)
  = (fun j => if decide (j = i) then x else f j) <$> seqZ 0 y.
Proof.
  intros H. apply list_eq. intros k.
  destruct (decide (k = Z.to_nat i)) as [->|Hk].
  - rewrite list_lookup_insert_eq by (rewrite length_fmap, length_seqZ; lia).
    rewrite lookup_cells by lia. by rewrite decide_True.
  - rewrite list_lookup_insert_ne by done.
    rewrite !list_lookup_fmap.
    destruct (seqZ 0 y !! k) as [j|] eqn:E; [|done]. simpl.
    apply lookup_seqZ in E. rewrite decide_False by lia. done.
Qed.

Lemma slice_of_in {A} (row : list A) (y lo : Z) (hi : option Z) :
  length row = Z.to_nat y -> 0 <= lo <= default y hi -> default y hi <= y ->
  slice_of row lo hi = (Z.to_nat lo, Z.to_nat (default y hi)).
Proof.
  intros Hlen H1 H2. unfold slice_of, slice_bound.
  rewrite Hlen, Z2Nat.id by lia.
  rewrite !decide_False by lia. f_equal; f_equal; lia.
Qed.

(** ** Arrays, row by row *)

Section Rows.
Variables (a : list (list Qc)) (r y : Z) (f : Z -> Qc).
Hypothesis Hr : 0 <= r.
Hypothesis Hy : 0 <= y.
Hypothesis Hrow : a !! Z.to_nat r = Some (f <$> seqZ 0 y).

Lemma nd_axis_at : axis_index (Z.of_nat (length a)) r = Ok r.
Proof.
  apply lookup_lt_Some in Hrow. unfold axis_index. rewrite decide_True by lia.
  done.
Qed.

Lemma nd_list_get_at : list_get a r = Ok (f <$> seqZ 0 y).
Proof. unfold list_get. rewrite decide_True by lia. by rewrite Hrow. Qed.

Lemma length_cells : length (f <$> seqZ 0 y) = Z.to_nat y.
Proof. by rewrite length_fmap, length_seqZ. Qed.

Lemma nd_get_row (i : Z) : 0 <= i < y -> nd_get a r i = Ok (f i).
Proof.
  intros Hi. unfold nd_get. rewrite nd_axis_at. cbn. rewrite nd_list_get_at. cbn.
  rewrite length_cells, Z2Nat.id by lia. unfold axis_index.
  rewrite decide_True by lia. cbn. unfold list_get.
  rewrite decide_True by lia. by rewrite lookup_cells.
Qed.

Lemma nd_set_row (i : Z) (x : Qc) :
  0 <= i < y ->
  nd_set a r i x
  = Ok (<[Z.to_nat r := (fun j => if decide (j = i) then x else f j)
                          <$> seqZ 0 y]> a).
Proof.
  intros Hi. unfold nd_set. rewrite nd_axis_at. cbn. rewrite nd_list_get_at. cbn.
  rewrite length_cells, Z2Nat.id by lia. unfold axis_index.
  rewrite decide_True by lia. cbn. by rewrite insert_cells.
Qed.

Lemma nd_get_slice_row (lo : Z) (hi : option Z) :
  0 <= lo <= default y hi -> default y hi <= y ->
  nd_get_slice a r lo hi = Ok (f <$> seqZ lo (default y hi - lo)).
Proof.
  intros H1 H2. unfold nd_get_slice. rewrite nd_axis_at. cbn [mbind result_bind].
  rewrite nd_list_get_at. cbn [mbind result_bind].
  rewrite (slice_of_in _ y) by (done || apply length_cells).
  by rewrite slice_cells.
Qed.

Lemma nd_set_slice_row (lo : Z) (hi : option Z) (h : Z -> Qc) :
  0 <= lo <= default y hi -> default y hi <= y ->
  nd_set_slice a r lo hi (h <$> seqZ lo (default y hi - lo))
  = Ok (<[Z.to_nat r := (fun i => if decide (lo <= i < default y hi)
                                  then h i else f i) <$> seqZ 0 y]> a).
Proof.
  intros H1 H2. unfold nd_set_slice. rewrite nd_axis_at. cbn [mbind result_bind].
  rewrite nd_list_get_at. cbn [mbind result_bind].
  rewrite (slice_of_in _ y) by (done || apply length_cells).
  rewrite decide_True by (rewrite length_fmap, length_seqZ; lia). cbn.
  by rewrite splice_cells.
Qed.

Lemma nd_set_slice_values (lo n : Z) (hi : option Z) (h : Z -> Qc) :
  0 <= lo -> 0 <= n -> lo + n = default y hi -> default y hi <= y ->
  nd_set_slice a r lo hi (h <$> seqZ 0 n)
  = Ok (<[Z.to_nat r := (fun i => if decide (lo <= i < lo + n)
                                  then h (i - lo) else f i) <$> seqZ 0 y]> a).
Proof.
  intros H1 H2 H3 H4.
  replace (h <$> seqZ 0 n)
    with ((fun i => h (i - lo)) <$> seqZ lo (default y hi - lo)).
  - rewrite nd_set_slice_row by lia. by rewrite <- H3.
  - rewrite cells_shift. replace (default y hi - lo) with n by lia.
    apply cells_ext. intros i Hi. f_equal. lia.
Qed.

Lemma nd_add_from_row (lo : Z) (x : Qc) :
  0 <= lo <= y ->
  nd_add_from a r lo x
  = Ok (<[Z.to_nat r := (fun i => if decide (lo <= i) then (f i + x)%Qc
                                  else f i) <$> seqZ 0 y]> a).
Proof.
  intros H. unfold nd_add_from. rewrite nd_get_slice_row by (simpl; lia).
  cbn [mbind result_bind]. unfold nd_add. rewrite <- list_fmap_compose.
  etrans;
    [exact (nd_set_slice_row lo None (fun i => (f i + x)%Qc)
              ltac:(simpl; lia) ltac:(simpl; lia))|].
  simpl. f_equal. f_equal. apply cells_ext. intros i Hi.
  repeat case_decide; (done || lia).
Qed.
End Rows.

(** ** Shapes *)

Lemma cells_of_list (row : list Qc) (y : Z) :
  length row = Z.to_nat y ->
  row = (fun i => default 0%Qc (row !! Z.to_nat i)) <$> seqZ 0 y.
Proof.
  intros Hlen. apply list_eq. intros k. rewrite list_lookup_fmap.
  destruct (decide (k < length row)%nat) as [Hk|Hk].
  - rewrite lookup_seqZ_lt by lia. cbn [fmap option_fmap option_map].
    rewrite Z.add_0_l, Nat2Z.id.
    destruct (lookup_lt_is_Some_2 row k Hk) as [x ->]. done.
  - rewrite lookup_seqZ_ge by lia. simpl. apply lookup_ge_None. lia.
Qed.

Lemma replicate_cells {A} (x : A) (y : Z) :
  replicate (Z.to_nat y) x = (fun _ => x) <$> seqZ 0 y.
Proof.
  apply list_eq. intros k. rewrite list_lookup_fmap.
  destruct (decide (k < Z.to_nat y)%nat) as [Hk|Hk].
  - rewrite lookup_replicate_2 by done. by rewrite lookup_seqZ_lt by lia.
  - rewrite lookup_seqZ_ge by lia. simpl. apply lookup_replicate_None. lia.
Qed.

Lemma shaped_row (x y : Z) (a : ndarray) (r : Z) :
  shaped x y a -> 0 <= r < x ->
  exists f, a !! Z.to_nat r = Some (f <$> seqZ 0 y).
Proof.
  intros [Hlen Hrows] Hr.
  destruct (lookup_lt_is_Some_2 a (Z.to_nat r) ltac:(lia)) as [row Hrow].
  exists (fun i => default 0%Qc (row !! Z.to_nat i)).
  rewrite Hrow. f_equal. apply cells_of_list.
  by apply (Forall_lookup_1 _ _ _ _ Hrows Hrow).
Qed.

Lemma shaped_insert (x y : Z) (a : ndarray) (k : nat) (g : Z -> Qc) :
  shaped x y a -> shaped x y (<[k := g <$> seqZ 0 y]> a).
Proof.
  intros [Hlen Hrows]. split; [by rewrite length_insert|].
  apply Forall_insert; [done|]. by rewrite length_fmap, length_seqZ.
Qed.

Lemma shaped_zeros (x y : Z) : shaped x y (zeros x y).
Proof.
  unfold zeros. split; [by rewrite length_replicate|].
  apply Forall_replicate. by rewrite length_replicate.
Qed.

Lemma axis_index_outside (x r : Z) : 0 <= x <= r -> axis_index x r = Raise IndexError.
Proof. intros H. unfold axis_index. by rewrite !decide_False by lia. Qed.

Lemma nd_get_shaped (x y : Z) (a : ndarray) (r i : Z) :
  0 <= y -> shaped x y a ->
  0 <= r < x -> 0 <= i < y -> exists v, nd_get a r i = Ok v.
Proof.
  intros Hy Ha Hr Hi. destruct (shaped_row x y a r Ha Hr) as [f Hf].
  eexists. apply (nd_get_row a r y f); (done || lia).
Qed.

Lemma nd_get_slice_shaped (x y : Z) (a : ndarray) (r lo : Z) (hi : option Z) :
  0 <= y -> shaped x y a ->
  0 <= r < x -> 0 <= lo <= default y hi -> default y hi <= y ->
  exists vs, nd_get_slice a r lo hi = Ok vs
             /\ length vs = Z.to_nat (default y hi - lo).
Proof.
  intros Hy Ha Hr H1 H2. destruct (shaped_row x y a r Ha Hr) as [f Hf].
  eexists. split; [apply (nd_get_slice_row a r y f); (done || lia)|].
  by rewrite length_fmap, length_seqZ.
Qed.

Lemma nd_set_slice_shaped (x y : Z) (a : ndarray) (r lo : Z) (hi : option Z)
    (vs : list Qc) :
  0 <= y -> shaped x y a ->
  0 <= r < x -> 0 <= lo <= default y hi -> default y hi <= y ->
  length vs = Z.to_nat (default y hi - lo) ->
  exists a', nd_set_slice a r lo hi vs = Ok a' /\ shaped x y a'.
Proof.
  intros Hy Ha Hr H1 H2 Hlen. destruct (shaped_row x y a r Ha Hr) as [f Hf].
  rewrite (cells_of_list vs (default y hi - lo) Hlen).
  rewrite (nd_set_slice_values a r y f) by (done || lia).
  eexists. split; [done|]. by apply shaped_insert.
Qed.

Lemma nd_add_from_shaped (x y : Z) (a : ndarray) (r lo : Z) (v : Qc) :
  0 <= y -> shaped x y a ->
  0 <= r < x -> 0 <= lo <= y ->
  exists a', nd_add_from a r lo v = Ok a' /\ shaped x y a'.
Proof.
  intros Hy Ha Hr H1. destruct (shaped_row x y a r Ha Hr) as [f Hf].
  rewrite (nd_add_from_row a r y f) by (done || lia).
  eexists. split; [done|]. by apply shaped_insert.
Qed.

Lemma nd_set_slice_outside (x y : Z) (a : ndarray) (r lo : Z) (hi : option Z)
    (vs : list Qc) :
  shaped x y a -> 0 <= r -> x <= r ->
  nd_set_slice a r lo hi vs = Raise IndexError.
Proof.
  intros [Hlen _] Hr0 Hr. unfold nd_set_slice.
  rewrite axis_index_outside by lia. done.
Qed.

(** ** util.preprocess_node_positions *)

Lemma widest_nonneg (indices : list range) : 0 <= widest indices.
Proof. induction indices as [|r l IH]; simpl; lia. Qed.

Lemma range_len_nonneg (r : range) : 0 <= range_len r.
Proof. unfold range_len. lia. Qed.

Lemma widest_fold (indices : list range) (y : Z) :
  0 <= y ->
  fold_left (fun y layer => if decide (range_len layer > y)
                            then range_len layer else y) indices y
  = Z.max y (widest indices).
Proof.
  revert y. induction indices as [|r l IH]; intros y Hy; simpl.
  - lia.
  - pose proof (range_len_nonneg r). rewrite IH by (case_decide; lia).
    case_decide; lia.
Qed.

Lemma preprocess_node_positions_ok (first : range) (rest : list range) :
  preprocess_node_positions (first :: rest)
  = Ok (1%Qc, (1 / 2)%Qc, preprocessed (first :: rest)).
Proof.
  unfold preprocess_node_positions, preprocessed.
  change (list_get (first :: rest) 0) with (Ok first). cbn [mbind result_bind].
  pose proof (range_len_nonneg first) as Hfirst.
  rewrite widest_fold by done.
  assert (Hy : Z.max (range_len first) (widest (first :: rest))
               = widest (first :: rest)) by (simpl; lia).
  rewrite Hy. set (y := widest (first :: rest)).
  assert (0 <= y) by apply widest_nonneg.
  rewrite arange_full. unfold zeros. rewrite Nat2Z.id.
  cbn [length replicate]. rewrite replicate_cells.
  rewrite (nd_set_slice_values _ 0 y (fun _ => 0%Qc)) by (done || simpl; lia).
  cbn [mbind result_bind]. f_equal. f_equal.
  change (Z.to_nat 0) with 0%nat. cbn [insert list_insert].
  replace (S (length rest) - 1)%nat with (length rest) by lia.
  f_equal. apply cells_ext. intros i Hi. rewrite decide_True by lia.
  qc_field.
Qed.

Lemma preprocess_node_positions_returns (indices : list range) :
  indices <> [] ->
  preprocess_node_positions indices
  = Ok (1%Qc, (1 / 2)%Qc, preprocessed indices).
Proof.
  destruct indices; [done|]. intros _. apply preprocess_node_positions_ok.
Qed.

Lemma shaped_preprocessed (indices : list range) :
  indices <> [] ->
  shaped (Z.of_nat (length indices)) (widest indices) (preprocessed indices).
Proof.
  intros Hne. destruct indices as [|first rest]; [done|].
  unfold preprocessed. split.
  - cbn [length]. rewrite length_replicate. lia.
  - apply Forall_cons. split; [by rewrite length_fmap, length_seqZ|].
    apply Forall_replicate. by rewrite length_fmap, length_seqZ.
Qed.

(** ** Loops that stop at the first round *)

Lemma for_each_raises_first {St} (body : Z -> St -> result St) (a n : Z)
    (s : St) (e : exn) :
  0 < n -> body a s = Raise e -> for_each (seqZ a n) body s = Raise e.
Proof. intros Hn Hb. rewrite seqZ_cons by done. simpl. by rewrite Hb. Qed.

(** ** The helpers of [Fabric.set_node_positions] *)

Lemma mirror_positions_shaped (x y : Z) (a : ndarray) (m t : Z) :
  0 <= y -> shaped x y a -> 0 <= m < x -> 0 <= t < x ->
  exists a', Fabric_layout.mirror_positions m t a = Ok a' /\ shaped x y a'.
Proof.
  intros Hy Ha Hm Ht. unfold Fabric_layout.mirror_positions.
  destruct (nd_get_slice_shaped x y a m 0 None Hy Ha) as (vs & -> & Hvs);
    [simpl; lia ..|].
  cbn [mbind result_bind].
  apply (nd_set_slice_shaped x y a); simpl; (done || lia).
Qed.

Lemma mirror_positions_outside (x y : Z) (a : ndarray) (m t : Z) :
  0 <= y -> shaped x y a -> 0 <= m < x -> x <= t ->
  Fabric_layout.mirror_positions m t a = Raise IndexError.
Proof.
  intros Hy Ha Hm Ht. unfold Fabric_layout.mirror_positions.
  destruct (nd_get_slice_shaped x y a m 0 None Hy Ha) as (vs & -> & Hvs);
    [simpl; lia ..|].
  cbn [mbind result_bind]. apply (nd_set_slice_outside x y a); (done || lia).
Qed.

Lemma shift_layer_shaped (x y : Z) (a : ndarray) (idx : Z) (margin : Qc) :
  0 <= y -> shaped x y a -> 0 <= idx < x ->
  exists a', Fabric_layout.shift_layer idx margin a = Ok a' /\ shaped x y a'.
Proof.
  intros Hy Ha Hidx. apply (nd_add_from_shaped x y a); (done || lia).
Qed.

Lemma add_pod_spacing_shaped (x y : Z) (a : ndarray)
    (idx switches_per_pod pods : Z) :
  0 <= y -> shaped x y a -> 0 <= idx < x -> 0 <= switches_per_pod ->
  (pods - 1) * switches_per_pod <= y ->
  exists a', Fabric_layout.add_pod_spacing idx switches_per_pod pods a = Ok a'
             /\ shaped x y a'.
Proof.
  intros Hy Ha Hidx Hspp Hfit. unfold Fabric_layout.add_pod_spacing.
  apply (for_each_invariant (shaped x y)); [done|].
  intros pod a' Hpod Ha'. apply elem_of_seqZ in Hpod.
  apply (nd_add_from_shaped x y a'); (done || nia).
Qed.

Lemma group_layer_relative_shaped (x y : Z) (a : ndarray)
    (static_idx static pods relative_idx relative : Z) :
  0 <= y -> shaped x y a -> 0 <= static_idx < x -> 0 <= relative_idx < x ->
  1 <= static -> 0 <= relative ->
  pods * static <= y -> pods * relative <= y ->
  exists a',
    Fabric_layout.group_layer_relative (1 + 1 / 2)%Qc static_idx static pods
      relative_idx relative a = Ok a'
    /\ shaped x y a'.
Proof.
  intros Hy Ha Hs Hr Hst Hrel Hfs Hfr. unfold Fabric_layout.group_layer_relative.
  apply (for_each_invariant (shaped x y)); [done|].
  intros pod a' Hpod Ha'. apply elem_of_seqZ in Hpod.
  case_decide as Heq.
  - destruct (nd_get_slice_shaped x y a' static_idx (pod * relative)
                (Some (pod * relative + relative)) Hy Ha') as (vs & -> & Hvs);
      [simpl; nia ..|].
    cbn [mbind result_bind].
    apply (nd_set_slice_shaped x y a'); simpl; (done || nia).
  - destruct (nd_get_shaped x y a' static_idx (pod * static) Hy Ha')
      as (v & ->); [nia ..|].
    cbn [mbind result_bind]. rewrite arange_short.
    apply (nd_set_slice_shaped x y a'); simpl; try (done || nia).
    unfold nd_add. rewrite !length_fmap, length_seqZ. f_equal. lia.
Qed.

(** A layer that the array does not have *)
Lemma group_layer_relative_outside (x y : Z) (a : ndarray) (pos_step : Qc)
    (static_idx per_pod pods relative_idx : Z) :
  0 <= y -> shaped x y a -> 0 <= static_idx < x -> x <= relative_idx ->
  1 <= pods -> 0 <= per_pod <= y ->
  Fabric_layout.group_layer_relative pos_step static_idx per_pod pods
    relative_idx per_pod a = Raise IndexError.
Proof.
  intros Hy Ha Hs Hr Hpods Hfit. unfold Fabric_layout.group_layer_relative.
  apply for_each_raises_first; [lia|]. rewrite decide_True by done.
  destruct (nd_get_slice_shaped x y a static_idx (0 * per_pod)
              (Some (0 * per_pod + per_pod)) Hy Ha) as (vs & -> & Hvs);
    [simpl; lia ..|].
  cbn [mbind result_bind]. apply (nd_set_slice_outside x y a); (done || lia).
Qed.

(** ** [Fabric.set_node_positions] *)

Section FabricLayout.
Context {V : Type}.
Variables (s e n pc : Z) (cap : option (callable V)).
Hypothesis Hvalid : Fabric_valid s e n pc.

Lemma Fabric_widest :
  widest (Fabric_indices s e n pc) = Z.max (pc * s) (Z.max (n * s) (e * n)).
Proof.
  destruct Hvalid as (Hs & He & Hn & Hpc).
  unfold widest, Fabric_indices, range_len. simpl. nia.
Qed.

Lemma Fabric_set_node_positions_IndexError :
  Fabric_layout.set_node_positions (Fabric_instance s e n pc cap)
  = Raise IndexError.
Proof.
  pose proof Fabric_widest as Hw.
  destruct Hvalid as (Hs & He & Hn & Hpc).
  unfold Fabric_layout.set_node_positions.
  cbn [Fabric.base Fabric_instance Topology.indices Fabric.port_count
       Fabric.server_pods Fabric.edge_pods Fabric.nr_of_planes].
  cbv zeta.
  rewrite preprocess_node_positions_returns by done. cbn [mbind result_bind].
  pose proof (shaped_preprocessed (Fabric_indices s e n pc) ltac:(done))
    as Hshape.
  change (Z.of_nat (length (Fabric_indices s e n pc))) with 4 in Hshape.
  revert Hshape Hw.
  generalize (preprocessed (Fabric_indices s e n pc)) as position.
  generalize (widest (Fabric_indices s e n pc)) as y.
  intros y position Hshape Hw.
  assert (Hy : 0 <= y) by nia.
  (* the widest layer *)
  assert (H0 : list_get (Fabric_indices s e n pc) 0 = Ok (Range 1 (pc * s + 1)))
    by reflexivity.
  assert (H1 : list_get (Fabric_indices s e n pc) 1
               = Ok (Range (pc * s + 1) (pc * s + n * s + 1))) by reflexivity.
  assert (H2 : list_get (Fabric_indices s e n pc) 2
               = Ok (Range (pc * s + n * s + 1) (pc * s + n * s + n * s + 1)))
    by reflexivity.
  assert (H3 : list_get (Fabric_indices s e n pc) 3
               = Ok (Range (pc * s + n * s + n * s + 1)
                           (pc * s + n * s + n * s + e * n + 1)))
    by reflexivity.
  assert (Hother : forall w (position : ndarray),
    shaped 4 y position -> w = 1 \/ w = 3 ->
    (exists r, list_get (Fabric_indices s e n pc) w = Ok r
               /\ start r < stop r /\ stop r - 1 + 1 - (start r + 0) = y) ->
    n * s <= y ->
    (layer ← list_get (Fabric_indices s e n pc) w;
     last ← range_get layer (-1);
     first ← range_get layer 0;
     position ← nd_set_slice position w 0 None
       (arange (1 * (1 / 2)) (1 * (1 / 2)
                + float_of (last + 1 - first) * (1 + 1 / 2)) (1 + 1 / 2))%Qc;
     position ← Fabric_layout.add_pod_spacing w n
                  (if decide (w = 4) then e else s) position;
     position ←
       (if decide (w = 4) then
          position ← for_each (seqZ 1 2)
            (fun i position => Fabric_layout.mirror_positions w i position)
            position;
          for_each (seqZ 1 2)
            (fun i position =>
               Fabric_layout.shift_layer i
                 (float_of (e - s) * ((float_of n * (1 + 1 / 2) + 2) / 2))%Qc
                 position)
            position
        else
          values ← nd_get_slice position w 0 None;
          position ← nd_set_slice position (if decide (w = 2) then 1 else 2)
                       0 None values;
          position ← Fabric_layout.group_layer_relative (1 + 1 / 2)%Qc 2 n s 4 n
                       position;
          Fabric_layout.shift_layer 4
            (float_of (s - e) * ((float_of n * (1 + 1 / 2) + 2) / 2))%Qc
            position);
     Fabric_layout.group_layer_relative (1 + 1 / 2)%Qc 1 n s 0 pc position)
    = Raise IndexError).
  { clear position Hshape.
    intros w position Hshape Hw13 (r & Er & Hr & Hcount) Hfit.
    rewrite Er. cbn [mbind result_bind].
    rewrite range_get_last, range_get_nth by lia. cbn [mbind result_bind].
    rewrite Hcount, arange_full.
    shaped_step (nd_set_slice_shaped 4 y position w 0 None
                   ((fun i => (1 * (1 / 2) + float_of i * (1 + 1 / 2))%Qc)
                      <$> seqZ 0 y) Hy Hshape) as position0 Hshape0;
      [rewrite length_fmap, length_seqZ; simpl; f_equal; lia|].
    rewrite (decide_False (P := w = 4)) by lia.
    shaped_step (add_pod_spacing_shaped 4 y position0 w n s Hy Hshape0) as position1 Hshape1.
    rewrite (decide_False (P := w = 4)) by lia.
    destruct (nd_get_slice_shaped 4 y position1 w 0 None Hy Hshape1)
      as (vs & -> & Hvs); [simpl; lia ..|].
    cbn [mbind result_bind]. rewrite (decide_False (P := w = 2)) by lia.
    shaped_step (nd_set_slice_shaped 4 y position1 2 0 None vs Hy Hshape1) as position2 Hshape2.
    rewrite (group_layer_relative_outside 4 y position2) by (done || nia).
    done. }
  change (seqZ 0 4) with [0; 1; 2; 3]. cbn [for_each].
  rewrite H0. cbn [mbind result_bind].
  rewrite range_get_last, range_get_nth by (simpl; nia).
  cbn [mbind result_bind start stop].
  rewrite (decide_True (P := _ > _)) by nia. cbn [mbind result_bind].
  rewrite H1. cbn [mbind result_bind].
  rewrite range_get_last, range_get_nth by (simpl; nia).
  cbn [mbind result_bind start stop].
  case_gt as Hfabric;
    (rewrite H2; cbn [mbind result_bind];
     rewrite range_get_last, range_get_nth by (simpl; nia);
     cbn [mbind result_bind start stop];
     rewrite (decide_False (P := _ > _)) by nia; cbn [mbind result_bind];
     rewrite H3; cbn [mbind result_bind]).
  all: destruct (decide (e = 0)) as [He0|He0];
    [rewrite (range_get_empty _ (-1)) by (simpl; nia); reflexivity|].
  all: rewrite range_get_last, range_get_nth by (simpl; nia);
    cbn [mbind result_bind start stop].
  all: case_gt as Hedge.
  - (* the edge layer is the widest *)
    rewrite (decide_False (P := 3 = 0)) by done.
    apply (Hother 3 position Hshape); [lia| |nia].
    eexists. split; [exact H3|]. simpl. nia.
  - (* the fabric layer is the widest *)
    rewrite (decide_False (P := 1 = 0)) by done.
    apply (Hother 1 position Hshape); [lia| |nia].
    eexists. split; [exact H1|]. simpl. nia.
  - rewrite (decide_False (P := 3 = 0)) by done.
    apply (Hother 3 position Hshape); [lia| |nia].
    eexists. split; [exact H3|]. simpl. nia.
  - (* the racks are the widest layer *)
    rewrite (decide_True (P := 0 = 0)) by done.
    shaped_step (add_pod_spacing_shaped 4 y position 0 pc s Hy Hshape) as position0 Hshape0.
    shaped_step (group_layer_relative_shaped 4 y position0 0 pc s 1 n
                   Hy Hshape0) as position1 Hshape1.
    shaped_step (mirror_positions_shaped 4 y position1 1 2 Hy Hshape1) as position2 Hshape2.
    destruct (decide (e < s)) as [Hless|Hless].
    + by rewrite (mirror_positions_outside 4 y position2) by (done || lia).
    + destruct (decide (e = s)) as [Hsame|Hsame].
      * by rewrite (mirror_positions_outside 4 y position2) by (done || lia).
      * destruct (nd_get_shaped 4 y position2 2 0 Hy Hshape2) as (v & ->);
          [nia ..|].
        cbn [mbind result_bind].
        rewrite for_each_raises_first with (e := IndexError); [done|lia|].
        apply (nd_set_slice_outside 4 y position2); (done || lia).
Qed.
End FabricLayout.

(** ** [Jupiter_bl.set_node_positions] *)

Section Jupiter_blLayout.
Context {V : Type}.
Variables (S A : Z) (cap : option (callable V)).
Hypothesis Hvalid : Jupiter_valid S A.

Lemma Jupiter_bl_widest : widest (Jupiter_bl_indices S A) = Z.max (32 * A) S.
Proof.
  destruct Hvalid as [HA HS].
  unfold widest, Jupiter_bl_indices, range_len. simpl. lia.
Qed.

Lemma Jupiter_bl_set_node_positions_ok :
  Jupiter_bl_layout.set_node_positions (Jupiter_bl_instance S A cap)
  = Completes (Ok (Jupiter_bl_positions S A)).
Proof.
  pose proof Jupiter_bl_widest as Hw. destruct Hvalid as [HA HS].
  unfold Jupiter_bl_layout.set_node_positions, Jupiter_bl_positions.
  cbn [Jupiter_bl.base Jupiter_bl_instance Topology.indices
       Jupiter_bl.aggregation_block_count Jupiter_bl.tors_per_aggregation_block
       Jupiter_bl.middle_block_per_aggregation Jupiter_bl.tor_idx_range
       Jupiter_bl.spine_idx_range].
  cbv zeta.
  rewrite preprocess_node_positions_returns by done. ok_then.
  unfold preprocessed. rewrite Hw.
  change (length (Jupiter_bl_indices S A) - 1)%nat with 2%nat.
  cbn [replicate].
  set (y := Z.max (32 * A) S). assert (Hy : 0 <= y) by lia.
  set (zero := (fun _ : Z => 0%Qc) <$> seqZ 0 y).
  (* extra spacing between the aggregation blocks *)
  loop_with (fun k => [ Jupiter_bl_tor k <$> seqZ 0 y; zero; zero ])
    from 1 for (A - 1).
  { same_rows. apply cells_ext. intros i Hi. unfold Jupiter_bl_tor.
    replace (Z.min (i / 32) (1 - 1)) with 0 by (Z.div_mod_to_equations; lia).
    qc_field. }
  { lia. }
  { intros k Hk.
    rewrite (nd_add_from_row _ 0 y (Jupiter_bl_tor k)) by (done || lia).
    change (Z.to_nat 0) with 0%nat. cbn [insert list_insert].
    same_rows. apply cells_ext. intros i Hi. unfold Jupiter_bl_tor.
    case_decide.
    - replace (Z.min (i / 32) (k - 1)) with (k - 1)
        by (Z.div_mod_to_equations; lia).
      replace (Z.min (i / 32) (k + 1 - 1)) with k
        by (Z.div_mod_to_equations; lia).
      qc_field.
    - replace (Z.min (i / 32) (k + 1 - 1)) with (Z.min (i / 32) (k - 1))
        by (Z.div_mod_to_equations; lia).
      done. }
  ok_then. replace (1 + (A - 1)) with A by lia.
  set (tors := Jupiter_bl_tor A <$> seqZ 0 y).
  (* the middle blocks of each aggregation block *)
  set (middle k i :=
         if decide (i < 8 * k)
         then (Jupiter_bl_tor A (32 * (i / 8) + 16) - float_of 6
               + float_of 3 / 2 * float_of (i mod 8))%Qc
         else 0%Qc).
  loop_with (fun k => ([ tors; middle k <$> seqZ 0 y; zero ],
                       if decide (k = 0) then None else Some (1 + 1 / 2)%Qc))
    from 0 for A.
  { same_rows. apply cells_ext. intros i Hi. unfold middle.
    by rewrite decide_False by lia. }
  { lia. }
  { intros k Hk.
    replace (float_of (k * 32) + float_of 32 / 2)%Qc
      with (float_of (32 * k + 16)) by qc_field.
    rewrite int_of_float_of.
    rewrite (nd_get_row _ 0 y (Jupiter_bl_tor A)) by (done || lia).
    ok_then.
    rewrite (int_of_half 8) by lia. change (8 / 2) with 4.
    rewrite arange_short.
    rewrite (nd_set_slice_values _ 1 y (middle k)) by (done || simpl; lia).
    ok_then. change (Z.to_nat 1) with 1%nat.
    cbn [insert list_insert].
    same_rows. apply cells_ext. intros i Hi.
    unfold middle. repeat case_decide; try lia; try done.
    replace (i / 8) with k by (Z.div_mod_to_equations; lia).
    replace (i mod 8) with (i - k * 8) by (Z.div_mod_to_equations; lia).
    qc_field. }
  ok_then. replace (0 + A) with A by lia.
  rewrite (decide_False (P := A = 0)) by lia.
  (* the spine blocks *)
  rewrite range_get_last by (simpl; lia). ok_then; cbn [stop].
  replace (float_of (A * 32 + 1 - 1) / 2)%Qc with (float_of (16 * A))
    by qc_field.
  rewrite int_of_float_of.
  rewrite (nd_get_row _ 0 y (Jupiter_bl_tor A)) by (done || lia).
  ok_then.
  replace (range_len (Range (A * 32 + A * 8 + 1) (A * 32 + A * 8 + S + 1)))
    with S by (unfold range_len; simpl; lia).
  rewrite int_of_half by lia.
  set (spine k i :=
         if decide (i < k)
         then (Jupiter_bl_tor A (16 * A) - float_of 3 * float_of (S / 2)
               + float_of 3 * float_of i)%Qc
         else 0%Qc).
  loop_with (fun k => [ tors; middle A <$> seqZ 0 y; spine k <$> seqZ 0 y ])
    from 0 for S.
  { same_rows. apply cells_ext. intros i Hi. unfold spine.
    by rewrite decide_False by lia. }
  { lia. }
  { intros k Hk.
    rewrite (nd_set_row _ 2 y (spine k)) by (done || lia).
    change (Z.to_nat 2) with 2%nat. cbn [insert list_insert].
    same_rows. apply cells_ext. intros i Hi.
    unfold spine. repeat case_decide; try lia; try done.
    subst i. qc_field. }
  replace (0 + S) with S by lia. done.
Qed.
End Jupiter_blLayout.

(** ** [Jupiter.set_node_positions] *)

Section JupiterLayout.
Context {V : Type}.
Variables (S A : Z) (cap : option (callable V)).
Hypothesis Hvalid : Jupiter_valid S A.

Lemma Jupiter_widest : widest (Jupiter_indices S A) = Z.max (32 * A) (6 * S).
Proof.
  destruct Hvalid as [HA HS].
  unfold widest, Jupiter_indices, range_len. simpl. lia.
Qed.

Lemma Jupiter_set_node_positions_ok :
  Jupiter_layout.set_node_positions (Jupiter_instance S A cap)
  = Completes (Ok (Jupiter_positions S A)).
Proof.
  pose proof Jupiter_widest as Hw. destruct Hvalid as [HA HS].
  unfold Jupiter_layout.set_node_positions, Jupiter_positions.
  cbn [Jupiter.base Jupiter_instance Topology.indices
       Jupiter.aggregation_block_count Jupiter.tors_per_aggregation_block
       Jupiter.middle_block_per_aggregation Jupiter.tor_idx_range
       Jupiter.spine_idx_range Jupiter.spine_block_count
       Jupiter.switches_per_spine].
  cbv zeta.
  rewrite preprocess_node_positions_returns by done. ok_then.
  unfold preprocessed. rewrite Hw.
  change (length (Jupiter_indices S A) - 1)%nat with 2%nat.
  cbn [replicate].
  set (y := Z.max (32 * A) (6 * S)). assert (Hy : 0 <= y) by lia.
  set (zero := (fun _ : Z => 0%Qc) <$> seqZ 0 y).
  (* extra spacing after every 8 racks and aggregation switches *)
  set (gap k i := (2 * float_of (Z.min (i / 8) (k - 1)))%Qc).
  loop_with (fun k => [ Jupiter_tor k <$> seqZ 0 y; gap k <$> seqZ 0 y; zero ])
    from 1 for (A - 1).
  { same_rows; apply cells_ext; intros i Hi; unfold Jupiter_tor, gap;
      replace (Z.min (i / 8) (1 - 1)) with 0 by (Z.div_mod_to_equations; lia);
      qc_field. }
  { lia. }
  { intros k Hk.
    rewrite (nd_add_from_row _ 0 y (Jupiter_tor k)) by (done || lia).
    ok_then. change (Z.to_nat 0) with 0%nat. cbn [insert list_insert].
    rewrite (nd_add_from_row _ 1 y (gap k)) by (done || lia).
    change (Z.to_nat 1) with 1%nat. cbn [insert list_insert].
    same_rows; apply cells_ext; intros i Hi; unfold Jupiter_tor, gap;
      case_decide.
    - replace (Z.min (i / 8) (k - 1)) with (k - 1)
        by (Z.div_mod_to_equations; lia).
      replace (Z.min (i / 8) (k + 1 - 1)) with k
        by (Z.div_mod_to_equations; lia).
      qc_field.
    - replace (Z.min (i / 8) (k + 1 - 1)) with (Z.min (i / 8) (k - 1))
        by (Z.div_mod_to_equations; lia).
      done.
    - replace (Z.min (i / 8) (k - 1)) with (k - 1)
        by (Z.div_mod_to_equations; lia).
      replace (Z.min (i / 8) (k + 1 - 1)) with k
        by (Z.div_mod_to_equations; lia).
      qc_field.
    - replace (Z.min (i / 8) (k + 1 - 1)) with (Z.min (i / 8) (k - 1))
        by (Z.div_mod_to_equations; lia).
      done. }
  ok_then. replace (1 + (A - 1)) with A by lia.
  set (tors := Jupiter_tor A <$> seqZ 0 y).
  (* the aggregation switches of each block *)
  set (agg k i :=
         if decide (i < 32 * k)
         then (Jupiter_tor A (32 * (i / 32))
               + float_of 3 / 2 * float_of (i mod 32))%Qc
         else gap A i).
  loop_with (fun k => ([ tors; agg k <$> seqZ 0 y; zero ],
                       if decide (k = 0) then None else Some (1 + 1 / 2)%Qc))
    from 0 for A.
  { same_rows. apply cells_ext. intros i Hi. unfold agg.
    by rewrite decide_False by lia. }
  { lia. }
  { intros k Hk.
    rewrite (int_of_half 32) by lia. change (32 / 2) with 16.
    replace (float_of (k * 32) + float_of 32 / 2 - float_of 16)%Qc
      with (float_of (32 * k)) by qc_field.
    rewrite int_of_float_of.
    rewrite (nd_get_row _ 0 y (Jupiter_tor A)) by (done || lia).
    ok_then. rewrite arange_short.
    rewrite (nd_set_slice_values _ 1 y (agg k)) by (done || simpl; lia).
    ok_then. change (Z.to_nat 1) with 1%nat. cbn [insert list_insert].
    same_rows. apply cells_ext. intros i Hi.
    unfold agg. repeat case_decide; try lia; try done.
    replace (i / 32) with k by (Z.div_mod_to_equations; lia).
    replace (i mod 32) with (i - k * 32) by (Z.div_mod_to_equations; lia).
    qc_field. }
  ok_then. replace (0 + A) with A by lia.
  rewrite (decide_False (P := A = 0)) by lia.
  (* the spine switches *)
  rewrite range_get_last by (simpl; lia). ok_then; cbn [stop].
  replace (float_of (A * 32 + 1 - 1) / 2)%Qc with (float_of (16 * A))
    by qc_field.
  rewrite int_of_float_of.
  rewrite (nd_get_row _ 0 y (Jupiter_tor A)) by (done || lia).
  ok_then.
  replace (range_len (Range (A * 32 + A * 8 * 4 + 1)
                            (A * 32 + A * 8 * 4 + S * 6 + 1)))
    with (S * 6) by (unfold range_len; simpl; lia).
  rewrite int_of_half by lia.
  replace (S * 6 / 2) with (3 * S) by (Z.div_mod_to_equations; lia).
  set (first_spine :=
         (Jupiter_tor A (16 * A) - (1 + 1 / 2) * float_of (3 * S))%Qc).
  set (spine k i :=
         if decide (i < k)
         then (first_spine + float_of i * (1 + 1 / 2))%Qc else 0%Qc).
  loop_with (fun k => [ tors; agg A <$> seqZ 0 y; spine k <$> seqZ 0 y ])
    from 0 for (S * 6).
  { same_rows. apply cells_ext. intros i Hi. unfold spine.
    by rewrite decide_False by lia. }
  { lia. }
  { intros k Hk.
    rewrite (nd_set_row _ 2 y (spine k)) by (done || lia).
    change (Z.to_nat 2) with 2%nat. cbn [insert list_insert].
    same_rows. apply cells_ext. intros i Hi.
    unfold spine. repeat case_decide; try lia; try done.
    by subst i. }
  ok_then. replace (0 + S * 6) with (S * 6) by lia.
  (* extra spacing before every spine block *)
  set (block k i :=
         if decide (i < S * 6)
         then (first_spine + float_of i * (1 + 1 / 2)
               + 2 * float_of (Z.min (i / 6 + 1) k))%Qc
         else (2 * float_of k)%Qc).
  loop_with (fun k => [ tors; agg A <$> seqZ 0 y; block k <$> seqZ 0 y ])
    from 0 for S.
  { same_rows. apply cells_ext. intros i Hi. unfold spine, block.
    case_decide.
    - replace (Z.min (i / 6 + 1) 0) with 0 by (Z.div_mod_to_equations; lia).
      qc_field.
    - qc_field. }
  { lia. }
  { intros k Hk.
    etrans; [apply (nd_add_from_row _ 2 y (block k)); (done || lia)|].
    change (Z.to_nat 2) with 2%nat. cbn [insert list_insert].
    same_rows. apply cells_ext. intros i Hi.
    unfold block. repeat case_decide; try lia.
    - replace (Z.min (i / 6 + 1) k) with k by (Z.div_mod_to_equations; lia).
      replace (Z.min (i / 6 + 1) (k + 1)) with (k + 1)
        by (Z.div_mod_to_equations; lia).
      qc_field.
    - qc_field.
    - replace (Z.min (i / 6 + 1) (k + 1)) with (Z.min (i / 6 + 1) k)
        by (Z.div_mod_to_equations; lia).
      done. }
  replace (0 + S) with S by lia.
  same_rows; apply cells_ext; intros i Hi.
  - unfold agg, gap. case_decide as Hi1; [done|].
    replace (Z.min (i / 8) (A - 1)) with (A - 1)
      by (Z.div_mod_to_equations; lia).
    done.
  - unfold block, first_spine. case_decide as Hi1;
      [rewrite decide_True by lia|by rewrite decide_False by lia].
    replace (Z.min (i / 6 + 1) S) with (i / 6 + 1)
      by (Z.div_mod_to_equations; lia).
    qc_field.
Qed.
End JupiterLayout.

(** ** The positions of single switches *)

Lemma Jupiter_bl_rack_at (S A i : Z) :
  0 <= i < Z.max (32 * A) S ->
  nd_get (Jupiter_bl_positions S A) 0 i = Ok (Jupiter_bl_tor A i).
Proof.
  intros Hi. unfold Jupiter_bl_positions.
  by rewrite (nd_get_row _ 0 (Z.max (32 * A) S) (Jupiter_bl_tor A))
    by (done || lia).
Qed.

Lemma Jupiter_bl_middle_block_at (S A i : Z) :
  0 <= i < 8 * A ->
  nd_get (Jupiter_bl_positions S A) 1 i
  = Ok (Jupiter_bl_tor A (32 * (i / 8) + 16) - float_of 6
        + float_of 3 / 2 * float_of (i mod 8))%Qc.
Proof.
  intros Hi. unfold Jupiter_bl_positions.
  rewrite (nd_get_row _ 1 (Z.max (32 * A) S)
             (fun i => if decide (i < 8 * A)
                       then (Jupiter_bl_tor A (32 * (i / 8) + 16) - float_of 6
                             + float_of 3 / 2 * float_of (i mod 8))%Qc
                       else 0%Qc))
    by (done || lia).
  by rewrite decide_True by lia.
Qed.

Lemma Jupiter_rack_at (S A i : Z) :
  0 <= i < Z.max (32 * A) (6 * S) ->
  nd_get (Jupiter_positions S A) 0 i = Ok (Jupiter_tor A i).
Proof.
  intros Hi. unfold Jupiter_positions.
  by rewrite (nd_get_row _ 0 (Z.max (32 * A) (6 * S)) (Jupiter_tor A))
    by (done || lia).
Qed.

(** * The layouts of the generators *)

(** X14. [preprocess_node_positions] returns a node width of 1, a gap of
    1/2 and an array with one row for each layer of the topology, as long as
    the widest layer: row 0 holds 1/2, 2, 7/2, ... (3/2 apart) and every
    other row holds zeros.  For a topology without layers it raises
    IndexError. *)
Theorem preprocess_node_positions_spec :
  forall (first : range) (rest : list range),
    let indices := first :: rest in
    preprocess_node_positions indices
    = Ok (1%Qc, (1 / 2)%Qc, preprocessed indices)
    /\ shaped (Z.of_nat (length indices)) (widest indices) (preprocessed indices)
    /\ preprocess_node_positions [] = Raise IndexError.
Proof.
  intros first rest indices. split; [apply preprocess_node_positions_ok|].
  split; [by apply shaped_preprocessed|done].
Qed.

(** X15. [Fabric.set_node_positions] raises IndexError for every Fabric
    with valid parameters: the position array has the four rows 0..3, and
    the method addresses the edge layer as row 4 (or, without edge pods,
    asks for the last switch of an empty layer). *)
Theorem Fabric_set_node_positions_raises :
  forall V (cap : option (callable V)) s e n pc,
    Fabric_valid s e n pc -> valid_cap cap ->
    exists t, Fabric.init s e n pc cap = Ok t /\
      Fabric_layout.set_node_positions t = Raise IndexError.
Proof.
  intros V cap s e n pc Hv Hcap. eexists.
  split; [by apply Fabric_init_ok|]. by apply Fabric_set_node_positions_IndexError.
Qed.

Lemma Fabric_set_node_positions_raises_witness :
  exists t, Fabric.init (V:=Z) 4 4 4 48 None = Ok t /\
    Fabric_layout.set_node_positions t = Raise IndexError.
Proof.
  apply (Fabric_set_node_positions_raises Z None 4 4 4 48);
    [unfold Fabric_valid; lia | exact I].
Defined.

(** X16. [Jupiter_bl.set_node_positions] returns, for every Jupiter-Blocks
    with valid parameters, the three rows of [Jupiter_bl_positions]: rack i
    at 1/2 + 3/2 i + 2 min(i div 32, A - 1), middle block i at the position
    of rack 16 of its aggregation block - 6 + 3/2 (i mod 8), spine block i
    at the position of rack 16 A - 3 (S div 2) + 3 i. *)
Theorem Jupiter_bl_set_node_positions_spec :
  forall V (cap : option (callable V)) S A,
    Jupiter_valid S A -> valid_cap cap ->
    exists t, Jupiter_bl.init S A cap = Ok t /\
      Jupiter_bl_layout.set_node_positions t
      = Completes (Ok (Jupiter_bl_positions S A)).
Proof.
  intros V cap S A Hv Hcap. eexists.
  split; [by apply Jupiter_bl_init_ok|]. by apply Jupiter_bl_set_node_positions_ok.
Qed.

Lemma Jupiter_bl_set_node_positions_spec_witness :
  exists t, Jupiter_bl.init (V:=Z) 3 2 None = Ok t /\
    Jupiter_bl_layout.set_node_positions t
    = Completes (Ok (Jupiter_bl_positions 3 2)).
Proof.
  apply (Jupiter_bl_set_node_positions_spec Z None 3 2);
    [unfold Jupiter_valid; lia | exact I].
Defined.

(** X17. [Jupiter.set_node_positions] returns, for every Jupiter with valid
    parameters, the three rows of [Jupiter_positions]: rack i at
    1/2 + 3/2 i + 2 min(i div 8, A - 1), aggregation switch i at the
    position of the first rack of its block + 3/2 (i mod 32), spine switch i
    at the position of rack 16 A - 3/2 (3 S) + 3/2 i + 2 (i div 6 + 1). *)
Theorem Jupiter_set_node_positions_spec :
  forall V (cap : option (callable V)) S A,
    Jupiter_valid S A -> valid_cap cap ->
    exists t, Jupiter.init S A cap = Ok t /\
      Jupiter_layout.set_node_positions t
      = Completes (Ok (Jupiter_positions S A)).
Proof.
  intros V cap S A Hv Hcap. eexists.
  split; [by apply Jupiter_init_ok|]. by apply Jupiter_set_node_positions_ok.
Qed.

Lemma Jupiter_set_node_positions_spec_witness :
  exists t, Jupiter.init (V:=Z) 3 2 None = Ok t /\
    Jupiter_layout.set_node_positions t
    = Completes (Ok (Jupiter_positions 3 2)).
Proof.
  apply (Jupiter_set_node_positions_spec Z None 3 2);
    [unfold Jupiter_valid; lia | exact I].
Defined.

(** X18. In the layout of a Jupiter-Blocks with valid parameters, racks
    side by side stand 3/2 apart within an aggregation block and 7/2 apart
    where one block ends and the next begins. *)
Theorem Jupiter_bl_rack_gaps :
  forall V (cap : option (callable V)) S A,
    Jupiter_valid S A -> valid_cap cap ->
    exists t position, Jupiter_bl.init S A cap = Ok t /\
      Jupiter_bl_layout.set_node_positions t = Completes (Ok position) /\
      rack_gaps position (32 * A) (fun i => bool_decide (i mod 32 = 0)).
Proof.
  intros V cap S A Hv Hcap. eexists _, _.
  split; [by apply Jupiter_bl_init_ok|].
  split; [by apply Jupiter_bl_set_node_positions_ok|].
  destruct Hv as [HA HS]. intros i Hi0 Hi. eexists _, _.
  split; [apply Jupiter_bl_rack_at; lia|].
  split; [apply Jupiter_bl_rack_at; lia|].
  unfold Jupiter_bl_tor. case_bool_decide as Hb.
  - replace (Z.min ((i + 1) / 32) (A - 1)) with (Z.min (i / 32) (A - 1) + 1)
      by (Z.div_mod_to_equations; lia).
    qc_field.
  - replace (Z.min ((i + 1) / 32) (A - 1)) with (Z.min (i / 32) (A - 1))
      by (Z.div_mod_to_equations; lia).
    qc_field.
Qed.

Lemma Jupiter_bl_rack_gaps_witness :
  exists t position, Jupiter_bl.init (V:=Z) 3 2 None = Ok t /\
    Jupiter_bl_layout.set_node_positions t = Completes (Ok position) /\
    rack_gaps position (32 * 2) (fun i => bool_decide (i mod 32 = 0)).
Proof.
  apply (Jupiter_bl_rack_gaps Z None 3 2);
    [unfold Jupiter_valid; lia | exact I].
Defined.

(** X19. In the layout of a Jupiter-Blocks with valid parameters, the 8
    middle blocks of every aggregation block are centred above the 32 racks
    of the block. *)
Theorem Jupiter_bl_middle_blocks_centred :
  forall V (cap : option (callable V)) S A,
    Jupiter_valid S A -> valid_cap cap ->
    exists t position, Jupiter_bl.init S A cap = Ok t /\
      Jupiter_bl_layout.set_node_positions t = Completes (Ok position) /\
      middle_blocks_centred position A.
Proof.
  intros V cap S A Hv Hcap. eexists _, _.
  split; [by apply Jupiter_bl_init_ok|].
  split; [by apply Jupiter_bl_set_node_positions_ok|].
  destruct Hv as [HA HS]. intros b Hb. eexists _, _, _, _.
  split; [apply Jupiter_bl_rack_at; lia|].
  split; [apply Jupiter_bl_rack_at; lia|].
  split; [apply Jupiter_bl_middle_block_at; lia|].
  split; [apply Jupiter_bl_middle_block_at; lia|].
  unfold Jupiter_bl_tor.
  replace (8 * b / 8) with b by (Z.div_mod_to_equations; lia).
  replace ((8 * b + 7) / 8) with b by (Z.div_mod_to_equations; lia).
  replace ((8 * b) mod 8) with 0 by (Z.div_mod_to_equations; lia).
  replace ((8 * b + 7) mod 8) with 7 by (Z.div_mod_to_equations; lia).
  replace (32 * b / 32) with b by (Z.div_mod_to_equations; lia).
  replace ((32 * b + 31) / 32) with b by (Z.div_mod_to_equations; lia).
  replace ((32 * b + 16) / 32) with b by (Z.div_mod_to_equations; lia).
  qc_field.
Qed.

Lemma Jupiter_bl_middle_blocks_centred_witness :
  exists t position, Jupiter_bl.init (V:=Z) 3 2 None = Ok t /\
    Jupiter_bl_layout.set_node_positions t = Completes (Ok position) /\
    middle_blocks_centred position 2.
Proof.
  apply (Jupiter_bl_middle_blocks_centred Z None 3 2);
    [unfold Jupiter_valid; lia | exact I].
Defined.

(** X20. In the layout of a Jupiter with valid parameters, the wider gap of
    7/2 between racks side by side comes after every 8 racks, A - 1 times;
    all other neighbours stand 3/2 apart.  The gaps do not fall where one
    aggregation block of 32 racks ends and the next begins, unless that is
    one of those places. *)
Theorem Jupiter_rack_gaps :
  forall V (cap : option (callable V)) S A,
    Jupiter_valid S A -> valid_cap cap ->
    exists t position, Jupiter.init S A cap = Ok t /\
      Jupiter_layout.set_node_positions t = Completes (Ok position) /\
      rack_gaps position (32 * A)
        (fun i => bool_decide (i mod 8 = 0 /\ i / 8 < A)).
Proof.
  intros V cap S A Hv Hcap. eexists _, _.
  split; [by apply Jupiter_init_ok|].
  split; [by apply Jupiter_set_node_positions_ok|].
  destruct Hv as [HA HS]. intros i Hi0 Hi. eexists _, _.
  split; [apply Jupiter_rack_at; lia|].
  split; [apply Jupiter_rack_at; lia|].
  unfold Jupiter_tor. case_bool_decide as Hb.
  - replace (Z.min ((i + 1) / 8) (A - 1)) with (Z.min (i / 8) (A - 1) + 1)
      by (Z.div_mod_to_equations; lia).
    qc_field.
  - replace (Z.min ((i + 1) / 8) (A - 1)) with (Z.min (i / 8) (A - 1))
      by (Z.div_mod_to_equations; lia).
    qc_field.
Qed.

Lemma Jupiter_rack_gaps_witness :
  exists t position, Jupiter.init (V:=Z) 3 2 None = Ok t /\
    Jupiter_layout.set_node_positions t = Completes (Ok position) /\
    rack_gaps position (32 * 2)
      (fun i => bool_decide (i mod 8 = 0 /\ i / 8 < 2)).
Proof.
  apply (Jupiter_rack_gaps Z None 3 2);
    [unfold Jupiter_valid; lia | exact I].
Defined.
